(** * Bit packing of exponent vectors and truncated polynomial multiplication

    A shallow embedding of [include/piranha/utils/bit_packing.hpp]: the
    signed and unsigned packers and unpackers, the table of the minimal and
    maximal packed values, and the [bit_packer] / [bit_unpacker] front ends.
    Machine integers are [Z] with the wrap-around of every operation
    written out; exceptions are values of [result]; a member function is a
    function from the object to the object after the call and the outcome. *)

From Stdlib Require Import ZArith Lia List Bool.
From stdpp Require Import base option list strings gmap.

Local Open Scope Z_scope.

(** ** Integral types *)

(** An integral type, as far as the packing code looks at it: signedness
    and [std::numeric_limits<T>::digits]. *)
Record int_type : Type := IntType { is_signed : bool; limits_digits : Z }.

(** Modelled from the spec: [piranha/detail/limits.hpp] and
    [piranha/type_traits.hpp] are not part of the sources at hand. The
    packed word is one of the 32, 64 and 128 bit integers, signed or
    unsigned; [digits] counts the value bits without the sign bit. *)
Definition t_int : int_type := IntType true 31.
Definition t_unsigned : int_type := IntType false 32.
Definition t_long : int_type := IntType true 63.
Definition t_unsigned_long : int_type := IntType false 64.
Definition t_long_long : int_type := IntType true 63.
Definition t_unsigned_long_long : int_type := IntType false 64.
Definition t_int128 : int_type := IntType true 127.
Definition t_uint128 : int_type := IntType false 128.

Definition int_type_eqb (a b : int_type) : bool :=
  Bool.eqb (is_signed a) (is_signed b) && (limits_digits a =? limits_digits b).

(** [is_bit_packable]: the disjunction of [is_same] over the allowed types. *)
Definition is_bit_packable (T : int_type) : bool :=
  existsb (int_type_eqb T)
    [t_int; t_unsigned; t_long; t_unsigned_long; t_long_long;
     t_unsigned_long_long; t_int128; t_uint128].

(** Bit width of [T]: [digits + 1] for a signed type, [digits] otherwise. *)
Definition nbits (T : int_type) : Z :=
  if is_signed T then limits_digits T + 1 else limits_digits T.

(** [limits_minmax<T>] for a signed [T]. *)
Definition limits_min (T : int_type) : Z :=
  if is_signed T then - 2 ^ limits_digits T else 0.
Definition limits_max (T : int_type) : Z := 2 ^ limits_digits T - 1.

(** The values of type [T]. *)
Definition representable (T : int_type) (z : Z) : Prop :=
  limits_min T <= z <= limits_max T.

Definition representableb (T : int_type) (z : Z) : bool :=
  (limits_min T <=? z) && (z <=? limits_max T).

(** Conversion to an unsigned type of [w] bits, and to a signed type of [w]
    bits in two's complement. *)
Definition to_unsigned (w z : Z) : Z := z mod 2 ^ w.
Definition to_signed (w z : Z) : Z := (z + 2 ^ (w - 1)) mod 2 ^ w - 2 ^ (w - 1).

(** ** Exceptions and member functions *)

Inductive exn : Type := overflow_error | out_of_range | invalid_argument.

Inductive result (A : Type) : Type :=
  | Ok (a : A)
  | Throw (e : exn).
Arguments Ok {A} a.
Arguments Throw {A} e.

(** A member function of a class with state [S]: the object after the call
    (an exception leaves it as the function had it when throwing) and the
    value returned or the exception thrown. *)
Definition method (S A : Type) : Type := S -> S * result A.

Definition mret {S A} (a : A) : method S A := fun s => (s, Ok a).
Definition mthrow {S A} (e : exn) : method S A := fun s => (s, Throw e).
Definition mbind {S A B} (m : method S A) (f : A -> method S B) : method S B :=
  fun s => match m s with
           | (s', Ok a) => f a s'
           | (s', Throw e) => (s', Throw e)
           end.

Notation "x <~ m ;; k" := (mbind m (fun x => k))
  (at level 100, m at next level, right associativity).
Notation "m ;;; k" := (mbind m (fun _ => k))
  (at level 100, right associativity).

(** Sequencing of constructors and functions that only return or throw. *)
Definition rbind {A B} (r : result A) (f : A -> result B) : result B :=
  match r with Ok a => f a | Throw e => Throw e end.

(** Run a member function on an object just built; the object is dropped. *)
Definition run {S A} (obj : result S) (m : method S A) : result A :=
  rbind obj (fun s => snd (m s)).

(** ** The signed packer *)

Module signed_bit_packer_impl.

Record t : Type := mk {
  m_value : Z; m_min : Z; m_max : Z;
  m_index : Z; m_size : Z; m_pbits : Z; m_cur_shift : Z
}.

Definition ctor (T : int_type) (size : Z) : result t :=
  let nbits := limits_digits T + 1 in
  if nbits <=? size then Throw overflow_error
  else if size =? 0 then Ok (mk 0 0 0 0 size 0 0)
  else if size =? 1 then
    Ok (mk 0 (limits_min T) (limits_max T) 0 size nbits 0)
  else
    let pbits := nbits / size - (if nbits mod size =? 0 then 1 else 0) in
    Ok (mk 0
           (to_signed nbits (- to_signed nbits (Z.shiftl 1 (pbits - 1))))
           (to_signed nbits (to_signed nbits (Z.shiftl 1 (pbits - 1)) - 1))
           0 size pbits 0).

Definition op_lshift (T : int_type) (n : Z) : method t unit := fun st =>
  let nbits := limits_digits T + 1 in
  if m_index st =? m_size st then (st, Throw out_of_range)
  else if (n <? m_min st) || (m_max st <? n) then (st, Throw overflow_error)
  else
    let tmp := to_signed nbits (Z.shiftl 1 (m_cur_shift st)) in
    (mk (to_signed nbits (m_value st + to_signed nbits (n * tmp)))
        (m_min st) (m_max st)
        (m_index st + 1) (m_size st) (m_pbits st)
        (m_cur_shift st + m_pbits st),
     Ok tt).

Definition get : method t Z := fun st =>
  if m_index st <? m_size st then (st, Throw out_of_range)
  else (st, Ok (m_value st)).

(** The three results of [operator<<] before conversion to [T]: the shifted
    one, the product and the new accumulator. The arithmetic of the push is
    defined when the shift count is below the width and all three are
    values of [T]. *)
Definition lshift_defined (T : int_type) (n : Z) (st : t) : Prop :=
  0 <= m_cur_shift st < limits_digits T + 1 /\
  representable T (Z.shiftl 1 (m_cur_shift st)) /\
  representable T (n * Z.shiftl 1 (m_cur_shift st)) /\
  representable T (m_value st + n * Z.shiftl 1 (m_cur_shift st)).

Definition lshift_definedb (T : int_type) (n : Z) (st : t) : bool :=
  (0 <=? m_cur_shift st) && (m_cur_shift st <? limits_digits T + 1) &&
  representableb T (Z.shiftl 1 (m_cur_shift st)) &&
  representableb T (n * Z.shiftl 1 (m_cur_shift st)) &&
  representableb T (m_value st + n * Z.shiftl 1 (m_cur_shift st)).

End signed_bit_packer_impl.

(** ** The unsigned packer *)

Module unsigned_bit_packer_impl.

Record t : Type := mk {
  m_value : Z; m_max : Z;
  m_index : Z; m_size : Z; m_pbits : Z; m_cur_shift : Z
}.

Definition ctor (T : int_type) (size : Z) : result t :=
  let nbits := limits_digits T in
  if nbits <? size then Throw overflow_error
  else if size =? 0 then Ok (mk 0 0 0 size 0 0)
  else
    let pbits := nbits / size in
    Ok (mk 0 (Z.shiftr (to_unsigned nbits (-1)) (nbits - pbits)) 0 size pbits 0).

Definition op_lshift (T : int_type) (n : Z) : method t unit := fun st =>
  let nbits := limits_digits T in
  if m_index st =? m_size st then (st, Throw out_of_range)
  else if m_max st <? n then (st, Throw overflow_error)
  else
    (mk (to_unsigned nbits
           (m_value st + to_unsigned nbits (Z.shiftl n (m_cur_shift st))))
        (m_max st) (m_index st + 1) (m_size st) (m_pbits st)
        (m_cur_shift st + m_pbits st),
     Ok tt).

Definition get : method t Z := fun st =>
  if m_index st <? m_size st then (st, Throw out_of_range)
  else (st, Ok (m_value st)).

End unsigned_bit_packer_impl.

(** ** [bit_packer]: the front end selecting the implementation *)

Module bit_packer.

Inductive t : Type :=
  | of_signed (i : signed_bit_packer_impl.t)
  | of_unsigned (i : unsigned_bit_packer_impl.t).

Definition ctor (T : int_type) (size : Z) : result t :=
  if is_signed T
  then rbind (signed_bit_packer_impl.ctor T size) (fun i => Ok (of_signed i))
  else rbind (unsigned_bit_packer_impl.ctor T size) (fun i => Ok (of_unsigned i)).

Definition op_lshift (T : int_type) (n : Z) : method t unit := fun bp =>
  match bp with
  | of_signed i =>
      let (i', r) := signed_bit_packer_impl.op_lshift T n i in (of_signed i', r)
  | of_unsigned i =>
      let (i', r) := unsigned_bit_packer_impl.op_lshift T n i in (of_unsigned i', r)
  end.

Definition get : method t Z := fun bp =>
  match bp with
  | of_signed i => let (i', r) := signed_bit_packer_impl.get i in (of_signed i', r)
  | of_unsigned i => let (i', r) := unsigned_bit_packer_impl.get i in (of_unsigned i', r)
  end.

(** The fields both implementations have. *)
Definition m_value (bp : t) : Z :=
  match bp with
  | of_signed i => signed_bit_packer_impl.m_value i
  | of_unsigned i => unsigned_bit_packer_impl.m_value i
  end.
Definition m_index (bp : t) : Z :=
  match bp with
  | of_signed i => signed_bit_packer_impl.m_index i
  | of_unsigned i => unsigned_bit_packer_impl.m_index i
  end.
Definition m_size (bp : t) : Z :=
  match bp with
  | of_signed i => signed_bit_packer_impl.m_size i
  | of_unsigned i => unsigned_bit_packer_impl.m_size i
  end.
Definition m_cur_shift (bp : t) : Z :=
  match bp with
  | of_signed i => signed_bit_packer_impl.m_cur_shift i
  | of_unsigned i => unsigned_bit_packer_impl.m_cur_shift i
  end.

End bit_packer.

(** [bp << x1 << ... << xn]. *)
Fixpoint push_all (T : int_type) (xs : list Z) : method bit_packer.t unit :=
  match xs with
  | [] => mret tt
  | x :: xs' => bit_packer.op_lshift T x ;;; push_all T xs'
  end.

(** Build a packer of the given size, push the values, fetch the word. *)
Definition pack (T : int_type) (size : Z) (xs : list Z) : result Z :=
  run (bit_packer.ctor T size) (push_all T xs ;;; bit_packer.get).

(** ** The table of minimal and maximal packed values *)

(** A member function applied to the first or the second of two objects. *)
Definition on_fst {S1 S2 A} (m : method S1 A) : method (S1 * S2) A := fun s =>
  let (s1, r) := m (fst s) in ((s1, snd s), r).
Definition on_snd {S1 S2 A} (m : method S2 A) : method (S1 * S2) A := fun s =>
  let (s2, r) := m (snd s) in ((fst s, s2), r).

(** [for (j = 0; j < n; ++j) body]. *)
Fixpoint repeat_n {S} (n : nat) (body : method S unit) : method S unit :=
  match n with
  | O => mret tt
  | Datatypes.S n' => body ;;; repeat_n n' body
  end.

(** One turn of the outer loop of [sbp_compute_minmax_packed], for the
    index [i]: the pair to be stored in [retval[i]]. *)
Definition sbp_minmax_row (T : int_type) (i : nat) : result (Z * Z) :=
  let nbits := limits_digits T + 1 in
  let size := Z.of_nat i + 1 in
  rbind (bit_packer.ctor T size) (fun bp_min =>
  rbind (bit_packer.ctor T size) (fun bp_max =>
    let pbits := nbits / size - (if nbits mod size =? 0 then 1 else 0) in
    let min := to_signed nbits (- to_signed nbits (Z.shiftl 1 (pbits - 1))) in
    let max := to_signed nbits (to_signed nbits (Z.shiftl 1 (pbits - 1)) - 1) in
    snd ((repeat_n (Z.to_nat size)
            (on_fst (bit_packer.op_lshift T min) ;;;
             on_snd (bit_packer.op_lshift T max)) ;;;
          lo <~ on_fst bit_packer.get ;;
          hi <~ on_snd bit_packer.get ;;
          mret (lo, hi)) (bp_min, bp_max)))).

Fixpoint sbp_minmax_loop (T : int_type) (idxs : list nat)
    (retval : list (Z * Z)) : result (list (Z * Z)) :=
  match idxs with
  | [] => Ok retval
  | i :: idxs' =>
      rbind (sbp_minmax_row T i) (fun row =>
        sbp_minmax_loop T idxs' (<[i := row]> retval))
  end.

Definition sbp_compute_minmax_packed (T : int_type) : result (list (Z * Z)) :=
  let n := Z.to_nat (limits_digits T) in
  let retval := replicate n (0, 0) in
  let retval := <[0%nat := (limits_min T, limits_max T)]> retval in
  sbp_minmax_loop T (seq 1 (n - 1)) retval.

(** Modelled from the spec: the definitions of the constants [sbp_mmp_int],
    [sbp_mmp_long], [sbp_mmp_long_long] and [sbp_mmp_int128] are not in the
    header, which only declares them with the type of
    [sbp_compute_minmax_packed]; they are the precomputed per-arity bounds,
    the value of that function. (A constant expression that throws does not
    compile, so there is no table in that case.) *)
Definition sbp_get_mmp (T : int_type) : list (Z * Z) :=
  match sbp_compute_minmax_packed T with
  | Ok tbl => tbl
  | Throw _ => []
  end.

(** ** The signed unpacker *)

Module signed_bit_unpacker_impl.

Record t : Type := mk {
  m_value : Z; m_min : Z; m_s_value : Z;
  m_index : Z; m_size : Z; m_pbits : Z; m_cur_shift : Z
}.

Definition ctor (T : int_type) (n : Z) (size : Z) : result t :=
  let nbits := limits_digits T + 1 in
  if nbits <=? size then Throw overflow_error
  else if size =? 0 then
    if n =? 0 then Ok (mk n 0 0 0 size 0 0) else Throw invalid_argument
  else if size =? 1 then Ok (mk n (to_unsigned nbits n) 0 0 size 0 0)
  else
    let '(min_n, max_n) := default (0, 0) (sbp_get_mmp T !! Z.to_nat (size - 1)) in
    if (n <? min_n) || (max_n <? n) then Throw overflow_error
    else
      let pbits := nbits / size - (if nbits mod size =? 0 then 1 else 0) in
      Ok (mk n
             (to_unsigned nbits
                (to_signed nbits (- to_signed nbits (Z.shiftl 1 (pbits - 1)))))
             (to_unsigned nbits (to_unsigned nbits n - to_unsigned nbits min_n))
             0 size pbits 0).

Definition op_rshift (T : int_type) : method t Z := fun st =>
  let nbits := limits_digits T + 1 in
  if m_index st =? m_size st then (st, Throw out_of_range)
  else
    let hi := to_unsigned nbits (Z.shiftl 1 (m_cur_shift st + m_pbits st)) in
    let lo := to_unsigned nbits (Z.shiftl 1 (m_cur_shift st)) in
    let n := to_signed nbits
               (to_unsigned nbits ((m_s_value st mod hi) / lo + m_min st)) in
    (mk (m_value st) (m_min st) (m_s_value st)
        (m_index st + 1) (m_size st) (m_pbits st)
        (m_cur_shift st + m_pbits st),
     Ok n).

End signed_bit_unpacker_impl.

(** ** The unsigned unpacker *)

Module unsigned_bit_unpacker_impl.

Record t : Type := mk {
  m_value : Z; m_mask : Z;
  m_index : Z; m_size : Z; m_pbits : Z
}.

Definition ctor (T : int_type) (n : Z) (size : Z) : result t :=
  let nbits := limits_digits T in
  if nbits <? size then Throw overflow_error
  else if size =? 0 then
    if n =? 0 then Ok (mk n 0 0 size 0) else Throw invalid_argument
  else
    let pbits := nbits / size in
    let max_decodable := Z.shiftr (to_unsigned nbits (-1)) (nbits mod size) in
    if max_decodable <? n then Throw overflow_error
    else
      let mask := Z.shiftr (to_unsigned nbits (-1)) (nbits - pbits) in
      Ok (mk n mask 0 size (if size =? 1 then 0 else pbits)).

Definition op_rshift (T : int_type) : method t Z := fun st =>
  if m_index st =? m_size st then (st, Throw out_of_range)
  else
    (mk (Z.shiftr (m_value st) (m_pbits st)) (m_mask st)
        (m_index st + 1) (m_size st) (m_pbits st),
     Ok (Z.land (m_value st) (m_mask st))).

End unsigned_bit_unpacker_impl.

(** ** [bit_unpacker]: the front end selecting the implementation *)

Module bit_unpacker.

Inductive t : Type :=
  | of_signed (i : signed_bit_unpacker_impl.t)
  | of_unsigned (i : unsigned_bit_unpacker_impl.t).

Definition ctor (T : int_type) (n : Z) (size : Z) : result t :=
  if is_signed T
  then rbind (signed_bit_unpacker_impl.ctor T n size) (fun i => Ok (of_signed i))
  else rbind (unsigned_bit_unpacker_impl.ctor T n size) (fun i => Ok (of_unsigned i)).

Definition op_rshift (T : int_type) : method t Z := fun bu =>
  match bu with
  | of_signed i =>
      let (i', r) := signed_bit_unpacker_impl.op_rshift T i in (of_signed i', r)
  | of_unsigned i =>
      let (i', r) := unsigned_bit_unpacker_impl.op_rshift T i in (of_unsigned i', r)
  end.

End bit_unpacker.

(** [bu >> x1 >> ... >> xn], the values in the order they come out. *)
Fixpoint pop_n (T : int_type) (n : nat) : method bit_unpacker.t (list Z) :=
  match n with
  | O => mret []
  | Datatypes.S n' =>
      x <~ bit_unpacker.op_rshift T ;;
      xs <~ pop_n T n' ;;
      mret (x :: xs)
  end.

(** Build an unpacker of the given size on the word, pop [size] values. *)
Definition unpack (T : int_type) (n : Z) (size : Z) : result (list Z) :=
  run (bit_unpacker.ctor T n size) (pop_n T (Z.to_nat size)).

(** ** The per-slot range of an arity *)

(** Width of a slot, as the constructors compute [m_pbits]. *)
Definition slot_bits (T : int_type) (k : Z) : Z :=
  if is_signed T then
    if k =? 1 then nbits T
    else nbits T / k - (if nbits T mod k =? 0 then 1 else 0)
  else nbits T / k.

(** Smallest and largest value of a slot. *)
Definition slot_min (T : int_type) (k : Z) : Z :=
  if is_signed T then
    if k =? 1 then limits_min T else - 2 ^ (slot_bits T k - 1)
  else 0.
Definition slot_max (T : int_type) (k : Z) : Z :=
  if is_signed T then
    if k =? 1 then limits_max T else 2 ^ (slot_bits T k - 1) - 1
  else 2 ^ slot_bits T k - 1.

(** The arities a packer or unpacker of [T] can be built with. *)
Definition valid_arity (T : int_type) (k : Z) : Prop :=
  if is_signed T then 0 <= k < nbits T else 0 <= k <= nbits T.

Definition in_slot_range (T : int_type) (k : Z) (x : Z) : Prop :=
  slot_min T k <= x <= slot_max T k.

(** The value of a vector of slots of [p] bits: slot [i] has weight
    [2 ^ (p * i)]. *)
Fixpoint packed_value (p : Z) (xs : list Z) : Z :=
  match xs with
  | [] => 0
  | x :: xs' => x + 2 ^ p * packed_value p xs'
  end.

(** Slot [j] of a non-negative word [s]. *)
Definition slot_of (p : Z) (s : Z) (j : nat) : Z :=
  (s mod 2 ^ (p * (Z.of_nat j + 1))) / 2 ^ (p * Z.of_nat j).

(** ** Packed monomials *)

(** Modelled from the spec: [polynomials/packed_monomial.hpp] is not part of
    the sources at hand. A packed monomial is one packed word; its arity is
    the size of the symbol set of the polynomial that owns it. The word is
    the result of packing exactly [k] exponents of the slot range of arity
    [k] (and zero for arity zero, where nothing is packed). *)
Definition valid_monomial (T : int_type) (k : Z) (m : Z) : Prop :=
  exists xs, Z.of_nat (length xs) = k /\ Forall (in_slot_range T k) xs /\
             pack T k xs = Ok m.

(** Modelled from the spec: [monomial_multiply] unpacks both words to
    vectors of length [k], adds them slot by slot and packs the sums again;
    the packer throws [overflow_error] when a sum leaves the slot range. *)
Definition monomial_multiply (T : int_type) (k : Z) (a b : Z) : result Z :=
  rbind (unpack T a k) (fun va =>
  rbind (unpack T b k) (fun vb =>
    pack T k (zip_with Z.add va vb))).

(** Modelled from the spec: [degree] is the sum of the [k] unpacked
    exponents, [partial_degree] the sum of the exponents at the given
    positions; both as integers without bound. *)
Definition degree (T : int_type) (k : Z) (m : Z) : result Z :=
  rbind (unpack T m k) (fun v => Ok (foldr Z.add 0 v)).

Definition partial_degree (T : int_type) (k : Z) (m : Z) (idx : list nat) : result Z :=
  rbind (unpack T m k) (fun v => Ok (foldr Z.add 0 (map (fun i => nth i v 0) idx))).

(** ** Symbol sets *)

(** Modelled from the spec: [symbols.hpp] is not part of the sources at
    hand. A symbol set is an ordered sequence of distinct names; [idx(S)]
    is the list of the positions, in the symbol set [ss], of the names that
    belong to the subset [sub]. An insertion map sends a position of the symbol set to
    the names inserted just before it (the position [|ss|] stands for the
    end). *)
Definition symbol_set : Type := list string.
Definition symbol_idx_map : Type := gmap nat (list string).

Fixpoint symbol_indices_from (i : nat) (ss sub : symbol_set) : list nat :=
  match ss with
  | [] => []
  | s :: ss' =>
      if decide (s ∈ sub) then i :: symbol_indices_from (Datatypes.S i) ss' sub
      else symbol_indices_from (Datatypes.S i) ss' sub
  end.

Definition symbol_indices (ss sub : symbol_set) : list nat :=
  symbol_indices_from 0 ss sub.

(** ** Coefficients *)

(** Modelled from the spec: the coefficient ring is a collaborator with a
    zero, a test for zero, an addition and a multiplication. *)
Class CoefficientRing (C : Type) : Type := {
  czero : C;
  cadd : C -> C -> C;
  cmul : C -> C -> C;
  is_zero : C -> bool
}.

(** The laws the multipliers rely on: the test for zero is exact, and
    addition is associative and commutative with zero as unit. *)
Class CoefficientRingLaws (C : Type) `{CoefficientRing C} : Prop := {
  is_zero_spec : forall c : C, is_zero c = true <-> c = czero;
  cadd_assoc : forall a b c : C, cadd a (cadd b c) = cadd (cadd a b) c;
  cadd_comm : forall a b : C, cadd a b = cadd b a;
  cadd_zero_l : forall a : C, cadd czero a = a
}.

(** Exact integers, the coefficients of the polynomials of the tests. *)
#[export] Instance Z_coefficients : CoefficientRing Z :=
  {| czero := 0; cadd := Z.add; cmul := Z.mul; is_zero := Z.eqb 0 |}.

(** ** Polynomials *)

(** Modelled from the spec: [polynomials/polynomial.hpp] is not part of the
    sources at hand. A polynomial has a symbol set, a segment count [2 ^ n]
    kept as [n], and that many hash tables from monomials to coefficients. *)
Record polynomial (C : Type) : Type := Polynomial {
  poly_symbol_set : symbol_set;
  poly_n_segments : nat;
  poly_segments : list (gmap Z C)
}.
Arguments Polynomial {C} _ _ _.
Arguments poly_symbol_set {C} _.
Arguments poly_n_segments {C} _.
Arguments poly_segments {C} _.

Section PolynomialModel.

Context {C : Type} `{CoefficientRing C}.

(** The monomial type [packed_monomial<T>] of the polynomials. *)
Variable T : int_type.

(** The hash of a packed monomial: some function of the packed word. *)
Variable hash : Z -> nat.

(** The heuristic that picks the segment count of a product when the
    destination does not fix one. *)
Variable select_n_segments : polynomial C -> polynomial C -> nat.

(** The segment of a monomial: [hash(m) mod 2^n]. *)
Definition segment_of (n : nat) (m : Z) : nat := (hash m mod 2 ^ n)%nat.

(** The empty polynomial over a symbol set, with [2 ^ n] segments. *)
Definition empty_polynomial (ss : symbol_set) (n : nat) : polynomial C :=
  Polynomial ss n (replicate (2 ^ n) ∅).

(** [clear_terms]: all entries dropped, symbol set and segments kept. *)
Definition clear_terms (p : polynomial C) : polynomial C :=
  Polynomial (poly_symbol_set p) (poly_n_segments p)
             (replicate (length (poly_segments p)) ∅).

(** The entries of a polynomial, segment after segment, and the entries as
    one table (the set of its terms). *)
Definition terms (p : polynomial C) : list (Z * C) :=
  concat (map map_to_list (poly_segments p)).

Definition all_terms (p : polynomial C) : gmap Z C := ⋃ (poly_segments p).

(** Combining a term into one hash table: the coefficients of equal
    monomials are added and a zero sum removes the entry; a new monomial is
    inserted unless its coefficient is zero. *)
Definition table_accumulate (m : Z) (c : C) (tbl : gmap Z C) : gmap Z C :=
  match tbl !! m with
  | Some c_old =>
      let s := cadd c_old c in
      if is_zero s then delete m tbl else <[m := s]> tbl
  | None => if is_zero c then tbl else <[m := c]> tbl
  end.

(** [insert_or_accumulate]: the same in the segment of the monomial. *)
Definition insert_or_accumulate (m : Z) (c : C) (p : polynomial C) : polynomial C :=
  let seg := segment_of (poly_n_segments p) m in
  match poly_segments p !! seg with
  | Some tbl =>
      Polynomial (poly_symbol_set p) (poly_n_segments p)
                 (<[seg := table_accumulate m c tbl]> (poly_segments p))
  | None => p
  end.

(** ** Truncation *)

(** No truncation, a bound on the degree over the whole symbol set (no
    subset given), or a bound on the partial degree over a subset. *)
Inductive truncation : Type :=
  | no_truncation
  | truncate_degree (d : Z)
  | truncate_p_degree (d : Z) (sub : symbol_set).

(** The truncation predicate: a product monomial is retained iff its partial
    degree over the positions of the subset does not exceed [d]. *)
Definition retained (ss : symbol_set) (tr : truncation) (m : Z) : result bool :=
  let k := Z.of_nat (length ss) in
  match tr with
  | no_truncation => Ok true
  | truncate_degree d =>
      rbind (partial_degree T k m (symbol_indices ss ss)) (fun pd => Ok (pd <=? d))
  | truncate_p_degree d sub =>
      rbind (partial_degree T k m (symbol_indices ss sub)) (fun pd => Ok (pd <=? d))
  end.

(** What a pair of terms contributes: the product of the monomials and of
    the coefficients, unless the truncation drops it. *)
Definition multiply_terms (ss : symbol_set) (tr : truncation)
    (pr : (Z * C) * (Z * C)) : result (option (Z * C)) :=
  let k := Z.of_nat (length ss) in
  rbind (monomial_multiply T k (fst (fst pr)) (fst (snd pr))) (fun m =>
  rbind (retained ss tr m) (fun keep =>
    Ok (if keep then Some (m, cmul (snd (fst pr)) (snd (snd pr))) else None))).

(** All pairs of a term of the first list and a term of the second. *)
Definition pairs {A B} (xs : list A) (ys : list B) : list (A * B) :=
  flat_map (fun x => map (fun y => (x, y)) ys) xs.

(** [for (x : xs) body(x)], stopping at the first exception. *)
Fixpoint for_each {S A} (xs : list A) (body : A -> method S unit) : method S unit :=
  match xs with
  | [] => mret tt
  | x :: xs' => body x ;;; for_each xs' body
  end.

(** ** The simple multiplier *)

(** Modelled from the spec: [poly_mul_impl_simple] is not part of the
    sources at hand. It iterates over the pairs of terms, computes the
    product monomial and coefficient, applies the truncation and calls
    [insert_or_accumulate] on the destination [h]. An overflow of a monomial
    product is signalled, and a failure leaves the destination empty. *)
Definition mul_simple_step (ss : symbol_set) (tr : truncation)
    (pr : (Z * C) * (Z * C)) : method (polynomial C) unit := fun h =>
  match multiply_terms ss tr pr with
  | Ok (Some (m, c)) => (insert_or_accumulate m c h, Ok tt)
  | Ok None => (h, Ok tt)
  | Throw e => (h, Throw e)
  end.

Definition mul_simple (f g : polynomial C) (tr : truncation) : method (polynomial C) unit :=
  fun h =>
  match for_each (pairs (terms f) (terms g)) (mul_simple_step (poly_symbol_set h) tr) h with
  | (h', Ok _) => (h', Ok tt)
  | (h', Throw e) => (clear_terms h', Throw e)
  end.

(** ** The parallel segmented multiplier *)

(** The exponent vectors of the terms of a polynomial. *)
Fixpoint unpack_all (k : Z) (ts : list (Z * C)) : result (list (list Z)) :=
  match ts with
  | [] => Ok []
  | t :: ts' =>
      rbind (unpack T (fst t) k) (fun v =>
      rbind (unpack_all k ts') (fun vs => Ok (v :: vs)))
  end.

(** The maxima, resp. minima, of every slot over a list of vectors; nothing
    for no vector. *)
Definition slot_maxima (vs : list (list Z)) : option (list Z) :=
  match vs with
  | [] => None
  | v :: vs' => Some (foldl (zip_with Z.max) v vs')
  end.
Definition slot_minima (vs : list (list Z)) : option (list Z) :=
  match vs with
  | [] => None
  | v :: vs' => Some (foldl (zip_with Z.min) v vs')
  end.

(** The overflow pre-check: in every slot the sum of the maxima of the two
    operands and the sum of their minima respect the slot range of the
    arity, so that no pairwise product can overflow. *)
Definition overflow_precheck (k : Z) (vf vg : list (list Z)) : bool :=
  match slot_maxima vf, slot_minima vf, slot_maxima vg, slot_minima vg with
  | Some maxf, Some minf, Some maxg, Some ming =>
      forallb (fun x => x <=? slot_max T k) (zip_with Z.add maxf maxg) &&
      forallb (fun x => slot_min T k <=? x) (zip_with Z.add minf ming)
  | _, _, _, _ => true
  end.

(** The terms of an operand grouped by segment. *)
Definition partition_by_segment (n : nat) (ts : list (Z * C)) : list (Z * C) :=
  flat_map (fun s => filter (fun t => segment_of n (fst t) = s) ts) (seq 0 (2 ^ n)).

(** The worker that owns the output segment [sigma]: it scans the pairs and
    accumulates, in a hash table of its own, the products that fall into
    its segment and pass the truncation. *)
Definition worker_step (ss : symbol_set) (tr : truncation) (n sigma : nat)
    (pr : (Z * C) * (Z * C)) : method (gmap Z C) unit := fun tbl =>
  match multiply_terms ss tr pr with
  | Ok (Some (m, c)) =>
      if decide (segment_of n m = sigma) then (table_accumulate m c tbl, Ok tt)
      else (tbl, Ok tt)
  | Ok None => (tbl, Ok tt)
  | Throw e => (tbl, Throw e)
  end.

Definition worker (ss : symbol_set) (tr : truncation) (n : nat)
    (fs gs : list (Z * C)) (sigma : nat) : result (gmap Z C) :=
  match for_each (pairs fs gs) (worker_step ss tr n sigma) ∅ with
  | (tbl, Ok _) => Ok tbl
  | (_, Throw e) => Throw e
  end.

(** Joining the workers: the tables of all segments, or the first error. *)
Fixpoint join_all {A} (rs : list (result A)) : result (list A) :=
  match rs with
  | [] => Ok []
  | r :: rs' => rbind r (fun a => rbind (join_all rs') (fun l => Ok (a :: l)))
  end.

(** Modelled from the spec: [poly_mul_impl_mt_hm] is not part of the sources
    at hand. States: pre-check, partition, accumulation by one worker per
    output segment, merge. A failure of the pre-check leaves [h] as it was
    (empty); a failure during the accumulation leaves it empty. The segment
    count of [h] is honoured when it is not zero. *)
Definition mul_mt_hm (f g : polynomial C) (tr : truncation) : method (polynomial C) unit :=
  fun h =>
  let ss := poly_symbol_set h in
  let k := Z.of_nat (length ss) in
  match unpack_all k (terms f), unpack_all k (terms g) with
  | Ok vf, Ok vg =>
      if overflow_precheck k vf vg then
        let n := if Nat.eqb (poly_n_segments h) 0 then select_n_segments f g
                 else poly_n_segments h in
        let fs := partition_by_segment n (terms f) in
        match join_all (map (worker ss tr n fs (terms g)) (seq 0 (2 ^ n))) with
        | Ok segs => (Polynomial ss n segs, Ok tt)
        | Throw e => (clear_terms h, Throw e)
        end
      else (h, Throw overflow_error)
  | Throw e, _ => (h, Throw e)
  | _, Throw e => (h, Throw e)
  end.

(** ** Well-formed polynomials *)

(** The invariants of a polynomial over packed monomials of type [T]: the
    arity is one the packer accepts, there are [2 ^ n] segments, and every
    entry sits in the segment of its monomial, has a valid monomial of the
    arity of the symbol set and a coefficient that is not zero. *)
Record polynomial_wf (p : polynomial C) : Prop := {
  wf_arity : valid_arity T (Z.of_nat (length (poly_symbol_set p)));
  wf_segments : length (poly_segments p) = (2 ^ poly_n_segments p)%nat;
  wf_entries : forall i tbl m c,
    poly_segments p !! i = Some tbl -> tbl !! m = Some c ->
    segment_of (poly_n_segments p) m = i /\
    valid_monomial T (Z.of_nat (length (poly_symbol_set p))) m /\
    is_zero c = false
}.

(** A polynomial without entries. *)
Definition polynomial_empty (p : polynomial C) : Prop :=
  Forall (fun tbl => tbl = ∅) (poly_segments p).

End PolynomialModel.

(** ** The terms a product is made of *)

Section ProductTerms.

Context {C : Type} `{CoefficientRing C}.

(** A coefficient as an entry: no entry for zero. *)
Definition nonzero_entry (c : C) : option C :=
  if is_zero c then None else Some c.

(** What accumulating [c] does to the entry of a monomial. *)
Definition accumulate_entry (o : option C) (c : C) : option C :=
  match o with
  | Some c_old => nonzero_entry (cadd c_old c)
  | None => nonzero_entry c
  end.

(** The coefficients that a list of terms has for the monomial [m], in the
    order of the list, and the sum of a list of coefficients. *)
Definition coefficients_of (m : Z) (ts : list (Z * C)) : list C :=
  omap (fun t => if decide (fst t = m) then Some (snd t) else None) ts.

Definition coefficient_sum (cs : list C) : C := foldr cadd czero cs.

(** The outcome of a pair of terms without the error: nothing is
    contributed when the multiplication throws. *)
Definition contribution (T : int_type) (ss : symbol_set) (tr : truncation)
    (pr : (Z * C) * (Z * C)) : option (Z * C) :=
  match multiply_terms T ss tr pr with
  | Ok o => o
  | Throw _ => None
  end.

(** The terms contributed by all the pairs of two lists of terms. *)
Definition contributions (T : int_type) (ss : symbol_set) (tr : truncation)
    (fs gs : list (Z * C)) : list (Z * C) :=
  omap (contribution T ss tr) (pairs fs gs).

(** The coefficient of [m] in the product of two lists of terms: the sum of
    the coefficients contributed for [m], if it is not zero. *)
Definition product_coefficient (T : int_type) (ss : symbol_set) (tr : truncation)
    (fs gs : list (Z * C)) (m : Z) : option C :=
  nonzero_entry (coefficient_sum (coefficients_of m (contributions T ss tr fs gs))).

(** No pair of terms overflows. *)
Definition products_representable (T : int_type) (ss : symbol_set)
    (fs gs : list (Z * C)) : Prop :=
  forall tf tg, tf ∈ fs -> tg ∈ gs ->
    exists m, monomial_multiply T (Z.of_nat (length ss)) (fst tf) (fst tg) = Ok m.

End ProductTerms.

(** The part of the invariants that concerns the segments alone: there
    are [2 ^ n] of them and every monomial sits in its own. *)
Definition segmented {C : Type} (hash : Z -> nat) (p : polynomial C) : Prop :=
  length (poly_segments p) = (2 ^ poly_n_segments p)%nat /\
  forall i tbl m c,
    poly_segments p !! i = Some tbl -> tbl !! m = Some c ->
    segment_of hash (poly_n_segments p) m = i.

(** What the multipliers ask of their arguments: well-formed operands and
    destination over one symbol set, and an empty destination. *)
Definition multiplication_ready {C : Type} `{CoefficientRing C}
    (T : int_type) (hash : Z -> nat) (f g h : polynomial C) : Prop :=
  polynomial_wf T hash f /\ polynomial_wf T hash g /\ polynomial_wf T hash h /\
  polynomial_empty h /\
  poly_symbol_set f = poly_symbol_set h /\ poly_symbol_set g = poly_symbol_set h.

(** The update of the destination by the outcome of a pair, for the simple
    multiplier and for the worker of the segment [sigma]. *)
Definition insert_contribution {C : Type} `{CoefficientRing C}
    (hash : Z -> nat) (o : option (Z * C)) (h : polynomial C) : polynomial C :=
  match o with
  | Some (m, c) => insert_or_accumulate hash m c h
  | None => h
  end.

Definition accumulate_contribution {C : Type} `{CoefficientRing C}
    (hash : Z -> nat) (n sigma : nat) (o : option (Z * C)) (tbl : gmap Z C) : gmap Z C :=
  match o with
  | Some (m, c) =>
      if decide (segment_of hash n m = sigma) then table_accumulate m c tbl else tbl
  | None => tbl
  end.

(** The table of the output segment [sigma] for a list of contributions. *)
Definition segment_table {C : Type} `{CoefficientRing C}
    (hash : Z -> nat) (n : nat) (ts : list (Z * C)) (sigma : nat) : gmap Z C :=
  foldl (fun tb t => table_accumulate (fst t) (snd t) tb) ∅
        (filter (fun t => segment_of hash n (fst t) = sigma) ts).

(** A loop body that computes, updates the state with the value or passes
    the exception on. *)
Definition compute_and_update {S A B : Type} (F : A -> result B)
    (update : B -> S -> S) (a : A) : method S unit := fun s =>
  match F a with
  | Ok b => (update b s, Ok tt)
  | Throw e => (s, Throw e)
  end.

(** ** Executable forms of the invariants *)

Definition valid_arityb (T : int_type) (k : Z) : bool :=
  if is_signed T then (0 <=? k) && (k <? nbits T) else (0 <=? k) && (k <=? nbits T).

Definition in_slot_rangeb (T : int_type) (k : Z) (x : Z) : bool :=
  (slot_min T k <=? x) && (x <=? slot_max T k).

(** A word is a valid monomial when its unpacked slots pack to it again. *)
Definition valid_monomialb (T : int_type) (k : Z) (m : Z) : bool :=
  match unpack T m k with
  | Ok xs =>
      (Z.of_nat (length xs) =? k) && forallb (in_slot_rangeb T k) xs &&
      match pack T k xs with Ok m' => m' =? m | Throw _ => false end
  | Throw _ => false
  end.

Definition polynomial_wfb {C : Type} `{CoefficientRing C}
    (T : int_type) (hash : Z -> nat) (p : polynomial C) : bool :=
  let k := Z.of_nat (length (poly_symbol_set p)) in
  valid_arityb T k &&
  Nat.eqb (length (poly_segments p)) (2 ^ poly_n_segments p) &&
  forallb (fun b : bool => b)
    (imap (fun i tbl =>
             forallb (fun t : Z * C =>
                        Nat.eqb (segment_of hash (poly_n_segments p) (fst t)) i &&
                        valid_monomialb T k (fst t) && negb (is_zero (snd t)))
                     (map_to_list tbl))
          (poly_segments p)).

Definition polynomial_emptyb {C : Type} (p : polynomial C) : bool :=
  forallb (fun tbl : gmap Z C => match map_to_list tbl with [] => true | _ => false end)
          (poly_segments p).

Definition multiplication_readyb {C : Type} `{CoefficientRing C}
    (T : int_type) (hash : Z -> nat) (f g h : polynomial C) : bool :=
  polynomial_wfb T hash f && polynomial_wfb T hash g && polynomial_wfb T hash h &&
  polynomial_emptyb h &&
  bool_decide (poly_symbol_set f = poly_symbol_set h) &&
  bool_decide (poly_symbol_set g = poly_symbol_set h).


(** A polynomial without negative exponents. *)
Definition nonnegative_exponents {C : Type} (T : int_type) (p : polynomial C) : Prop :=
  forall t, t ∈ terms p ->
    exists v, unpack T (fst t) (Z.of_nat (length (poly_symbol_set p))) = Ok v /\
              Forall (fun x => 0 <= x) v.

Definition nonnegative_exponentsb {C : Type} (T : int_type) (p : polynomial C) : bool :=
  forallb (fun t : Z * C =>
             match unpack T (fst t) (Z.of_nat (length (poly_symbol_set p))) with
             | Ok v => forallb (fun x => 0 <=? x) v
             | Throw _ => false
             end)
          (terms p).

(** ** The polynomials of the tests *)

(** Polynomials over [x], [y], [z] with [long long] exponents and integer
    coefficients, as in [polynomial_mul_simple_test_p_truncated]; the hash
    and the choice of the segment count are examples. *)
Definition example_hash (m : Z) : nat := Z.to_nat (Z.abs m mod 8).
Definition example_select (f g : polynomial Z) : nat := 1%nat.
Definition example_symbols : symbol_set := ["x"; "y"; "z"]%string.

Definition example_monomial (v : list Z) : Z :=
  match pack t_long_long 3 v with Ok m => m | Throw _ => 0 end.

Definition example_polynomial (n : nat) (ts : list (list Z * Z)) : polynomial Z :=
  foldl (fun p t => insert_or_accumulate example_hash (example_monomial (fst t)) (snd t) p)
        (empty_polynomial example_symbols n) ts.

(** [x + y], [x - y], the empty destination, and the Laurent polynomials
    [1/x] and [1]. *)
Definition example_f : polynomial Z := example_polynomial 1 [([1; 0; 0], 1); ([0; 1; 0], 1)].
Definition example_g : polynomial Z := example_polynomial 2 [([1; 0; 0], 1); ([0; 1; 0], -1)].
Definition example_h : polynomial Z := empty_polynomial example_symbols 0.
Definition example_x_inv : polynomial Z := example_polynomial 1 [([-1; 0; 0], 1)].
Definition example_one : polynomial Z := example_polynomial 0 [([0; 0; 0], 1)].

(** ** Merging symbols into a key *)

(** [key_merge_symbols.hpp]: the customisation point. A key type takes part
    through an override in the [customisation] namespace ([not_implemented]
    when there is none) or through a function [key_merge_symbols] found by
    an unqualified call; the override has the higher priority, and either
    must return the key type itself. *)
Definition merge_function (K : Type) : Type :=
  K -> symbol_idx_map -> symbol_set -> result K.

Record key_merge_hooks (K : Type) : Type := KeyMergeHooks {
  customisation_key_merge_symbols : option (merge_function K);
  adl_key_merge_symbols : option (merge_function K)
}.
Arguments KeyMergeHooks {K} _ _.
Arguments customisation_key_merge_symbols {K} _.
Arguments adl_key_merge_symbols {K} _.

Definition key_merge_symbols_impl {K : Type} (hooks : key_merge_hooks K) :
    option (merge_function K) :=
  match customisation_key_merge_symbols hooks with
  | Some f => Some f
  | None => adl_key_merge_symbols hooks
  end.

Definition is_symbols_mergeable_key {K : Type} (hooks : key_merge_hooks K) : bool :=
  match key_merge_symbols_impl hooks with Some _ => true | None => false end.

(** [key_merge_symbols(x, ins_map, ss)]; there is no such call for a type
    that is not a symbols-mergeable key. *)
Definition key_merge_symbols {K : Type} (hooks : key_merge_hooks K)
    (x : K) (ins_map : symbol_idx_map) (ss : symbol_set) : option (result K) :=
  match key_merge_symbols_impl hooks with
  | Some f => Some (f x ins_map ss)
  | None => None
  end.

(** Modelled from the spec: [merge_symbols] of the packed monomial is not
    part of the sources at hand. The word is unpacked at the arity of [ss],
    zero exponents are put in at the positions the insertion map dictates
    (as many before position [i] as the map has names for [i]), and the
    longer vector is packed at the new arity. *)
Fixpoint merge_exponents (ins_map : symbol_idx_map) (i : nat) (v : list Z) : list Z :=
  let zeros := replicate (length (default [] (ins_map !! i))) 0 in
  match v with
  | [] => zeros
  | x :: v' => zeros ++ x :: merge_exponents ins_map (Datatypes.S i) v'
  end.

Definition packed_monomial_merge_symbols (T : int_type) : merge_function Z :=
  fun m ins_map ss =>
  rbind (unpack T m (Z.of_nat (length ss))) (fun v =>
    let v' := merge_exponents ins_map 0 v in
    pack T (Z.of_nat (length v')) v').

(** The packed monomial provides the function found by the unqualified
    call and no override. *)
Definition packed_monomial_hooks (T : int_type) : key_merge_hooks Z :=
  KeyMergeHooks None (Some (packed_monomial_merge_symbols T)).

(** A key type that takes part through an override in the [customisation]
    namespace returning the key type, as the return check asks, whose
    function maps every key to the zero key. *)
Definition collapsing_key_merge_symbols : merge_function Z :=
  fun _ _ _ => Ok 0.

Definition collapsing_key_hooks : key_merge_hooks Z :=
  KeyMergeHooks (Some collapsing_key_merge_symbols) None.

(** ** Fields of the unpackers, and when the shifts are defined *)

Definition unpacker_index (bu : bit_unpacker.t) : Z :=
  match bu with
  | bit_unpacker.of_signed i => signed_bit_unpacker_impl.m_index i
  | bit_unpacker.of_unsigned i => unsigned_bit_unpacker_impl.m_index i
  end.

Definition unpacker_size (bu : bit_unpacker.t) : Z :=
  match bu with
  | bit_unpacker.of_signed i => signed_bit_unpacker_impl.m_size i
  | bit_unpacker.of_unsigned i => unsigned_bit_unpacker_impl.m_size i
  end.

(** The arithmetic of the unsigned [operator<<] does not wrap: the shift
    count is below the width, and the shifted value and the new accumulator
    are values of [T]. *)
Definition unsigned_lshift_defined (T : int_type) (n : Z)
    (st : unsigned_bit_packer_impl.t) : Prop :=
  0 <= unsigned_bit_packer_impl.m_cur_shift st < limits_digits T /\
  Z.shiftl n (unsigned_bit_packer_impl.m_cur_shift st) <= limits_max T /\
  unsigned_bit_packer_impl.m_value st
  + Z.shiftl n (unsigned_bit_packer_impl.m_cur_shift st) <= limits_max T.

Fixpoint unsigned_pushes_defined (T : int_type) (xs : list Z)
    (st : unsigned_bit_packer_impl.t) : Prop :=
  match xs with
  | [] => True
  | x :: xs' =>
      unsigned_lshift_defined T x st /\
      match unsigned_bit_packer_impl.op_lshift T x st with
      | (st', Ok _) => unsigned_pushes_defined T xs' st'
      | (_, Throw _) => False
      end
  end.

(** The shifts of [operator>>] are by less than the width: for the signed
    unpacker the two shifts of one, for the unsigned one the shift of the
    word. *)
Definition rshift_defined (T : int_type) (bu : bit_unpacker.t) : Prop :=
  match bu with
  | bit_unpacker.of_signed i =>
      0 <= signed_bit_unpacker_impl.m_cur_shift i /\
      0 <= signed_bit_unpacker_impl.m_pbits i /\
      signed_bit_unpacker_impl.m_cur_shift i + signed_bit_unpacker_impl.m_pbits i
      < limits_digits T + 1
  | bit_unpacker.of_unsigned i =>
      0 <= unsigned_bit_unpacker_impl.m_pbits i < limits_digits T
  end.

(** [n] pops in a row: none throws and all shifts are defined. *)
Fixpoint pops_defined (T : int_type) (n : nat) (bu : bit_unpacker.t) : Prop :=
  match n with
  | O => True
  | Datatypes.S n' =>
      rshift_defined T bu /\
      match bit_unpacker.op_rshift T bu with
      | (bu', Ok _) => pops_defined T n' bu'
      | (_, Throw _) => False
      end
  end.

(** ** States and words used to state the results *)

(** The packed word of [k] copies of the smallest, resp. largest slot. *)
Definition min_packed (T : int_type) (k : Z) : Z :=
  packed_value (slot_bits T k) (replicate (Z.to_nat k) (slot_min T k)).
Definition max_packed (T : int_type) (k : Z) : Z :=
  packed_value (slot_bits T k) (replicate (Z.to_nat k) (slot_max T k)).

(** The signed packer of size [k] after the values [pre] have been pushed. *)
Definition signed_packer_after (T : int_type) (k : Z) (pre : list Z) : signed_bit_packer_impl.t :=
  signed_bit_packer_impl.mk
    (packed_value (slot_bits T k) pre) (slot_min T k) (slot_max T k)
    (Z.of_nat (length pre)) k (slot_bits T k)
    (slot_bits T k * Z.of_nat (length pre)).

(** The unsigned packer of size [k] after the values [pre] have been pushed. *)
Definition unsigned_packer_after (T : int_type) (k : Z) (pre : list Z) : unsigned_bit_packer_impl.t :=
  unsigned_bit_packer_impl.mk
    (packed_value (slot_bits T k) pre) (slot_max T k)
    (Z.of_nat (length pre)) k (slot_bits T k)
    (slot_bits T k * Z.of_nat (length pre)).

(** The [bit_packer] of size [k] after the values [pre] have been pushed. *)
Definition packer_after (T : int_type) (k : Z) (pre : list Z) : bit_packer.t :=
  if is_signed T
  then bit_packer.of_signed (signed_packer_after T k pre)
  else bit_packer.of_unsigned (unsigned_packer_after T k pre).

(** The signed unpacker of size [k] on the word [n] after [j] values have been
    popped. *)
Definition signed_unpacker_after (T : int_type) (k n : Z) (j : nat) : signed_bit_unpacker_impl.t :=
  signed_bit_unpacker_impl.mk n
    (2 ^ (limits_digits T + 1) - 2 ^ (slot_bits T k - 1)) (n - min_packed T k)
    (Z.of_nat j) k (slot_bits T k) (slot_bits T k * Z.of_nat j).

(** The unsigned unpacker of size [k] on the word [n] after [j] values have been
    popped; for one slot the shift count was set back to zero. *)
Definition unsigned_unpacker_after (T : int_type) (k n : Z) (j : nat) : unsigned_bit_unpacker_impl.t :=
  let pb := if k =? 1 then 0 else slot_bits T k in
  unsigned_bit_unpacker_impl.mk
    (n / 2 ^ (pb * Z.of_nat j)) (2 ^ slot_bits T k - 1) (Z.of_nat j) k pb.

(** The slots of a vector, counted from the smallest slot value. *)
Definition offsets (T : int_type) (k : Z) (xs : list Z) : list Z :=
  map (fun x => x + - slot_min T k) xs.

(** What the constructor of a packer of size [k] fixes for the life of the
    object: the implementation chosen for [T], the size and the limits of a
    slot. *)
Definition packer_configured (T : int_type) (k : Z) (bp : bit_packer.t) : Prop :=
  match bp with
  | bit_packer.of_signed i =>
      is_signed T = true /\
      signed_bit_packer_impl.m_size i = k /\
      signed_bit_packer_impl.m_min i = slot_min T k /\
      signed_bit_packer_impl.m_max i = slot_max T k
  | bit_packer.of_unsigned i =>
      is_signed T = false /\
      unsigned_bit_packer_impl.m_size i = k /\
      unsigned_bit_packer_impl.m_max i = slot_max T k
  end.

(** Pushing the values [xs] one after the other into the signed packer
    [st]: no push throws, and the arithmetic of every push stays inside
    [T]. *)
Fixpoint pushes_defined (T : int_type) (xs : list Z)
    (st : signed_bit_packer_impl.t) : Prop :=
  match xs with
  | [] => True
  | x :: xs' =>
      signed_bit_packer_impl.lshift_defined T x st /\
      match signed_bit_packer_impl.op_lshift T x st with
      | (st', Ok _) => pushes_defined T xs' st'
      | (_, Throw _) => False
      end
  end.

Fixpoint pushes_definedb (T : int_type) (xs : list Z)
    (st : signed_bit_packer_impl.t) : bool :=
  match xs with
  | [] => true
  | x :: xs' =>
      signed_bit_packer_impl.lshift_definedb T x st &&
      match signed_bit_packer_impl.op_lshift T x st with
      | (st', Ok _) => pushes_definedb T xs' st'
      | (_, Throw _) => false
      end
  end.

(** * Arithmetic of conversions and of packed values *)

Section Arith.

Lemma pow2_pos n : 0 <= n -> 0 < 2 ^ n.
Proof. intros; apply Z.pow_pos_nonneg; lia. Qed.

Lemma pow2_double w : 0 < w -> 2 ^ w = 2 * 2 ^ (w - 1).
Proof.
  intros Hw. replace w with (Z.succ (w - 1)) at 1 by lia.
  rewrite Z.pow_succ_r by lia. reflexivity.
Qed.

Lemma pow2_le a b : 0 <= a <= b -> 2 ^ a <= 2 ^ b.
Proof. intros; apply Z.pow_le_mono_r; lia. Qed.

Lemma pow2_lt a b : 0 <= a < b -> 2 ^ a < 2 ^ b.
Proof. intros; apply Z.pow_lt_mono_r; lia. Qed.

Lemma to_unsigned_id w z : 0 <= z < 2 ^ w -> to_unsigned w z = z.
Proof. intros; unfold to_unsigned; apply Z.mod_small; lia. Qed.

Lemma to_unsigned_congr w a b j :
  a = b + j * 2 ^ w -> 0 <= b < 2 ^ w -> to_unsigned w a = b.
Proof.
  intros -> Hb. unfold to_unsigned.
  rewrite Z.mod_add by lia. apply Z.mod_small; lia.
Qed.

Lemma to_signed_congr w a b j :
  0 < w -> a = b + j * 2 ^ w -> - 2 ^ (w - 1) <= b < 2 ^ (w - 1) ->
  to_signed w a = b.
Proof.
  intros Hw -> Hb. unfold to_signed.
  pose proof (pow2_double w Hw) as Hd.
  replace (b + j * 2 ^ w + 2 ^ (w - 1)) with (b + 2 ^ (w - 1) + j * 2 ^ w) by lia.
  rewrite Z.mod_add by lia. rewrite Z.mod_small; lia.
Qed.

Lemma to_signed_id w z :
  0 < w -> - 2 ^ (w - 1) <= z < 2 ^ (w - 1) -> to_signed w z = z.
Proof. intros Hw Hz. apply (to_signed_congr w z z 0); lia. Qed.

Lemma to_signed_to_unsigned w z : 0 < w -> to_signed w (to_unsigned w z) = to_signed w z.
Proof.
  intros Hw. unfold to_signed, to_unsigned.
  rewrite Zplus_mod_idemp_l. reflexivity.
Qed.

Lemma to_unsigned_minus_one w : 0 <= w -> to_unsigned w (-1) = 2 ^ w - 1.
Proof.
  intros Hw. pose proof (pow2_pos w Hw).
  apply (to_unsigned_congr w (-1) (2 ^ w - 1) (-1)); lia.
Qed.

Lemma shiftl_one s : 0 <= s -> Z.shiftl 1 s = 2 ^ s.
Proof. intros; rewrite Z.shiftl_mul_pow2 by lia; lia. Qed.

(** A run of [n] one bits shifted down to a run of [p] one bits. *)
Lemma shiftr_ones n p : 0 <= p <= n -> Z.shiftr (2 ^ n - 1) (n - p) = 2 ^ p - 1.
Proof.
  intros Hp. rewrite Z.shiftr_div_pow2 by lia.
  pose proof (pow2_pos (n - p) ltac:(lia)). pose proof (pow2_pos p ltac:(lia)).
  symmetry. apply (Z.div_unique_pos _ _ _ (2 ^ (n - p) - 1)); [lia|].
  replace n with (n - p + p) at 1 by lia.
  rewrite Z.pow_add_r by lia. lia.
Qed.

Lemma packed_value_app p xs ys :
  0 <= p ->
  packed_value p (xs ++ ys)
  = packed_value p xs + 2 ^ (p * Z.of_nat (length xs)) * packed_value p ys.
Proof.
  intros Hp. induction xs as [|x xs IH]; simpl packed_value.
  - simpl. rewrite Z.mul_0_r. simpl. lia.
  - rewrite IH. rewrite length_cons, Nat2Z.inj_succ.
    replace (p * Z.succ (Z.of_nat (length xs))) with (p + p * Z.of_nat (length xs)) by lia.
    rewrite Z.pow_add_r by lia. lia.
Qed.

(** Slots between [0] and [2 ^ p - 1] give a word below [2 ^ (p * n)]. *)
Lemma packed_value_digits_bound p ds :
  0 <= p -> Forall (fun d => 0 <= d < 2 ^ p) ds ->
  0 <= packed_value p ds < 2 ^ (p * Z.of_nat (length ds)).
Proof.
  intros Hp Hds. induction Hds as [|d ds Hd _ IH]; simpl packed_value.
  - simpl. rewrite Z.mul_0_r. simpl. lia.
  - rewrite length_cons, Nat2Z.inj_succ.
    replace (p * Z.succ (Z.of_nat (length ds))) with (p + p * Z.of_nat (length ds)) by lia.
    rewrite Z.pow_add_r by lia.
    pose proof (pow2_pos p Hp). nia.
Qed.

(** Signed slots of [p] bits give a word of absolute value below
    [2 ^ (p * n)]. *)
Lemma packed_value_signed_bound p xs :
  1 <= p -> Forall (fun x => - 2 ^ (p - 1) <= x <= 2 ^ (p - 1) - 1) xs ->
  - (2 ^ (p * Z.of_nat (length xs)) - 1) <= packed_value p xs
  <= 2 ^ (p * Z.of_nat (length xs)) - 1.
Proof.
  intros Hp Hxs. induction Hxs as [|x xs Hx _ IH]; simpl packed_value.
  - simpl. rewrite Z.mul_0_r. simpl. lia.
  - rewrite length_cons, Nat2Z.inj_succ.
    replace (p * Z.succ (Z.of_nat (length xs))) with (p + p * Z.of_nat (length xs)) by lia.
    rewrite Z.pow_add_r by lia.
    pose proof (pow2_double p ltac:(lia)). pose proof (pow2_pos (p - 1) ltac:(lia)).
    nia.
Qed.

(** Shifting every slot by [c] moves the word by [c] times the word of
    all ones. *)
Lemma packed_value_shift p c xs :
  packed_value p (map (fun x => x + c) xs)
  = packed_value p xs + c * packed_value p (replicate (length xs) 1).
Proof.
  induction xs as [|x xs IH]; simpl; [lia|]. rewrite IH. lia.
Qed.

Lemma packed_value_replicate p c n :
  packed_value p (replicate n c) = c * packed_value p (replicate n 1).
Proof. induction n as [|n IH]; simpl; [lia|]. rewrite IH. lia. Qed.

(** [(2 ^ p - 1) * (1 + 2 ^ p + ... + 2 ^ (p (n - 1))) = 2 ^ (p n) - 1]. *)
Lemma packed_value_ones p n :
  0 <= p ->
  (2 ^ p - 1) * packed_value p (replicate n 1) = 2 ^ (p * Z.of_nat n) - 1.
Proof.
  intros Hp. induction n as [|n IH].
  - simpl. rewrite !Z.mul_0_r. simpl. lia.
  - change (replicate (S n) 1) with (1 :: replicate n 1). simpl packed_value.
    rewrite Nat2Z.inj_succ.
    replace (p * Z.succ (Z.of_nat n)) with (p + p * Z.of_nat n) by lia.
    rewrite Z.pow_add_r by lia. nia.
Qed.

(** Reading slot [j] of a packed vector of non-negative slots. *)
Lemma slot_of_packed_value p pre d post :
  0 <= p -> Forall (fun d => 0 <= d < 2 ^ p) pre -> 0 <= d < 2 ^ p ->
  Forall (fun d => 0 <= d < 2 ^ p) post ->
  slot_of p (packed_value p (pre ++ d :: post)) (length pre) = d.
Proof.
  intros Hp Hpre Hd Hpost. unfold slot_of.
  rewrite packed_value_app by lia. simpl packed_value.
  pose proof (packed_value_digits_bound p pre Hp Hpre) as Hb1.
  pose proof (packed_value_digits_bound p post Hp Hpost) as Hb2.
  set (j := Z.of_nat (length pre)) in *.
  assert (Hj : 0 <= j) by (unfold j; lia).
  replace (p * (j + 1)) with (p * j + p) by lia.
  rewrite Z.pow_add_r by lia.
  pose proof (pow2_pos (p * j) ltac:(lia)) as HB. pose proof (pow2_pos p Hp) as HP.
  set (Bj := 2 ^ (p * j)) in *. set (B := 2 ^ p) in *.
  set (P := packed_value p pre) in *. set (Q := packed_value p post) in *.
  replace (P + Bj * (d + B * Q)) with ((P + Bj * d) + Q * (Bj * B)) by lia.
  rewrite Z.mod_add by lia.
  rewrite Z.mod_small by nia.
  replace (P + Bj * d) with (P + d * Bj) by lia.
  rewrite Z.div_add by lia. rewrite Z.div_small by lia. lia.
Qed.

Lemma slot_of_bound p s j : 0 <= p -> 0 <= slot_of p s j < 2 ^ p.
Proof.
  intros Hp. unfold slot_of.
  set (i := Z.of_nat j). assert (0 <= i) by (unfold i; lia).
  replace (p * (i + 1)) with (p * i + p) by lia.
  rewrite Z.pow_add_r by lia.
  pose proof (pow2_pos (p * i) ltac:(lia)). pose proof (pow2_pos p Hp).
  pose proof (Z.mod_pos_bound s (2 ^ (p * i) * 2 ^ p) ltac:(nia)).
  split.
  - apply Z.div_pos; lia.
  - apply Z.div_lt_upper_bound; lia.
Qed.

(** The slots of a word, put together again, are the word modulo
    [2 ^ (p * n)]. *)
Lemma packed_value_slots p s n :
  0 <= p -> 0 <= s ->
  packed_value p (map (slot_of p s) (seq 0 n)) = s mod 2 ^ (p * Z.of_nat n).
Proof.
  intros Hp Hs. induction n as [|n IH].
  - simpl. rewrite Z.mul_0_r. simpl. rewrite Z.mod_1_r. reflexivity.
  - rewrite seq_S, map_app, packed_value_app by lia. simpl.
    rewrite length_map, length_seq, IH. unfold slot_of.
    rewrite Z.mul_0_r, Z.add_0_r.
    rewrite Nat2Z.inj_succ.
    replace (p * Z.succ (Z.of_nat n)) with (p * Z.of_nat n + p) by lia.
    replace (p * (Z.of_nat n + 1)) with (p * Z.of_nat n + p) by lia.
    rewrite Z.pow_add_r by lia.
    pose proof (pow2_pos (p * Z.of_nat n) ltac:(lia)). pose proof (pow2_pos p Hp).
    rewrite Z.rem_mul_r by lia.
    set (Bn := 2 ^ (p * Z.of_nat n)) in *.
    rewrite (Z.mul_comm Bn (_ mod _)), Z.div_add by lia.
    rewrite (Z.div_small (s mod Bn)) by (apply Z.mod_pos_bound; lia).
    lia.
Qed.

End Arith.

(** Case analysis on the comparisons of a goal, closing the impossible
    branches. *)
Ltac zcases :=
  repeat match goal with
    | |- context [Z.eqb ?a ?b] => destruct (Z.eqb_spec a b); try lia
    | |- context [Z.ltb ?a ?b] => destruct (Z.ltb_spec a b); try lia
    | |- context [Z.leb ?a ?b] => destruct (Z.leb_spec a b); try lia
    end.

(** * The signed packer *)

Section SignedPacker.

Variable T : int_type.
Hypothesis T_signed : is_signed T = true.
Hypothesis T_digits : 1 <= limits_digits T.

Let w := limits_digits T + 1.

Lemma nbits_signed : nbits T = limits_digits T + 1.
Proof. unfold nbits. rewrite T_signed. reflexivity. Qed.

(** For two slots or more, a slot has one bit at least and all the slots
    together leave one bit of the word free. *)
Lemma signed_slot_bits_general k :
  2 <= k < w ->
  slot_bits T k = w / k - (if w mod k =? 0 then 1 else 0) /\
  1 <= slot_bits T k /\ slot_bits T k * k <= w - 1.
Proof.
  intros Hk. unfold slot_bits. rewrite T_signed, nbits_signed. fold w.
  destruct (Z.eqb_spec k 1) as [|_]; [lia|].
  split; [reflexivity|].
  pose proof (Z.div_mod w k ltac:(lia)) as Hdm.
  pose proof (Z.mod_pos_bound w k ltac:(lia)) as Hm.
  destruct (Z.eqb_spec (w mod k) 0); nia.
Qed.

Lemma signed_slot_min k : 1 <= k < w -> slot_min T k = - 2 ^ (slot_bits T k - 1).
Proof.
  intros Hk. unfold slot_min, slot_bits. rewrite T_signed.
  destruct (Z.eqb_spec k 1); [|reflexivity].
  unfold limits_min. rewrite T_signed, nbits_signed.
  f_equal. f_equal. lia.
Qed.

Lemma signed_slot_max k : 1 <= k < w -> slot_max T k = 2 ^ (slot_bits T k - 1) - 1.
Proof.
  intros Hk. unfold slot_max, slot_bits. rewrite T_signed.
  destruct (Z.eqb_spec k 1); [|reflexivity].
  unfold limits_max. rewrite nbits_signed.
  f_equal. f_equal. lia.
Qed.

(** The limits computed by the constructors for two slots or more. *)
Lemma signed_min_expr p :
  1 <= p <= w - 1 ->
  to_signed w (- to_signed w (Z.shiftl 1 (p - 1))) = - 2 ^ (p - 1).
Proof.
  intros Hp. rewrite shiftl_one by lia.
  pose proof (pow2_pos (p - 1) ltac:(lia)).
  pose proof (pow2_lt (p - 1) (w - 1) ltac:(lia)).
  rewrite (to_signed_id w (2 ^ (p - 1))) by lia.
  apply to_signed_id; lia.
Qed.

Lemma signed_max_expr p :
  1 <= p <= w - 1 ->
  to_signed w (to_signed w (Z.shiftl 1 (p - 1)) - 1) = 2 ^ (p - 1) - 1.
Proof.
  intros Hp. rewrite shiftl_one by lia.
  pose proof (pow2_pos (p - 1) ltac:(lia)).
  pose proof (pow2_lt (p - 1) (w - 1) ltac:(lia)).
  rewrite (to_signed_id w (2 ^ (p - 1))) by lia.
  apply to_signed_id; lia.
Qed.

Lemma signed_packer_ctor k :
  1 <= k < w ->
  signed_bit_packer_impl.ctor T k = Ok (signed_packer_after T k []).
Proof.
  intros Hk. unfold signed_bit_packer_impl.ctor, signed_packer_after. fold w.
  simpl length. simpl packed_value. rewrite Z.mul_0_r.
  destruct (Z.leb_spec w k); [lia|].
  destruct (Z.eqb_spec k 0); [lia|].
  destruct (Z.eqb_spec k 1) as [->|Hk1].
  - unfold slot_min, slot_max, slot_bits. rewrite T_signed, nbits_signed. reflexivity.
  - destruct (signed_slot_bits_general k ltac:(lia)) as (Hp & Hp1 & Hpk).
    rewrite signed_slot_min, signed_slot_max by lia.
    rewrite <- Hp.
    rewrite signed_min_expr, signed_max_expr by nia.
    reflexivity.
Qed.

Lemma signed_packer_ctor_zero :
  signed_bit_packer_impl.ctor T 0 = Ok (signed_bit_packer_impl.mk 0 0 0 0 0 0 0).
Proof.
  unfold signed_bit_packer_impl.ctor. fold w.
  destruct (Z.leb_spec w 0); [lia|]. reflexivity.
Qed.

(** One push of a value of the slot range: the new state, and the
    arithmetic stays inside [T]. *)
Lemma signed_push k pre x :
  1 <= k < w -> Z.of_nat (length pre) < k ->
  Forall (in_slot_range T k) pre -> in_slot_range T k x ->
  signed_bit_packer_impl.op_lshift T x (signed_packer_after T k pre)
  = (signed_packer_after T k (pre ++ [x]), Ok tt)
  /\ signed_bit_packer_impl.lshift_defined T x (signed_packer_after T k pre).
Proof.
  intros Hk Hlen Hpre Hx.
  unfold signed_bit_packer_impl.op_lshift, signed_bit_packer_impl.lshift_defined,
    signed_packer_after, representable.
  cbn [signed_bit_packer_impl.m_index signed_bit_packer_impl.m_size
       signed_bit_packer_impl.m_min signed_bit_packer_impl.m_max
       signed_bit_packer_impl.m_value signed_bit_packer_impl.m_pbits
       signed_bit_packer_impl.m_cur_shift].
  fold w.
  unfold in_slot_range in Hx.
  assert (Hpre' : Forall (fun x => - 2 ^ (slot_bits T k - 1) <= x
                                   <= 2 ^ (slot_bits T k - 1) - 1) pre).
  { eapply Forall_impl; [exact Hpre|]. intros y Hy. unfold in_slot_range in Hy.
    rewrite signed_slot_min, signed_slot_max in Hy by lia. exact Hy. }
  pose proof Hx as Hx'. rewrite signed_slot_min, signed_slot_max in Hx' by lia.
  unfold limits_min, limits_max. rewrite T_signed.
  replace (limits_digits T) with (w - 1) by (unfold w; lia).
  assert (Hcase : (k = 1 /\ slot_bits T k = w /\ pre = []) \/
                  (2 <= k /\ 1 <= slot_bits T k /\ slot_bits T k * k <= w - 1)).
  { destruct (Z.eq_dec k 1) as [->|].
    - left. repeat split; try lia.
      + unfold slot_bits. rewrite T_signed, nbits_signed. reflexivity.
      + destruct pre; [reflexivity|]. simpl length in Hlen. lia.
    - right. destruct (signed_slot_bits_general k ltac:(lia)) as (_ & ? & ?). lia. }
  assert (Hw : 2 <= w) by (unfold w; lia).
  set (p := slot_bits T k) in *. set (j := Z.of_nat (length pre)) in *.
  assert (Hj : 0 <= j) by (unfold j; lia).
  assert (Hp0 : 0 <= p) by lia.
  destruct (Z.eqb_spec j k); [lia|].
  destruct (Z.ltb_spec x (slot_min T k)); [lia|].
  destruct (Z.ltb_spec (slot_max T k) x); [lia|]. cbn [orb].
  rewrite length_app, Nat2Z.inj_add. simpl length. fold j.
  rewrite packed_value_app by lia.
  fold j. simpl packed_value. rewrite Z.mul_0_r, Z.add_0_r.
  replace (p * (j + 1)) with (p * j + p) by lia.
  destruct Hcase as [(-> & Hpw & ->) | (Hk2 & Hp1 & Hpk)].
  - (* one slot: the full range of the type *)
    subst j. rewrite Z.mul_0_r.
    change (Z.shiftl 1 0) with 1. change (Z.of_nat (length [])) with 0.
    change (Z.of_nat 1) with 1. change (2 ^ 0) with 1. simpl packed_value.
    rewrite Hpw in Hx'.
    pose proof (pow2_lt 0 (w - 1) ltac:(lia)) as H1. change (2 ^ 0) with 1 in H1.
    rewrite (to_signed_id w 1) by lia.
    rewrite !Z.mul_1_r, !Z.add_0_l, Z.mul_1_l.
    rewrite !(to_signed_id w x) by lia.
    repeat split; lia.
  - (* two slots or more *)
    assert (Hsh : 0 <= p * j <= w - 2) by nia.
    rewrite shiftl_one by lia.
    pose proof (pow2_pos (p * j) ltac:(lia)) as HA.
    pose proof (pow2_pos (p - 1) ltac:(lia)) as HH.
    pose proof (pow2_lt (p * j) (w - 1) ltac:(lia)) as HAlt.
    assert (HHA : 2 ^ (p - 1) * 2 ^ (p * j) < 2 ^ (w - 1)).
    { rewrite <- Z.pow_add_r by lia. apply pow2_lt. nia. }
    rewrite (to_signed_id w (2 ^ (p * j))) by lia.
    assert (Hprod : - 2 ^ (w - 1) <= x * 2 ^ (p * j) < 2 ^ (w - 1)) by nia.
    rewrite (to_signed_id w (x * 2 ^ (p * j))) by lia.
    pose proof (packed_value_signed_bound p (pre ++ [x]) Hp1
                  ltac:(apply Forall_app; split; [exact Hpre'|constructor; [exact Hx'|constructor]]))
      as Hb.
    rewrite packed_value_app in Hb by lia. simpl packed_value in Hb.
    rewrite Z.mul_0_r, Z.add_0_r in Hb.
    rewrite length_app, Nat2Z.inj_add in Hb. simpl length in Hb. fold j in Hb.
    pose proof (pow2_le (p * (j + 1)) (w - 1) ltac:(nia)) as Hle.
    replace (packed_value p pre + 2 ^ (p * j) * x)
      with (packed_value p pre + x * 2 ^ (p * j)) in * by lia.
    rewrite (to_signed_id w (packed_value p pre + x * 2 ^ (p * j))) by lia.
    change (Z.of_nat 1) with 1 in *.
    split; [f_equal; f_equal; lia | repeat split; lia].
Qed.

End SignedPacker.

(** * The unsigned packer *)

Section UnsignedPacker.

Variable T : int_type.
Hypothesis T_unsigned : is_signed T = false.
Hypothesis T_digits : 1 <= limits_digits T.

Let w := limits_digits T.

Lemma nbits_unsigned : nbits T = limits_digits T.
Proof. unfold nbits. rewrite T_unsigned. reflexivity. Qed.

Lemma unsigned_slot_bits k :
  1 <= k <= w ->
  slot_bits T k = w / k /\ 1 <= slot_bits T k /\ slot_bits T k * k <= w.
Proof.
  intros Hk. unfold slot_bits. rewrite T_unsigned, nbits_unsigned. fold w.
  split; [reflexivity|].
  pose proof (Z.div_mod w k ltac:(lia)) as Hdm.
  pose proof (Z.mod_pos_bound w k ltac:(lia)) as Hm.
  nia.
Qed.

Lemma unsigned_slot_min k : slot_min T k = 0.
Proof. unfold slot_min. rewrite T_unsigned. reflexivity. Qed.

Lemma unsigned_slot_max k : slot_max T k = 2 ^ slot_bits T k - 1.
Proof. unfold slot_max. rewrite T_unsigned. reflexivity. Qed.

(** The mask of the low [p] bits, as both constructors compute it. *)
Lemma unsigned_mask_expr p :
  0 <= p <= w -> Z.shiftr (to_unsigned w (-1)) (w - p) = 2 ^ p - 1.
Proof.
  intros Hp. rewrite to_unsigned_minus_one by lia. apply shiftr_ones; lia.
Qed.

Lemma unsigned_packer_ctor k :
  1 <= k <= w ->
  unsigned_bit_packer_impl.ctor T k = Ok (unsigned_packer_after T k []).
Proof.
  intros Hk. unfold unsigned_bit_packer_impl.ctor, unsigned_packer_after. fold w.
  simpl length. simpl packed_value. rewrite Z.mul_0_r.
  destruct (Z.ltb_spec w k); [lia|].
  destruct (Z.eqb_spec k 0); [lia|].
  destruct (unsigned_slot_bits k Hk) as (Hp & Hp1 & Hpk).
  rewrite unsigned_slot_max, <- Hp.
  rewrite unsigned_mask_expr by nia. reflexivity.
Qed.

Lemma unsigned_packer_ctor_zero :
  unsigned_bit_packer_impl.ctor T 0 = Ok (unsigned_bit_packer_impl.mk 0 0 0 0 0 0).
Proof.
  unfold unsigned_bit_packer_impl.ctor. fold w.
  destruct (Z.ltb_spec w 0); [lia|]. reflexivity.
Qed.

Lemma unsigned_push k pre x :
  1 <= k <= w -> Z.of_nat (length pre) < k ->
  Forall (in_slot_range T k) pre -> in_slot_range T k x ->
  unsigned_bit_packer_impl.op_lshift T x (unsigned_packer_after T k pre)
  = (unsigned_packer_after T k (pre ++ [x]), Ok tt).
Proof.
  intros Hk Hlen Hpre Hx.
  unfold unsigned_bit_packer_impl.op_lshift, unsigned_packer_after.
  cbn [unsigned_bit_packer_impl.m_index unsigned_bit_packer_impl.m_size
       unsigned_bit_packer_impl.m_max
       unsigned_bit_packer_impl.m_value unsigned_bit_packer_impl.m_pbits
       unsigned_bit_packer_impl.m_cur_shift].
  fold w.
  destruct (unsigned_slot_bits k Hk) as (_ & Hp1 & Hpk).
  unfold in_slot_range in Hx.
  assert (Hall : Forall (fun d => 0 <= d < 2 ^ slot_bits T k) (pre ++ [x])).
  { apply Forall_app; split.
    - eapply Forall_impl; [exact Hpre|]. intros y Hy. unfold in_slot_range in Hy.
      rewrite unsigned_slot_min, unsigned_slot_max in Hy. lia.
    - constructor; [|constructor].
      rewrite unsigned_slot_min, unsigned_slot_max in Hx. lia. }
  assert (Hp0 : 0 <= slot_bits T k) by lia.
  pose proof (packed_value_digits_bound _ _ Hp0 Hall) as Hb.
  rewrite packed_value_app in Hb |- * by lia.
  rewrite length_app, Nat2Z.inj_add in Hb |- *. simpl length in *.
  simpl packed_value in *. rewrite Z.mul_0_r, Z.add_0_r in Hb |- *.
  change (Z.of_nat 1) with 1 in *.
  set (p := slot_bits T k) in *. set (j := Z.of_nat (length pre)) in *.
  assert (Hj : 0 <= j) by (unfold j; lia).
  destruct (Z.eqb_spec j k); [lia|].
  destruct (Z.ltb_spec (slot_max T k) x); [lia|].
  rewrite Z.shiftl_mul_pow2 by nia.
  pose proof (pow2_pos (p * j) ltac:(nia)) as HA.
  pose proof (pow2_le (p * (j + 1)) w ltac:(nia)) as Hle.
  apply Forall_app in Hall as [Hall1 Hall2].
  pose proof (packed_value_digits_bound _ _ Hp0 Hall1) as Hb1. fold j in Hb1.
  assert (Hx0 : 0 <= x) by (rewrite unsigned_slot_min in Hx; lia).
  rewrite (to_unsigned_id w (x * 2 ^ (p * j))) by nia.
  replace (packed_value p pre + x * 2 ^ (p * j))
    with (packed_value p pre + 2 ^ (p * j) * x) by lia.
  rewrite to_unsigned_id by lia.
  f_equal. f_equal. lia.
Qed.

End UnsignedPacker.

(** * Packing through [bit_packer] *)

Section Pack.

Variable T : int_type.
Hypothesis T_digits : 1 <= limits_digits T.

Lemma bit_packer_ctor k :
  valid_arity T k -> 1 <= k -> bit_packer.ctor T k = Ok (packer_after T k []).
Proof.
  unfold valid_arity, bit_packer.ctor, packer_after, nbits.
  destruct (is_signed T) eqn:Hs; intros Hv Hk.
  - rewrite signed_packer_ctor by (auto; lia). reflexivity.
  - rewrite unsigned_packer_ctor by (auto; lia). reflexivity.
Qed.

Lemma bit_packer_push k pre x :
  valid_arity T k -> Z.of_nat (length pre) < k ->
  Forall (in_slot_range T k) pre -> in_slot_range T k x ->
  bit_packer.op_lshift T x (packer_after T k pre) = (packer_after T k (pre ++ [x]), Ok tt).
Proof.
  unfold valid_arity, bit_packer.op_lshift, packer_after, nbits.
  destruct (is_signed T) eqn:Hs; intros Hv Hlen Hpre Hx.
  - destruct (signed_push T Hs T_digits k pre x) as [-> _]; auto; lia.
  - rewrite unsigned_push; auto; lia.
Qed.

Lemma push_all_after k xs : forall pre,
  valid_arity T k -> Z.of_nat (length pre) + Z.of_nat (length xs) <= k ->
  Forall (in_slot_range T k) pre -> Forall (in_slot_range T k) xs ->
  push_all T xs (packer_after T k pre) = (packer_after T k (pre ++ xs), Ok tt).
Proof.
  induction xs as [|x xs IH]; intros pre Hv Hlen Hpre Hxs.
  - rewrite app_nil_r. reflexivity.
  - apply Forall_cons in Hxs as [Hx Hxs]. simpl length in Hlen.
    cbn [push_all]. unfold mbind.
    rewrite bit_packer_push by (auto; lia).
    rewrite (IH (pre ++ [x])); auto.
    + rewrite <- app_assoc. reflexivity.
    + rewrite length_app. simpl length. lia.
    + apply Forall_app; split; auto.
Qed.

Lemma bit_packer_get_after k xs :
  Z.of_nat (length xs) = k ->
  bit_packer.get (packer_after T k xs) = (packer_after T k xs, Ok (packed_value (slot_bits T k) xs)).
Proof.
  intros Hlen. unfold bit_packer.get, packer_after.
  destruct (is_signed T).
  - unfold signed_bit_packer_impl.get, signed_packer_after.
    cbn [signed_bit_packer_impl.m_index signed_bit_packer_impl.m_size
         signed_bit_packer_impl.m_value].
    destruct (Z.ltb_spec (Z.of_nat (length xs)) k); [lia|]. reflexivity.
  - unfold unsigned_bit_packer_impl.get, unsigned_packer_after.
    cbn [unsigned_bit_packer_impl.m_index unsigned_bit_packer_impl.m_size
         unsigned_bit_packer_impl.m_value].
    destruct (Z.ltb_spec (Z.of_nat (length xs)) k); [lia|]. reflexivity.
Qed.

(** Packing a vector of the right length with all slots in range gives the
    weighted sum of the slots. *)
Lemma pack_value k xs :
  valid_arity T k -> 1 <= k -> Z.of_nat (length xs) = k ->
  Forall (in_slot_range T k) xs ->
  pack T k xs = Ok (packed_value (slot_bits T k) xs).
Proof.
  intros Hv Hk Hlen Hxs. unfold pack, run.
  rewrite bit_packer_ctor by auto. cbn [rbind]. unfold mbind.
  rewrite (push_all_after k xs []) by (auto; simpl; lia).
  cbn [app]. rewrite bit_packer_get_after by auto. reflexivity.
Qed.

Lemma pack_zero : pack T 0 [] = Ok 0.
Proof.
  unfold pack, run, bit_packer.ctor.
  destruct (is_signed T) eqn:Hs.
  - rewrite signed_packer_ctor_zero by auto. reflexivity.
  - rewrite unsigned_packer_ctor_zero by auto. reflexivity.
Qed.

End Pack.

(** * The table of minimal and maximal packed values *)

Section MinMaxTable.

Variable T : int_type.
Hypothesis T_signed : is_signed T = true.
Hypothesis T_digits : 1 <= limits_digits T.

Let w := limits_digits T + 1.

Lemma valid_arity_signed k : valid_arity T k <-> 0 <= k < w.
Proof. unfold valid_arity. rewrite T_signed, nbits_signed by auto. reflexivity. Qed.

Lemma slot_min_in_range k : 1 <= k < w -> in_slot_range T k (slot_min T k).
Proof.
  intros Hk. unfold in_slot_range.
  rewrite signed_slot_max, signed_slot_min by auto.
  assert (0 <= slot_bits T k - 1).
  { destruct (Z.eq_dec k 1) as [->|].
    - unfold slot_bits. rewrite T_signed, nbits_signed by auto. simpl. lia.
    - destruct (signed_slot_bits_general T T_signed k) as (_ & ? & _); [fold w|]; lia. }
  pose proof (pow2_pos (slot_bits T k - 1)). lia.
Qed.

Lemma slot_max_in_range k : 1 <= k < w -> in_slot_range T k (slot_max T k).
Proof.
  intros Hk. pose proof (slot_min_in_range k Hk) as H. unfold in_slot_range in *.
  rewrite signed_slot_max, signed_slot_min in * by auto. lia.
Qed.

(** The inner loop: [n] more pushes on both packers. *)
Lemma repeat_push_pair k lo hi n : forall j : nat,
  1 <= k < w -> in_slot_range T k lo -> in_slot_range T k hi ->
  Z.of_nat j + Z.of_nat n <= k ->
  repeat_n n (on_fst (bit_packer.op_lshift T lo) ;;; on_snd (bit_packer.op_lshift T hi))
    (packer_after T k (replicate j lo), packer_after T k (replicate j hi))
  = ((packer_after T k (replicate (j + n) lo), packer_after T k (replicate (j + n) hi)),
     Ok tt).
Proof.
  induction n as [|n IH]; intros j Hk Hlo Hhi Hj.
  - rewrite Nat.add_0_r. reflexivity.
  - cbn [repeat_n]. unfold mbind at 1. unfold mbind at 1. unfold on_fst at 1.
    cbn [fst snd].
    assert (Hv : valid_arity T k) by (apply valid_arity_signed; lia).
    rewrite bit_packer_push; auto.
    2:{ rewrite length_replicate. lia. }
    2:{ apply Forall_replicate. exact Hlo. }
    unfold on_snd at 1. cbn [fst snd].
    rewrite bit_packer_push; auto.
    2:{ rewrite length_replicate. lia. }
    2:{ apply Forall_replicate. exact Hhi. }
    rewrite <- !replicate_S_end.
    rewrite (IH (S j)) by (auto; lia).
    replace (S j + n)%nat with (j + S n)%nat by lia. reflexivity.
Qed.

Lemma sbp_minmax_row_value (i : nat) :
  1 <= Z.of_nat i -> Z.of_nat i + 1 < w ->
  sbp_minmax_row T i = Ok (min_packed T (Z.of_nat i + 1), max_packed T (Z.of_nat i + 1)).
Proof.
  intros Hi1 Hi2. unfold sbp_minmax_row. fold w.
  set (k := Z.of_nat i + 1) in *.
  assert (Hv : valid_arity T k) by (apply valid_arity_signed; lia).
  rewrite bit_packer_ctor by (auto; lia). cbn [rbind].
  destruct (signed_slot_bits_general T T_signed k) as (Hp & Hp1 & Hpk); [fold w; lia|].
  fold w in Hp, Hpk. rewrite <- Hp.
  rewrite (signed_min_expr T) by (auto; fold w; nia).
  rewrite (signed_max_expr T) by (auto; fold w; nia).
  rewrite <- signed_slot_min, <- signed_slot_max by (auto; fold w; lia).
  unfold mbind at 1.
  change (@nil Z) with (replicate 0 (slot_min T k)) at 1.
  change (@nil Z) with (replicate 0 (slot_max T k)) at 1.
  rewrite repeat_push_pair;
    [ | lia | apply slot_min_in_range; lia | apply slot_max_in_range; lia | simpl; lia ].
  rewrite Nat.add_0_l.
  unfold mbind, on_fst, on_snd. cbn [fst snd].
  rewrite bit_packer_get_after by (rewrite length_replicate; lia).
  cbn [fst snd].
  rewrite bit_packer_get_after by (rewrite length_replicate; lia).
  reflexivity.
Qed.

Lemma sbp_minmax_loop_seq (f : nat -> Z * Z) n : forall (a : nat) retval,
  (forall i, (a <= i < a + n)%nat -> sbp_minmax_row T i = Ok (f i)) ->
  (a + n <= length retval)%nat ->
  exists tbl, sbp_minmax_loop T (seq a n) retval = Ok tbl /\
    (forall i, (a <= i < a + n)%nat -> tbl !! i = Some (f i)) /\
    (forall i, (i < a)%nat -> tbl !! i = retval !! i).
Proof.
  induction n as [|n IH]; intros a retval Hrow Hlen.
  - exists retval. split; [reflexivity|]. split; [intros; lia | reflexivity].
  - cbn [seq sbp_minmax_loop]. rewrite (Hrow a) by lia. cbn [rbind].
    destruct (IH (S a) (<[a := f a]> retval)) as (tbl & Htbl & Hin & Hout).
    + intros i Hi. apply Hrow. lia.
    + rewrite length_insert. lia.
    + exists tbl. split; [exact Htbl|]. split.
      * intros i Hi. destruct (decide (i = a)) as [->|Hne].
        -- rewrite Hout by lia. apply list_lookup_insert_eq. lia.
        -- apply Hin. lia.
      * intros i Hi. rewrite Hout by lia. apply list_lookup_insert_ne. lia.
Qed.

(** The table: row [k - 1] holds the packed words of [k] copies of the
    smallest and of the largest slot of arity [k]. *)
Lemma sbp_get_mmp_lookup k :
  1 <= k < w ->
  sbp_get_mmp T !! Z.to_nat (k - 1) = Some (min_packed T k, max_packed T k).
Proof.
  intros Hk. unfold sbp_get_mmp, sbp_compute_minmax_packed.
  set (n := Z.to_nat (limits_digits T)).
  set (f := fun i : nat => (min_packed T (Z.of_nat i + 1), max_packed T (Z.of_nat i + 1))).
  destruct (sbp_minmax_loop_seq f (n - 1) 1
              (<[0%nat := (limits_min T, limits_max T)]> (replicate n (0, 0))))
    as (tbl & -> & Hin & Hout).
  - intros i Hi. apply sbp_minmax_row_value; unfold w; lia.
  - rewrite length_insert, length_replicate. lia.
  - destruct (Z.eq_dec k 1) as [->|Hk1].
    + change (Z.to_nat (1 - 1)) with 0%nat. rewrite Hout by lia.
      rewrite list_lookup_insert_eq by (rewrite length_replicate; lia).
      unfold min_packed, max_packed, slot_min, slot_max. rewrite T_signed.
      simpl. rewrite !Z.mul_0_r, !Z.add_0_r. reflexivity.
    + rewrite Hin by lia. unfold f.
      replace (Z.of_nat (Z.to_nat (k - 1)) + 1) with k by lia. reflexivity.
Qed.

(** The distance between the two bounds: all slots at their largest. *)
Lemma max_packed_minus_min_packed k :
  1 <= k < w ->
  max_packed T k - min_packed T k = 2 ^ (slot_bits T k * k) - 1.
Proof.
  intros Hk. unfold max_packed, min_packed.
  rewrite (packed_value_replicate _ (slot_min T k)), (packed_value_replicate _ (slot_max T k)).
  rewrite signed_slot_min, signed_slot_max by auto.
  set (p := slot_bits T k).
  assert (Hp : 1 <= p).
  { destruct (Z.eq_dec k 1) as [->|].
    - unfold p, slot_bits. rewrite T_signed, nbits_signed by auto. simpl. lia.
    - destruct (signed_slot_bits_general T T_signed k) as (_ & ? & _); [fold w|]; lia. }
  pose proof (packed_value_ones p (Z.to_nat k) ltac:(lia)) as Hones.
  rewrite Z2Nat.id in Hones by lia. rewrite <- Hones.
  pose proof (pow2_double p ltac:(lia)). lia.
Qed.

End MinMaxTable.

(** * The signed unpacker *)

Section SignedUnpacker.

Variable T : int_type.
Hypothesis T_signed : is_signed T = true.
Hypothesis T_digits : 1 <= limits_digits T.

Let w := limits_digits T + 1.

Lemma representable_signed n : representable T n <-> - 2 ^ (w - 1) <= n <= 2 ^ (w - 1) - 1.
Proof.
  unfold representable, limits_min, limits_max. rewrite T_signed.
  replace (w - 1) with (limits_digits T) by (unfold w; lia). reflexivity.
Qed.

(** One slot: the value comes back through [m_min]. *)
Lemma signed_unpack_one n : representable T n -> unpack T n 1 = Ok [n].
Proof.
  intros Hn. apply representable_signed in Hn.
  assert (Hw : 2 <= w) by (unfold w; lia).
  unfold unpack, run, bit_unpacker.ctor. rewrite T_signed.
  unfold signed_bit_unpacker_impl.ctor. fold w.
  destruct (Z.leb_spec w 1); [lia|].
  change (1 =? 0) with false. change (1 =? 1) with true. cbn [rbind].
  change (Z.to_nat 1) with 1%nat. cbn [pop_n]. unfold mbind, mret.
  unfold bit_unpacker.op_rshift, signed_bit_unpacker_impl.op_rshift. fold w.
  cbn [signed_bit_unpacker_impl.m_index signed_bit_unpacker_impl.m_size
       signed_bit_unpacker_impl.m_cur_shift signed_bit_unpacker_impl.m_pbits
       signed_bit_unpacker_impl.m_s_value signed_bit_unpacker_impl.m_min].
  change (0 =? 1) with false. cbn [snd].
  change (Z.shiftl 1 (0 + 0)) with 1. change (Z.shiftl 1 0) with 1.
  pose proof (pow2_pos w ltac:(lia)).
  rewrite (to_unsigned_id w 1) by (pose proof (pow2_lt 0 w ltac:(lia)); simpl in *; lia).
  change (0 mod 1) with 0. change (0 / 1) with 0. rewrite Z.add_0_l.
  rewrite !to_signed_to_unsigned by lia.
  rewrite to_signed_id by lia. reflexivity.
Qed.

Lemma signed_packed_bounds k :
  2 <= k < w ->
  - 2 ^ (w - 1) < min_packed T k /\ max_packed T k < 2 ^ (w - 1).
Proof.
  intros Hk.
  destruct (signed_slot_bits_general T T_signed k) as (_ & Hp1 & Hpk); [fold w; lia|].
  fold w in Hpk.
  pose proof (packed_value_signed_bound (slot_bits T k)
                (replicate (Z.to_nat k) (slot_min T k)) Hp1) as Hlo.
  pose proof (packed_value_signed_bound (slot_bits T k)
                (replicate (Z.to_nat k) (slot_max T k)) Hp1) as Hhi.
  rewrite length_replicate, Z2Nat.id in Hlo, Hhi by lia.
  pose proof (slot_min_in_range T T_signed T_digits k ltac:(fold w; lia)) as Hmin.
  pose proof (slot_max_in_range T T_signed T_digits k ltac:(fold w; lia)) as Hmax.
  unfold in_slot_range in Hmin, Hmax.
  rewrite signed_slot_min, signed_slot_max in Hmin, Hmax by (auto; fold w; lia).
  pose proof (pow2_le (slot_bits T k * k) (w - 1) ltac:(nia)).
  unfold min_packed, max_packed. split.
  - apply Z.lt_le_trans with (- (2 ^ (slot_bits T k * k) - 1)); [lia|].
    apply Hlo. apply Forall_replicate. rewrite signed_slot_min by (auto; fold w; lia). lia.
  - apply Z.le_lt_trans with (2 ^ (slot_bits T k * k) - 1); [|lia].
    apply Hhi. apply Forall_replicate. rewrite signed_slot_max by (auto; fold w; lia). lia.
Qed.

Lemma signed_unpacker_ctor k n :
  2 <= k < w -> representable T n ->
  signed_bit_unpacker_impl.ctor T n k
  = if (n <? min_packed T k) || (max_packed T k <? n) then Throw overflow_error
    else Ok (signed_unpacker_after T k n 0).
Proof.
  intros Hk Hn. apply representable_signed in Hn.
  unfold signed_bit_unpacker_impl.ctor. fold w.
  destruct (Z.leb_spec w k); [lia|].
  destruct (Z.eqb_spec k 0); [lia|].
  destruct (Z.eqb_spec k 1); [lia|].
  rewrite (sbp_get_mmp_lookup T T_signed T_digits k) by (fold w; lia).
  cbn [default from_option id].
  destruct ((n <? min_packed T k) || (max_packed T k <? n)) eqn:Hrange; [reflexivity|].
  apply orb_false_iff in Hrange as [H1 H2].
  apply Z.ltb_ge in H1, H2.
  destruct (signed_slot_bits_general T T_signed k) as (Hp & Hp1 & Hpk); [fold w; lia|].
  fold w in Hp, Hpk. rewrite <- Hp.
  rewrite (signed_min_expr T) by (auto; fold w; nia).
  destruct (signed_packed_bounds k Hk) as [Hlo Hhi].
  pose proof (pow2_pos (slot_bits T k - 1) ltac:(lia)).
  pose proof (pow2_lt (slot_bits T k - 1) (w - 1) ltac:(nia)).
  pose proof (pow2_double w ltac:(lia)) as Hd.
  unfold signed_unpacker_after. fold w. f_equal. f_equal.
  - apply (to_unsigned_congr w _ _ (-1)); lia.
  - unfold to_unsigned. rewrite Zminus_mod_idemp_l, Zminus_mod_idemp_r.
    apply Z.mod_small. lia.
  - lia.
Qed.

Lemma signed_pop k n (j : nat) :
  2 <= k < w -> Z.of_nat j < k ->
  signed_bit_unpacker_impl.op_rshift T (signed_unpacker_after T k n j)
  = (signed_unpacker_after T k n (S j),
     Ok (slot_of (slot_bits T k) (n - min_packed T k) j + slot_min T k)).
Proof.
  intros Hk Hj.
  unfold signed_bit_unpacker_impl.op_rshift, signed_unpacker_after. fold w.
  cbn [signed_bit_unpacker_impl.m_index signed_bit_unpacker_impl.m_size
       signed_bit_unpacker_impl.m_cur_shift signed_bit_unpacker_impl.m_pbits
       signed_bit_unpacker_impl.m_s_value signed_bit_unpacker_impl.m_min
       signed_bit_unpacker_impl.m_value].
  destruct (Z.eqb_spec (Z.of_nat j) k); [lia|].
  destruct (signed_slot_bits_general T T_signed k) as (_ & Hp1 & Hpk); [fold w; lia|].
  fold w in Hpk.
  rewrite signed_slot_min by (auto; fold w; lia).
  set (p := slot_bits T k) in *. set (s := n - min_packed T k).
  assert (Hsh : 0 <= p * Z.of_nat j /\ p * Z.of_nat j + p <= w - 1) by nia.
  rewrite !shiftl_one by lia.
  pose proof (pow2_pos (p * Z.of_nat j) ltac:(lia)).
  pose proof (pow2_lt (p * Z.of_nat j) w ltac:(lia)).
  pose proof (pow2_pos (p * Z.of_nat j + p) ltac:(lia)).
  pose proof (pow2_lt (p * Z.of_nat j + p) w ltac:(lia)).
  rewrite (to_unsigned_id w (2 ^ (p * Z.of_nat j + p))) by lia.
  rewrite (to_unsigned_id w (2 ^ (p * Z.of_nat j))) by lia.
  replace (p * Z.of_nat j + p) with (p * (Z.of_nat j + 1)) by lia.
  fold (slot_of p s j).
  pose proof (slot_of_bound p s j ltac:(lia)) as Hslot.
  pose proof (pow2_double p ltac:(lia)) as Hd.
  pose proof (pow2_pos (p - 1) ltac:(lia)).
  pose proof (pow2_le p (w - 1) ltac:(nia)).
  rewrite to_signed_to_unsigned by lia.
  rewrite (to_signed_congr w _ (slot_of p s j + - 2 ^ (p - 1)) 1) by lia.
  f_equal. f_equal; lia.
Qed.

Lemma signed_pop_n k n m : forall j : nat,
  2 <= k < w -> Z.of_nat j + Z.of_nat m <= k ->
  pop_n T m (bit_unpacker.of_signed (signed_unpacker_after T k n j))
  = (bit_unpacker.of_signed (signed_unpacker_after T k n (j + m)),
     Ok (map (fun i => slot_of (slot_bits T k) (n - min_packed T k) i + slot_min T k)
             (seq j m))).
Proof.
  induction m as [|m IH]; intros j Hk Hj.
  - rewrite Nat.add_0_r. reflexivity.
  - cbn [pop_n seq map]. unfold mbind at 1. unfold bit_unpacker.op_rshift at 1.
    rewrite signed_pop by lia.
    unfold mbind at 1. rewrite (IH (S j)) by lia.
    replace (S j + m)%nat with (j + S m)%nat by lia. reflexivity.
Qed.

Lemma signed_unpack_general k n :
  2 <= k < w -> representable T n ->
  min_packed T k <= n <= max_packed T k ->
  unpack T n k
  = Ok (map (fun i => slot_of (slot_bits T k) (n - min_packed T k) i + slot_min T k)
            (seq 0 (Z.to_nat k))).
Proof.
  intros Hk Hn Hrange. unfold unpack, run, bit_unpacker.ctor. rewrite T_signed.
  rewrite signed_unpacker_ctor by auto.
  destruct (Z.ltb_spec n (min_packed T k)); [lia|].
  destruct (Z.ltb_spec (max_packed T k) n); [lia|].
  cbn [orb rbind]. rewrite signed_pop_n by lia. reflexivity.
Qed.

End SignedUnpacker.

(** * The unsigned unpacker *)

Section UnsignedUnpacker.

Variable T : int_type.
Hypothesis T_unsigned : is_signed T = false.
Hypothesis T_digits : 1 <= limits_digits T.

Let w := limits_digits T.

Lemma representable_unsigned n : representable T n <-> 0 <= n <= 2 ^ w - 1.
Proof.
  unfold representable, limits_min, limits_max. rewrite T_unsigned. reflexivity.
Qed.

Lemma unsigned_min_packed k : min_packed T k = 0.
Proof.
  unfold min_packed. rewrite packed_value_replicate, unsigned_slot_min by auto. lia.
Qed.

Lemma unsigned_max_packed k :
  1 <= k <= w -> max_packed T k = 2 ^ (slot_bits T k * k) - 1.
Proof.
  intros Hk. unfold max_packed.
  rewrite packed_value_replicate, unsigned_slot_max by auto.
  destruct (unsigned_slot_bits T T_unsigned k Hk) as (_ & Hp1 & _).
  rewrite packed_value_ones by lia. rewrite Z2Nat.id by lia. reflexivity.
Qed.

(** [max_decodable] of the constructor is the word of all slots at their
    largest. *)
Lemma unsigned_max_decodable k :
  1 <= k <= w ->
  Z.shiftr (to_unsigned w (-1)) (w mod k) = max_packed T k.
Proof.
  intros Hk. rewrite unsigned_max_packed by auto.
  destruct (unsigned_slot_bits T T_unsigned k Hk) as (Hp & Hp1 & Hpk).
  fold w in Hp. rewrite Hp.
  pose proof (Z.div_mod w k ltac:(lia)) as Hdm.
  pose proof (Z.mod_pos_bound w k ltac:(lia)) as Hm.
  rewrite to_unsigned_minus_one by lia.
  replace (w mod k) with (w - w / k * k) by lia.
  apply shiftr_ones. nia.
Qed.

(** [(n >> a) & mask] is slot number [a / p] of [n]. *)
Lemma slot_of_shift p n (j : nat) :
  0 <= p ->
  (n / 2 ^ (p * Z.of_nat j)) mod 2 ^ p = slot_of p n j.
Proof.
  intros Hp. unfold slot_of.
  replace (p * (Z.of_nat j + 1)) with (p * Z.of_nat j + p) by lia.
  rewrite Z.pow_add_r by lia.
  pose proof (pow2_pos (p * Z.of_nat j) ltac:(lia)). pose proof (pow2_pos p Hp).
  rewrite Z.rem_mul_r by lia.
  set (A := 2 ^ (p * Z.of_nat j)) in *. set (q := (n / A) mod 2 ^ p).
  replace (n mod A + A * q) with (n mod A + q * A) by lia.
  rewrite Z.div_add by lia.
  rewrite (Z.div_small (n mod A)) by (apply Z.mod_pos_bound; lia). lia.
Qed.

Lemma unsigned_unpacker_ctor k n :
  1 <= k <= w ->
  unsigned_bit_unpacker_impl.ctor T n k
  = if max_packed T k <? n then Throw overflow_error
    else Ok (unsigned_unpacker_after T k n 0).
Proof.
  intros Hk. unfold unsigned_bit_unpacker_impl.ctor. fold w.
  destruct (Z.ltb_spec w k); [lia|].
  destruct (Z.eqb_spec k 0); [lia|].
  rewrite unsigned_max_decodable by auto.
  destruct (max_packed T k <? n); [reflexivity|].
  destruct (unsigned_slot_bits T T_unsigned k Hk) as (Hp & Hp1 & Hpk).
  fold w in Hp, Hpk. rewrite <- Hp.
  rewrite (unsigned_mask_expr T) by (auto; fold w; nia).
  unfold unsigned_unpacker_after. rewrite Z.mul_0_r. change (2 ^ 0) with 1.
  rewrite Z.div_1_r. reflexivity.
Qed.

Lemma unsigned_pop k n (j : nat) :
  1 <= k <= w -> Z.of_nat j < k ->
  unsigned_bit_unpacker_impl.op_rshift T (unsigned_unpacker_after T k n j)
  = (unsigned_unpacker_after T k n (S j), Ok (slot_of (slot_bits T k) n j)).
Proof.
  intros Hk Hj.
  unfold unsigned_bit_unpacker_impl.op_rshift, unsigned_unpacker_after.
  cbn [unsigned_bit_unpacker_impl.m_index unsigned_bit_unpacker_impl.m_size
       unsigned_bit_unpacker_impl.m_pbits unsigned_bit_unpacker_impl.m_mask
       unsigned_bit_unpacker_impl.m_value].
  destruct (Z.eqb_spec (Z.of_nat j) k); [lia|].
  destruct (unsigned_slot_bits T T_unsigned k Hk) as (_ & Hp1 & Hpk).
  set (p := slot_bits T k) in *.
  replace (2 ^ p - 1) with (Z.ones p) by (rewrite Z.ones_equiv; lia).
  rewrite Z.land_ones by lia.
  destruct (Z.eqb_spec k 1) as [->|Hk1].
  - assert (j = 0%nat) as -> by lia.
    rewrite !Z.mul_0_l. change (2 ^ 0) with 1. rewrite Z.shiftr_0_r, !Z.div_1_r.
    f_equal. f_equal. rewrite <- (slot_of_shift p n 0) by lia.
    rewrite Z.mul_0_r. change (2 ^ 0) with 1. rewrite Z.div_1_r. reflexivity.
  - rewrite slot_of_shift by lia.
    rewrite Z.shiftr_div_pow2 by lia.
    pose proof (pow2_pos (p * Z.of_nat j) ltac:(lia)). pose proof (pow2_pos p ltac:(lia)).
    rewrite Z.div_div by lia. rewrite <- Z.pow_add_r by lia.
    f_equal. f_equal; [|lia]. f_equal. f_equal. lia.
Qed.

Lemma unsigned_pop_n k n m : forall j : nat,
  1 <= k <= w -> Z.of_nat j + Z.of_nat m <= k ->
  pop_n T m (bit_unpacker.of_unsigned (unsigned_unpacker_after T k n j))
  = (bit_unpacker.of_unsigned (unsigned_unpacker_after T k n (j + m)),
     Ok (map (slot_of (slot_bits T k) n) (seq j m))).
Proof.
  induction m as [|m IH]; intros j Hk Hj.
  - rewrite Nat.add_0_r. reflexivity.
  - cbn [pop_n seq map]. unfold mbind at 1. unfold bit_unpacker.op_rshift at 1.
    rewrite unsigned_pop by lia.
    unfold mbind at 1. rewrite (IH (S j)) by lia.
    replace (S j + m)%nat with (j + S m)%nat by lia. reflexivity.
Qed.

Lemma unsigned_unpack k n :
  1 <= k <= w -> n <= max_packed T k ->
  unpack T n k = Ok (map (slot_of (slot_bits T k) n) (seq 0 (Z.to_nat k))).
Proof.
  intros Hk Hn. unfold unpack, run, bit_unpacker.ctor. rewrite T_unsigned.
  rewrite unsigned_unpacker_ctor by auto.
  destruct (Z.ltb_spec (max_packed T k) n); [lia|].
  cbn [rbind]. rewrite unsigned_pop_n by lia. reflexivity.
Qed.

End UnsignedUnpacker.

(** * Packing and unpacking together *)

Lemma is_bit_packable_digits T : is_bit_packable T = true -> 1 <= limits_digits T.
Proof.
  unfold is_bit_packable. intros H. apply existsb_exists in H as (U & HU & Heq).
  unfold int_type_eqb in Heq. apply andb_true_iff in Heq as [_ Hd].
  apply Z.eqb_eq in Hd. rewrite Hd.
  simpl in HU. intuition (subst U; simpl; lia).
Qed.

(** Reading all the slots of a packed vector of non-negative slots. *)
Lemma slots_of_packed_value p ds : forall post,
  0 <= p -> Forall (fun d => 0 <= d < 2 ^ p) ds ->
  Forall (fun d => 0 <= d < 2 ^ p) post ->
  map (slot_of p (packed_value p (ds ++ post))) (seq 0 (length ds)) = ds.
Proof.
  induction ds as [|d ds IH] using rev_ind; intros post Hp Hds Hpost.
  - reflexivity.
  - apply Forall_app in Hds as [Hds Hd]. apply Forall_cons in Hd as [Hd _].
    rewrite length_app. simpl length. rewrite seq_app, map_app. simpl.
    rewrite <- app_assoc. simpl app.
    rewrite IH by (auto using Forall_cons).
    rewrite slot_of_packed_value by auto. reflexivity.
Qed.

Section Codec.

Variable T : int_type.
Hypothesis T_digits : 1 <= limits_digits T.

(** Width of the slots of a valid arity, and of the slot range. *)
Lemma slot_facts k :
  valid_arity T k -> 1 <= k ->
  1 <= slot_bits T k /\ slot_bits T k * k <= nbits T /\
  slot_max T k - slot_min T k = 2 ^ slot_bits T k - 1.
Proof.
  unfold valid_arity. destruct (is_signed T) eqn:Hs; intros Hv Hk.
  - rewrite nbits_signed in * by auto.
    rewrite signed_slot_min, signed_slot_max by (auto; lia).
    destruct (Z.eq_dec k 1) as [->|Hk1].
    + unfold slot_bits. rewrite Hs, nbits_signed by auto. simpl.
      pose proof (pow2_double (limits_digits T + 1) ltac:(lia)). lia.
    + destruct (signed_slot_bits_general T Hs k) as (_ & Hp1 & Hpk); [lia|].
      pose proof (pow2_double (slot_bits T k) ltac:(lia)). lia.
  - rewrite nbits_unsigned in * by auto.
    destruct (unsigned_slot_bits T Hs k) as (_ & Hp1 & Hpk); [lia|].
    rewrite unsigned_slot_min, unsigned_slot_max by auto. lia.
Qed.

Lemma offsets_digits k xs :
  valid_arity T k -> 1 <= k -> Forall (in_slot_range T k) xs ->
  Forall (fun d => 0 <= d < 2 ^ slot_bits T k) (offsets T k xs).
Proof.
  intros Hv Hk Hxs. destruct (slot_facts k Hv Hk) as (_ & _ & Hw).
  unfold offsets. apply Forall_map.
  eapply Forall_impl; [exact Hxs|]. intros x Hx. unfold in_slot_range in Hx. simpl. lia.
Qed.

Lemma offsets_inv k xs :
  map (fun d => d + slot_min T k) (offsets T k xs) = xs.
Proof.
  unfold offsets. rewrite map_map. rewrite <- (map_id xs) at 2.
  apply map_ext. intros x. lia.
Qed.

Lemma packed_value_offsets k xs :
  Z.of_nat (length xs) = k ->
  packed_value (slot_bits T k) (offsets T k xs)
  = packed_value (slot_bits T k) xs - min_packed T k.
Proof.
  intros Hlen. unfold offsets, min_packed.
  rewrite packed_value_shift, (packed_value_replicate _ (slot_min T k)).
  replace (Z.to_nat k) with (length xs) by lia. lia.
Qed.

Lemma max_minus_min_packed k :
  valid_arity T k -> 1 <= k ->
  max_packed T k - min_packed T k = 2 ^ (slot_bits T k * k) - 1.
Proof.
  intros Hv Hk. destruct (slot_facts k Hv Hk) as (Hp1 & _ & Hw).
  unfold max_packed, min_packed.
  rewrite (packed_value_replicate _ (slot_min T k)), (packed_value_replicate _ (slot_max T k)).
  pose proof (packed_value_ones (slot_bits T k) (Z.to_nat k) ltac:(lia)) as Hones.
  rewrite Z2Nat.id in Hones by lia. rewrite <- Hones, <- Hw. lia.
Qed.

(** The packed words of vectors in range lie between the two bounds. *)
Lemma packed_value_between k xs :
  valid_arity T k -> 1 <= k -> Z.of_nat (length xs) = k ->
  Forall (in_slot_range T k) xs ->
  min_packed T k <= packed_value (slot_bits T k) xs <= max_packed T k.
Proof.
  intros Hv Hk Hlen Hxs. destruct (slot_facts k Hv Hk) as (Hp1 & _ & _).
  pose proof (packed_value_digits_bound (slot_bits T k) _ ltac:(lia)
                (offsets_digits k xs Hv Hk Hxs)) as Hb.
  unfold offsets in Hb. rewrite length_map, Hlen in Hb. fold (offsets T k xs) in Hb.
  rewrite packed_value_offsets in Hb by auto.
  pose proof (max_minus_min_packed k Hv Hk). lia.
Qed.

(** Both bounds are values of [T]. *)
Lemma packed_bounds_representable k :
  valid_arity T k -> 1 <= k ->
  limits_min T <= min_packed T k /\ max_packed T k <= limits_max T.
Proof.
  intros Hv Hk. pose proof Hv as Hv'. unfold valid_arity in Hv'.
  destruct (is_signed T) eqn:Hs.
  - rewrite nbits_signed in Hv' by auto.
    destruct (Z.eq_dec k 1) as [->|Hk1].
    + unfold min_packed, max_packed, slot_min, slot_max. rewrite Hs. simpl. lia.
    + destruct (signed_packed_bounds T Hs T_digits k ltac:(lia)) as [Hlo Hhi].
      unfold limits_min, limits_max. rewrite Hs.
      replace (limits_digits T + 1 - 1) with (limits_digits T) in * by lia. lia.
  - rewrite nbits_unsigned in Hv' by auto.
    rewrite unsigned_min_packed, unsigned_max_packed by (auto; lia).
    destruct (unsigned_slot_bits T Hs k) as (_ & Hp1 & Hpk); [lia|].
    unfold limits_min, limits_max. rewrite Hs.
    pose proof (pow2_le (slot_bits T k * k) (limits_digits T) ltac:(nia)). lia.
Qed.

(** What the unpacker of a valid arity returns on a word between the two
    bounds. *)
Lemma unpack_value k n :
  valid_arity T k -> 1 <= k -> min_packed T k <= n <= max_packed T k ->
  unpack T n k
  = Ok (map (fun i => slot_of (slot_bits T k) (n - min_packed T k) i + slot_min T k)
            (seq 0 (Z.to_nat k))).
Proof.
  intros Hv Hk Hn. pose proof Hv as Hv'. unfold valid_arity in Hv'.
  destruct (packed_bounds_representable k Hv Hk) as [Hlo Hhi].
  assert (Hrep : representable T n) by (unfold representable; lia).
  destruct (is_signed T) eqn:Hs.
  - rewrite nbits_signed in Hv' by auto.
    destruct (Z.eq_dec k 1) as [->|Hk1].
    + rewrite signed_unpack_one by auto.
      change (Z.to_nat 1) with 1%nat. cbn [seq map]. f_equal. f_equal.
      unfold slot_of. cbn [Z.of_nat]. rewrite Z.mul_0_r, Z.add_0_l, Z.mul_1_r.
      change (2 ^ 0) with 1. rewrite Z.div_1_r.
      pose proof (max_minus_min_packed 1 Hv Hk) as Hd. rewrite Z.mul_1_r in Hd.
      rewrite Z.mod_small by lia.
      assert (min_packed T 1 = slot_min T 1) as ->; [|lia].
      unfold min_packed. change (Z.to_nat 1) with 1%nat. simpl. lia.
    + apply signed_unpack_general; auto. lia.
  - rewrite nbits_unsigned in Hv' by auto.
    rewrite unsigned_unpack by (auto; lia).
    rewrite unsigned_min_packed, unsigned_slot_min by auto. f_equal.
    apply map_ext. intros i. rewrite Z.sub_0_r. lia.
Qed.

(** Unpacking what was packed. *)
Lemma unpack_pack k xs :
  valid_arity T k -> 1 <= k -> Z.of_nat (length xs) = k ->
  Forall (in_slot_range T k) xs ->
  pack T k xs = Ok (packed_value (slot_bits T k) xs) /\
  unpack T (packed_value (slot_bits T k) xs) k = Ok xs.
Proof.
  intros Hv Hk Hlen Hxs. split; [apply pack_value; auto|].
  rewrite unpack_value by (auto using packed_value_between).
  rewrite <- packed_value_offsets by auto. f_equal.
  destruct (slot_facts k Hv Hk) as (Hp1 & _ & _).
  pose proof (slots_of_packed_value (slot_bits T k) (offsets T k xs) [] ltac:(lia)
                (offsets_digits k xs Hv Hk Hxs) ltac:(constructor)) as Hsl.
  rewrite app_nil_r in Hsl. unfold offsets in Hsl. rewrite length_map in Hsl.
  fold (offsets T k xs) in Hsl.
  replace (Z.to_nat k) with (length xs) by lia.
  rewrite <- (map_map (slot_of _ _) (fun d => d + slot_min T k)), Hsl.
  apply offsets_inv.
Qed.

(** Packing what was unpacked. *)
Lemma pack_unpack k n :
  valid_arity T k -> 1 <= k -> min_packed T k <= n <= max_packed T k ->
  exists xs, unpack T n k = Ok xs /\ Z.of_nat (length xs) = k /\
             Forall (in_slot_range T k) xs /\ pack T k xs = Ok n.
Proof.
  intros Hv Hk Hn. destruct (slot_facts k Hv Hk) as (Hp1 & _ & Hw).
  eexists. split; [apply unpack_value; auto|].
  set (p := slot_bits T k) in *. set (s := n - min_packed T k).
  assert (Hlen : Z.of_nat (length (map (fun i => slot_of p s i + slot_min T k)
                                       (seq 0 (Z.to_nat k)))) = k).
  { rewrite length_map, length_seq. lia. }
  assert (Hrange : Forall (in_slot_range T k)
                     (map (fun i => slot_of p s i + slot_min T k) (seq 0 (Z.to_nat k)))).
  { apply Forall_map. apply Forall_forall. intros i _. simpl.
    pose proof (slot_of_bound p s i ltac:(lia)). unfold in_slot_range. lia. }
  split; [exact Hlen|]. split; [exact Hrange|].
  rewrite pack_value by auto. f_equal. fold p.
  rewrite <- (map_map (slot_of p s) (fun d => d + slot_min T k)).
  rewrite packed_value_shift, length_map, length_seq.
  pose proof (max_minus_min_packed k Hv Hk) as Hd. fold p in Hd.
  rewrite packed_value_slots by (unfold s; lia).
  rewrite Z2Nat.id by lia. rewrite Z.mod_small by (unfold s; lia).
  unfold s, min_packed. fold p. rewrite (packed_value_replicate _ (slot_min T k)). lia.
Qed.

End Codec.

(** * The laws of the packer and the unpacker *)

Section Laws.

Variable T : int_type.
Hypothesis T_digits : 1 <= limits_digits T.

Lemma slot_bounds_in_range k :
  valid_arity T k -> 1 <= k ->
  in_slot_range T k (slot_min T k) /\ in_slot_range T k (slot_max T k).
Proof.
  intros Hv Hk. destruct (slot_facts T T_digits k Hv Hk) as (Hp1 & _ & Hw).
  pose proof (pow2_pos (slot_bits T k) ltac:(lia)).
  unfold in_slot_range. lia.
Qed.

Lemma pack_bounds k :
  valid_arity T k -> 1 <= k ->
  pack T k (replicate (Z.to_nat k) (slot_min T k)) = Ok (min_packed T k) /\
  pack T k (replicate (Z.to_nat k) (slot_max T k)) = Ok (max_packed T k).
Proof.
  intros Hv Hk. destruct (slot_bounds_in_range k Hv Hk) as [Hlo Hhi].
  split; apply pack_value; auto;
    try (rewrite length_replicate; lia); apply Forall_replicate; auto.
Qed.

(** The constructor of the unpacker on a value of [T]: it throws
    [overflow_error] outside the two bounds and nothing inside. *)
Lemma bit_unpacker_ctor k n :
  valid_arity T k -> 1 <= k -> representable T n ->
  exists bu, bit_unpacker.ctor T n k
             = if (n <? min_packed T k) || (max_packed T k <? n)
               then Throw overflow_error else Ok bu.
Proof.
  intros Hv Hk Hn. pose proof Hv as Hv'. unfold valid_arity in Hv'.
  unfold bit_unpacker.ctor.
  destruct (is_signed T) eqn:Hs.
  - rewrite nbits_signed in Hv' by auto.
    destruct (Z.eq_dec k 1) as [->|Hk1].
    + assert (min_packed T 1 = limits_min T /\ max_packed T 1 = limits_max T) as [-> ->].
      { unfold min_packed, max_packed, slot_min, slot_max. rewrite Hs.
        change (Z.to_nat 1) with 1%nat. simpl. lia. }
      unfold representable in Hn.
      destruct (Z.ltb_spec n (limits_min T)); [lia|].
      destruct (Z.ltb_spec (limits_max T) n); [lia|].
      unfold signed_bit_unpacker_impl.ctor.
      destruct (Z.leb_spec (limits_digits T + 1) 1); [lia|].
      eexists. reflexivity.
    + rewrite signed_unpacker_ctor by (auto; lia).
      exists (bit_unpacker.of_signed (signed_unpacker_after T k n 0)).
      destruct ((n <? min_packed T k) || (max_packed T k <? n)); reflexivity.
  - rewrite nbits_unsigned in Hv' by auto.
    rewrite unsigned_unpacker_ctor by (auto; lia).
    rewrite unsigned_min_packed by auto.
    apply representable_unsigned in Hn; auto.
    destruct (Z.ltb_spec n 0); [lia|].
    exists (bit_unpacker.of_unsigned (unsigned_unpacker_after T k n 0)).
    destruct (max_packed T k <? n); reflexivity.
Qed.

Lemma unpack_zero : unpack T 0 0 = Ok [].
Proof.
  unfold unpack, run, bit_unpacker.ctor.
  destruct (is_signed T).
  - unfold signed_bit_unpacker_impl.ctor.
    destruct (Z.leb_spec (limits_digits T + 1) 0); [lia|]. reflexivity.
  - unfold unsigned_bit_unpacker_impl.ctor.
    destruct (Z.ltb_spec (limits_digits T) 0); [lia|]. reflexivity.
Qed.

(** The constructor of the packer starts the count of pushed values at
    zero, and no push makes it negative. *)
Lemma bit_packer_ctor_index k bp :
  bit_packer.ctor T k = Ok bp -> bit_packer.m_index bp = 0.
Proof.
  unfold bit_packer.ctor. destruct (is_signed T).
  - unfold signed_bit_packer_impl.ctor.
    repeat match goal with |- context [if ?c then _ else _] => destruct c end;
      simpl; intros H; inversion H; reflexivity.
  - unfold unsigned_bit_packer_impl.ctor.
    repeat match goal with |- context [if ?c then _ else _] => destruct c end;
      simpl; intros H; inversion H; reflexivity.
Qed.

Lemma push_all_index_nonneg xs : forall bp,
  0 <= bit_packer.m_index bp ->
  0 <= bit_packer.m_index (fst (push_all T xs bp)).
Proof.
  induction xs as [|x xs IH]; intros bp Hbp; [exact Hbp|].
  cbn [push_all]. unfold mbind.
  assert (Hstep : 0 <= bit_packer.m_index (fst (bit_packer.op_lshift T x bp))).
  { destruct bp as [i|i]; simpl in *.
    - unfold signed_bit_packer_impl.op_lshift.
      destruct (_ =? _); [simpl; lia|]. destruct (_ || _); simpl; lia.
    - unfold unsigned_bit_packer_impl.op_lshift.
      destruct (_ =? _); [simpl; lia|]. destruct (_ <? _); simpl; lia. }
  destruct (bit_packer.op_lshift T x bp) as [bp' [[]|e]]; simpl in *; auto.
Qed.

(** The constructor of the packer, for a size of one or more. *)
Lemma bit_packer_ctor_configured k bp :
  1 <= k -> bit_packer.ctor T k = Ok bp ->
  valid_arity T k /\ packer_configured T k bp.
Proof.
  intros Hk Hctor.
  assert (Hv : valid_arity T k).
  { unfold valid_arity, nbits. unfold bit_packer.ctor in Hctor.
    destruct (is_signed T).
    - unfold signed_bit_packer_impl.ctor in Hctor.
      destruct (Z.leb_spec (limits_digits T + 1) k); [discriminate|lia].
    - unfold unsigned_bit_packer_impl.ctor in Hctor.
      destruct (Z.ltb_spec (limits_digits T) k); [discriminate|lia]. }
  split; [exact Hv|].
  rewrite bit_packer_ctor in Hctor by (auto; lia). injection Hctor as <-.
  unfold packer_after. destruct (is_signed T) eqn:Hs; simpl; auto.
Qed.

Lemma op_lshift_configured k x bp :
  packer_configured T k bp ->
  packer_configured T k (fst (bit_packer.op_lshift T x bp)).
Proof.
  destruct bp as [i|i]; simpl.
  - unfold signed_bit_packer_impl.op_lshift.
    destruct (_ =? _); [simpl; tauto|]. destruct (_ || _); simpl; tauto.
  - unfold unsigned_bit_packer_impl.op_lshift.
    destruct (_ =? _); [simpl; tauto|]. destruct (_ <? _); simpl; tauto.
Qed.

Lemma push_all_configured k xs : forall bp,
  packer_configured T k bp ->
  packer_configured T k (fst (push_all T xs bp)).
Proof.
  induction xs as [|x xs IH]; intros bp Hbp; [exact Hbp|].
  cbn [push_all]. unfold mbind.
  pose proof (op_lshift_configured k x bp Hbp) as Hstep.
  destruct (bit_packer.op_lshift T x bp) as [bp' [[]|e]]; simpl in *; auto.
Qed.

(** A push outside the limits of a configured packer that is not yet full
    throws and leaves the packer as it was. (The unsigned packer compares
    with the largest slot only: its argument is never negative.) *)
Lemma op_lshift_out_of_range k n bp :
  packer_configured T k bp -> bit_packer.m_index bp < k ->
  (is_signed T = false -> 0 <= n) -> ~ in_slot_range T k n ->
  bit_packer.op_lshift T n bp = (bp, Throw overflow_error).
Proof.
  intros Hbp Hidx Hn Hout. unfold in_slot_range in Hout.
  destruct bp as [i|i]; simpl in *.
  - destruct Hbp as (_ & Hsz & Hmin & Hmax).
    unfold signed_bit_packer_impl.op_lshift. rewrite Hsz, Hmin, Hmax.
    destruct (Z.eqb_spec (signed_bit_packer_impl.m_index i) k); [lia|].
    destruct (Z.ltb_spec n (slot_min T k)); [reflexivity|].
    destruct (Z.ltb_spec (slot_max T k) n); [reflexivity|]. lia.
  - destruct Hbp as (Hs & Hsz & Hmax).
    unfold unsigned_bit_packer_impl.op_lshift. rewrite Hsz, Hmax.
    destruct (Z.eqb_spec (unsigned_bit_packer_impl.m_index i) k); [lia|].
    destruct (Z.ltb_spec (slot_max T k) n); [reflexivity|].
    exfalso. apply Hout. split; [|lia].
    rewrite unsigned_slot_min by auto. auto.
Qed.

Lemma push_all_app xs ys bp :
  push_all T (xs ++ ys) bp = (push_all T xs ;;; push_all T ys) bp.
Proof.
  revert bp. induction xs as [|x xs IH]; intros bp.
  - simpl. unfold mbind, mret. reflexivity.
  - cbn [app push_all]. unfold mbind.
    destruct (bit_packer.op_lshift T x bp) as [bp' [[]|e]]; [|reflexivity].
    rewrite IH. unfold mbind. reflexivity.
Qed.

(** The first value outside the slot range makes the packing throw. *)
Lemma pack_overflow k pre x post :
  valid_arity T k -> Z.of_nat (length pre) < k ->
  Forall (in_slot_range T k) pre -> ~ in_slot_range T k x ->
  (is_signed T = false -> 0 <= x) ->
  pack T k (pre ++ x :: post) = Throw overflow_error.
Proof.
  intros Hv Hlen Hpre Hx Hx0. unfold pack, run.
  assert (Hk : 1 <= k) by lia.
  rewrite bit_packer_ctor by auto. cbn [rbind].
  destruct (bit_packer_ctor_configured k (packer_after T k []) Hk
              (bit_packer_ctor T T_digits k Hv Hk)) as [_ Hcfg].
  unfold mbind at 1. rewrite push_all_app. unfold mbind at 1.
  rewrite (push_all_after T T_digits k pre []) by (auto; simpl; lia).
  cbn [app push_all]. unfold mbind at 1.
  pose proof (push_all_configured k pre (packer_after T k []) Hcfg) as Hcfg'.
  rewrite (push_all_after T T_digits k pre []) in Hcfg' by (auto; simpl; lia).
  cbn [app fst] in Hcfg'.
  rewrite (op_lshift_out_of_range k x (packer_after T k pre)); auto.
  unfold packer_after. destruct (is_signed T); simpl; lia.
Qed.

End Laws.

(** ** Claims on the packer and the unpacker *)

(** C4. Round trip: for a packable type, a valid arity [k] and a vector of
    [k] values of the slot range of that arity, pushing the values into a
    [bit_packer] of size [k], fetching the word, building a [bit_unpacker]
    of size [k] on it and popping [k] values gives the vector back, in
    order; nothing throws on the way. *)
Theorem pack_unpack_round_trip (T : int_type) (k : Z) (xs : list Z) :
  is_bit_packable T = true ->
  valid_arity T k ->
  Z.of_nat (length xs) = k ->
  Forall (in_slot_range T k) xs ->
  exists n, pack T k xs = Ok n /\ unpack T n k = Ok xs.
Proof.
  intros HT Hv Hlen Hxs. apply is_bit_packable_digits in HT.
  destruct (Z.eq_dec k 0) as [->|Hk0].
  - destruct xs; [|simpl in Hlen; lia].
    exists 0. split; [apply pack_zero; auto | apply unpack_zero; auto].
  - assert (Hk : 1 <= k) by lia.
    exists (packed_value (slot_bits T k) xs). apply unpack_pack; auto.
Qed.

Lemma pack_unpack_round_trip_witness :
  exists n, pack t_long_long 3 [1; -2; 1048575] = Ok n /\
            unpack t_long_long n 3 = Ok [1; -2; 1048575].
Proof.
  apply (pack_unpack_round_trip t_long_long 3 [1; -2; 1048575]).
  - reflexivity.
  - vm_compute. split; [discriminate | reflexivity].
  - reflexivity.
  - repeat constructor; vm_compute; discriminate.
Defined.

(** C5. Range enforcement: in a packer built with size [k] that holds fewer
    than [k] values, pushing a value of [T] outside the slot range throws
    [overflow_error], and the packer after the throw is the packer before
    the push: accumulator, count and shift cursor are unchanged. *)
Theorem push_outside_range_throws (T : int_type) (k : Z) (pre : list Z)
    (bp0 bp : bit_packer.t) (r : result unit) (n : Z) :
  is_bit_packable T = true ->
  bit_packer.ctor T k = Ok bp0 ->
  push_all T pre bp0 = (bp, r) ->
  bit_packer.m_index bp < k ->
  representable T n ->
  ~ in_slot_range T k n ->
  bit_packer.op_lshift T n bp = (bp, Throw overflow_error).
Proof.
  intros HT Hctor Hpush Hidx Hn Hout. apply is_bit_packable_digits in HT.
  pose proof (push_all_index_nonneg T pre bp0) as Hnn.
  rewrite (bit_packer_ctor_index T k bp0 Hctor), Hpush in Hnn. simpl in Hnn.
  specialize (Hnn ltac:(lia)).
  destruct (bit_packer_ctor_configured T HT k bp0 ltac:(lia) Hctor) as [Hv Hcfg].
  pose proof (push_all_configured T k pre bp0 Hcfg) as Hcfg'.
  rewrite Hpush in Hcfg'. simpl in Hcfg'.
  apply (op_lshift_out_of_range T k); auto.
  intros Hs. unfold representable, limits_min in Hn. rewrite Hs in Hn. lia.
Qed.

Lemma push_outside_range_throws_witness :
  let bp := bit_packer.of_signed
              (signed_bit_packer_impl.mk 5 (-1048576) 1048575 1 3 21 21) in
  bit_packer.op_lshift t_long_long 1048576 bp = (bp, Throw overflow_error).
Proof.
  intros bp.
  apply (push_outside_range_throws t_long_long 3 [5]
           (bit_packer.of_signed (signed_bit_packer_impl.mk 0 (-1048576) 1048575 0 3 21 0))
           bp (Ok tt) 1048576).
  - reflexivity.
  - reflexivity.
  - reflexivity.
  - simpl. lia.
  - vm_compute. split; discriminate.
  - vm_compute. intros [_ H]. apply H. reflexivity.
Defined.

(** C6. For a valid arity [k >= 1] and a word [n] of [T], the constructor of
    the unpacker throws [overflow_error] exactly when [n] lies outside the
    closed interval between the packed word of [k] copies of the smallest
    slot and the packed word of [k] copies of the largest slot; inside the
    interval it returns an unpacker. For a signed type and two slots or more
    the two ends are row [k - 1] of the table of packed bounds. *)
Theorem unpacker_ctor_overflow_iff (T : int_type) (k n : Z) :
  is_bit_packable T = true ->
  valid_arity T k -> 1 <= k ->
  representable T n ->
  exists wmin wmax,
    pack T k (replicate (Z.to_nat k) (slot_min T k)) = Ok wmin /\
    pack T k (replicate (Z.to_nat k) (slot_max T k)) = Ok wmax /\
    (is_signed T = true ->
     sbp_get_mmp T !! Z.to_nat (k - 1) = Some (wmin, wmax)) /\
    (bit_unpacker.ctor T n k = Throw overflow_error <-> ~ (wmin <= n <= wmax)) /\
    (wmin <= n <= wmax -> exists bu, bit_unpacker.ctor T n k = Ok bu).
Proof.
  intros HT Hv Hk Hn. apply is_bit_packable_digits in HT.
  exists (min_packed T k), (max_packed T k).
  destruct (pack_bounds T HT k Hv Hk) as [Hlo Hhi].
  split; [exact Hlo|]. split; [exact Hhi|]. split.
  { intros Hs. apply sbp_get_mmp_lookup; auto.
    unfold valid_arity in Hv. rewrite Hs, nbits_signed in Hv by auto. lia. }
  destruct (bit_unpacker_ctor T HT k n Hv Hk Hn) as [bu ->].
  destruct (Z.ltb_spec n (min_packed T k)); cbn [orb].
  - split; [split; [intros _; lia | reflexivity] | intros; lia].
  - destruct (Z.ltb_spec (max_packed T k) n).
    + split; [split; [intros _; lia | reflexivity] | intros; lia].
    + split; [split; [discriminate | intros H'; exfalso; apply H'; lia] | eauto].
Qed.

Lemma unpacker_ctor_overflow_iff_witness :
  exists wmin wmax,
    pack t_int 3 (replicate 3%nat (slot_min t_int 3)) = Ok wmin /\
    pack t_int 3 (replicate 3%nat (slot_max t_int 3)) = Ok wmax /\
    (is_signed t_int = true -> sbp_get_mmp t_int !! 2%nat = Some (wmin, wmax)) /\
    (bit_unpacker.ctor t_int 536346112 3 = Throw overflow_error
     <-> ~ (wmin <= 536346112 <= wmax)) /\
    (wmin <= 536346112 <= wmax -> exists bu, bit_unpacker.ctor t_int 536346112 3 = Ok bu).
Proof.
  apply (unpacker_ctor_overflow_iff t_int 3 536346112).
  - reflexivity.
  - vm_compute. split; [discriminate | reflexivity].
  - lia.
  - vm_compute. split; discriminate.
Defined.

(** C7. For a signed packable type and an arity [k >= 2], pushing at most
    [k] values of the slot range into a fresh packer never overflows the
    word: no push throws, the shift count stays below the width, and the
    shifted one, the product [n * 2^s] and the new accumulator
    [v + n * 2^s] of every push are values of [T]. *)
Theorem signed_pushes_never_overflow (T : int_type) (k : Z) (xs : list Z) :
  is_bit_packable T = true ->
  is_signed T = true ->
  2 <= k < nbits T ->
  Z.of_nat (length xs) <= k ->
  Forall (in_slot_range T k) xs ->
  exists st0, signed_bit_packer_impl.ctor T k = Ok st0 /\ pushes_defined T xs st0.
Proof.
  intros HT Hs Hk Hlen Hxs. apply is_bit_packable_digits in HT.
  rewrite nbits_signed in Hk by auto.
  exists (signed_packer_after T k []).
  split; [apply signed_packer_ctor; auto; lia|].
  assert (Hgen : forall ys pre,
             Z.of_nat (length pre) + Z.of_nat (length ys) <= k ->
             Forall (in_slot_range T k) pre -> Forall (in_slot_range T k) ys ->
             pushes_defined T ys (signed_packer_after T k pre)).
  { induction ys as [|y ys IH]; intros pre Hl Hpre Hys; [exact I|].
    apply Forall_cons in Hys as [Hy Hys]. simpl length in Hl.
    destruct (signed_push T Hs HT k pre y) as [Heq Hdef]; auto; try lia.
    cbn [pushes_defined]. split; [exact Hdef|]. rewrite Heq.
    apply IH; [rewrite length_app; simpl length; lia | | exact Hys].
    apply Forall_app; split; auto. }
  apply Hgen; auto; simpl; lia.
Qed.

Lemma signed_pushes_never_overflow_witness :
  exists st0, signed_bit_packer_impl.ctor t_int 2 = Ok st0 /\
              pushes_defined t_int [-16384; 16383] st0.
Proof.
  apply (signed_pushes_never_overflow t_int 2 [-16384; 16383]).
  - reflexivity.
  - reflexivity.
  - vm_compute. split; [discriminate | reflexivity].
  - simpl. lia.
  - repeat constructor; vm_compute; discriminate.
Defined.

(** C10. Packing after unpacking: for a valid arity [k >= 1] and a word [n]
    of [T] on which the constructor of the unpacker succeeds, the [k] values
    popped all lie in the slot range, and pushing them in order into a fresh
    packer of size [k] gives [n] back. So the accepted words are the
    packable ones: conversely every word packed from [k] values of the slot
    range is accepted. *)
Theorem unpack_pack_round_trip (T : int_type) (k n : Z) (bu : bit_unpacker.t) :
  is_bit_packable T = true ->
  valid_arity T k -> 1 <= k ->
  representable T n ->
  bit_unpacker.ctor T n k = Ok bu ->
  (exists xs, unpack T n k = Ok xs /\ Z.of_nat (length xs) = k /\
              Forall (in_slot_range T k) xs /\ pack T k xs = Ok n) /\
  (forall ys m, Z.of_nat (length ys) = k -> Forall (in_slot_range T k) ys ->
                pack T k ys = Ok m -> exists bu', bit_unpacker.ctor T m k = Ok bu').
Proof.
  intros HT Hv Hk Hn Hctor. apply is_bit_packable_digits in HT.
  split.
  - apply pack_unpack; auto.
    destruct (bit_unpacker_ctor T HT k n Hv Hk Hn) as [bu' Hc]. rewrite Hctor in Hc.
    destruct (Z.ltb_spec n (min_packed T k)); cbn [orb] in Hc; [discriminate|].
    destruct (Z.ltb_spec (max_packed T k) n); [discriminate|]. lia.
  - intros ys m Hlen Hys Hpack. rewrite pack_value in Hpack by auto.
    injection Hpack as <-.
    pose proof (packed_value_between T HT k ys Hv Hk Hlen Hys) as Hb.
    destruct (packed_bounds_representable T HT k Hv Hk) as [Hlo Hhi].
    destruct (bit_unpacker_ctor T HT k (packed_value (slot_bits T k) ys) Hv Hk
                ltac:(unfold representable; lia)) as [bu' ->].
    destruct (Z.ltb_spec (packed_value (slot_bits T k) ys) (min_packed T k)); [lia|].
    destruct (Z.ltb_spec (max_packed T k) (packed_value (slot_bits T k) ys)); [lia|].
    eauto.
Qed.

Lemma unpack_pack_round_trip_witness :
  (exists xs, unpack t_unsigned 123456789 3 = Ok xs /\ Z.of_nat (length xs) = 3 /\
              Forall (in_slot_range t_unsigned 3) xs /\
              pack t_unsigned 3 xs = Ok 123456789) /\
  (forall ys m, Z.of_nat (length ys) = 3 -> Forall (in_slot_range t_unsigned 3) ys ->
                pack t_unsigned 3 ys = Ok m ->
                exists bu', bit_unpacker.ctor t_unsigned m 3 = Ok bu').
Proof.
  apply (unpack_pack_round_trip t_unsigned 3 123456789
           (bit_unpacker.of_unsigned
              (unsigned_bit_unpacker_impl.mk 123456789 1023 0 3 10))).
  - reflexivity.
  - vm_compute. split; discriminate.
  - lia.
  - vm_compute. split; discriminate.
  - reflexivity.
Defined.

(** * Accumulation of terms *)

Section Accumulation.

Context {C : Type} `{CoefficientRingLaws C}.

Lemma nonzero_entry_zero : nonzero_entry (czero : C) = None.
Proof.
  unfold nonzero_entry. destruct (is_zero czero) eqn:E; [reflexivity|].
  assert (is_zero (czero : C) = true) by (apply is_zero_spec; reflexivity). congruence.
Qed.

Lemma nonzero_entry_Some (c x : C) : nonzero_entry c = Some x -> x = c /\ is_zero c = false.
Proof. unfold nonzero_entry. destruct (is_zero c); [discriminate|]. intros [= ->]. auto. Qed.

(** Accumulating into the entry of a running sum. *)
Lemma accumulate_entry_sum (x c : C) :
  accumulate_entry (nonzero_entry x) c = nonzero_entry (cadd x c).
Proof.
  unfold accumulate_entry, nonzero_entry at 1.
  destruct (is_zero x) eqn:E; [|reflexivity].
  apply is_zero_spec in E. subst x. rewrite cadd_zero_l. reflexivity.
Qed.

Lemma foldl_accumulate_entry (cs : list C) : forall x : C,
  foldl accumulate_entry (nonzero_entry x) cs
  = nonzero_entry (cadd x (coefficient_sum cs)).
Proof.
  induction cs as [|c cs IH]; intros x; simpl.
  - rewrite cadd_comm, cadd_zero_l. reflexivity.
  - rewrite accumulate_entry_sum, IH, cadd_assoc. reflexivity.
Qed.

Lemma foldl_accumulate_entry_None (cs : list C) :
  foldl accumulate_entry None cs = nonzero_entry (coefficient_sum cs).
Proof.
  rewrite <- nonzero_entry_zero, foldl_accumulate_entry, cadd_zero_l. reflexivity.
Qed.

(** The sum does not depend on the order of the coefficients. *)
Lemma coefficient_sum_permutation (cs1 cs2 : list C) :
  cs1 ≡ₚ cs2 -> coefficient_sum cs1 = coefficient_sum cs2.
Proof.
  induction 1 as [|c l1 l2 _ IH|c1 c2 l|l1 l2 l3 _ IH1 _ IH2]; simpl.
  - reflexivity.
  - rewrite IH. reflexivity.
  - rewrite !cadd_assoc, (cadd_comm c2 c1). reflexivity.
  - congruence.
Qed.

Lemma coefficients_of_permutation (m : Z) (ts1 ts2 : list (Z * C)) :
  ts1 ≡ₚ ts2 -> coefficients_of m ts1 ≡ₚ coefficients_of m ts2.
Proof. intros Hp. unfold coefficients_of. rewrite Hp. reflexivity. Qed.

(** One accumulation, seen from any monomial. *)
Lemma lookup_table_accumulate (m : Z) (c : C) (tbl : gmap Z C) (m' : Z) :
  table_accumulate m c tbl !! m'
  = if decide (m = m') then accumulate_entry (tbl !! m) c else tbl !! m'.
Proof.
  unfold table_accumulate, accumulate_entry, nonzero_entry.
  destruct (decide (m = m')) as [<-|Hne].
  - destruct (tbl !! m) as [c_old|] eqn:E.
    + destruct (is_zero (cadd c_old c)).
      * apply lookup_delete_eq.
      * apply lookup_insert_eq.
    + destruct (is_zero c); [exact E | apply lookup_insert_eq].
  - destruct (tbl !! m) as [c_old|] eqn:E.
    + destruct (is_zero (cadd c_old c)).
      * apply lookup_delete_ne. exact Hne.
      * apply lookup_insert_ne. exact Hne.
    + destruct (is_zero c); [reflexivity | apply lookup_insert_ne; exact Hne].
Qed.

(** Accumulating a list of terms into a table. *)
Lemma lookup_foldl_table_accumulate (ts : list (Z * C)) : forall (tbl : gmap Z C) m,
  foldl (fun tb t => table_accumulate (fst t) (snd t) tb) tbl ts !! m
  = foldl accumulate_entry (tbl !! m) (coefficients_of m ts).
Proof.
  induction ts as [|[m0 c0] ts IH]; intros tbl m; [reflexivity|].
  cbn [foldl fst snd]. rewrite IH, lookup_table_accumulate.
  unfold coefficients_of. cbn [omap list_omap fst snd].
  destruct (decide (m0 = m)) as [->|Hne]; reflexivity.
Qed.

(** Entries of an accumulated table have coefficients that are not zero. *)
Lemma table_accumulate_nonzero (m : Z) (c : C) (tbl : gmap Z C) :
  (forall m' x, tbl !! m' = Some x -> is_zero x = false) ->
  forall m' x, table_accumulate m c tbl !! m' = Some x -> is_zero x = false.
Proof.
  intros Htbl m' x. rewrite lookup_table_accumulate.
  destruct (decide (m = m')) as [<-|Hne]; [|apply Htbl].
  unfold accumulate_entry. destruct (tbl !! m); intros Hx;
    apply nonzero_entry_Some in Hx as [-> Hx]; exact Hx.
Qed.

End Accumulation.

(** * Polynomials as tables of terms *)

Section Segments.

Context {C : Type} `{CoefficientRingLaws C}.
Variable hash : Z -> nat.

Lemma segment_of_lt n m : (segment_of hash n m < 2 ^ n)%nat.
Proof.
  unfold segment_of. apply Nat.mod_upper_bound.
  apply Nat.pow_nonzero. lia.
Qed.

Lemma polynomial_wf_segmented T (p : polynomial C) :
  polynomial_wf T hash p -> segmented hash p.
Proof.
  intros [_ Hlen Hent]. split; [exact Hlen|].
  intros i tbl m c Hi Hm. apply (Hent i tbl m c Hi Hm).
Qed.

(** The entry of a monomial is the one in its segment. *)
Lemma all_terms_lookup (p : polynomial C) m :
  segmented hash p ->
  all_terms p !! m
  = (poly_segments p !! segment_of hash (poly_n_segments p) m) ≫= (.!! m).
Proof.
  intros [Hlen Hplace]. unfold all_terms.
  destruct (lookup_lt_is_Some_2 (poly_segments p) (segment_of hash (poly_n_segments p) m))
    as [tbl Htbl].
  { rewrite Hlen. apply segment_of_lt. }
  rewrite Htbl. simpl.
  destruct ((⋃ poly_segments p) !! m) as [c'|] eqn:Hu.
  - apply lookup_union_list_Some_1 in Hu as (tbl' & Hin & Hc').
    apply list_elem_of_lookup in Hin as [i Hi].
    pose proof (Hplace i tbl' m c' Hi Hc') as Hseg. subst i.
    rewrite Htbl in Hi. injection Hi as ->. symmetry. exact Hc'.
  - apply lookup_union_list_None in Hu.
    rewrite Forall_forall in Hu. symmetry. apply Hu.
    apply list_elem_of_lookup. eauto.
Qed.

Lemma insert_or_accumulate_segmented m c (p : polynomial C) :
  segmented hash p -> segmented hash (insert_or_accumulate hash m c p).
Proof.
  intros [Hlen Hplace]. unfold insert_or_accumulate.
  destruct (poly_segments p !! segment_of hash (poly_n_segments p) m) as [tbl|] eqn:Htbl;
    [|split; assumption].
  split; cbn [poly_segments poly_n_segments].
  - rewrite length_insert. exact Hlen.
  - intros i tbl' m' c' Hi Hm'.
    destruct (decide (segment_of hash (poly_n_segments p) m = i)) as [<-|Hne].
    + rewrite list_lookup_insert_eq in Hi by (eapply lookup_lt_Some; eauto).
      injection Hi as <-. rewrite lookup_table_accumulate in Hm'.
      destruct (decide (m = m')) as [<-|]; [reflexivity|].
      eapply Hplace; eauto.
    + rewrite list_lookup_insert_ne in Hi by exact Hne. eapply Hplace; eauto.
Qed.

Lemma all_terms_insert_or_accumulate m c (p : polynomial C) m' :
  segmented hash p ->
  all_terms (insert_or_accumulate hash m c p) !! m'
  = if decide (m = m') then accumulate_entry (all_terms p !! m) c
    else all_terms p !! m'.
Proof.
  intros Hseg. pose proof (insert_or_accumulate_segmented m c p Hseg) as Hseg'.
  rewrite (all_terms_lookup _ m' Hseg'), (all_terms_lookup p m Hseg),
    (all_terms_lookup p m' Hseg).
  destruct Hseg as [Hlen Hplace].
  destruct (lookup_lt_is_Some_2 (poly_segments p) (segment_of hash (poly_n_segments p) m))
    as [tbl Htbl].
  { rewrite Hlen. apply segment_of_lt. }
  unfold insert_or_accumulate. rewrite Htbl. cbn [poly_segments poly_n_segments].
  destruct (decide (segment_of hash (poly_n_segments p) m
                    = segment_of hash (poly_n_segments p) m')) as [Heq|Hne].
  - rewrite <- Heq.
    rewrite list_lookup_insert_eq by (eapply lookup_lt_Some; eauto).
    rewrite Htbl. simpl. apply lookup_table_accumulate.
  - rewrite list_lookup_insert_ne by exact Hne.
    destruct (decide (m = m')) as [<-|]; [congruence | reflexivity].
Qed.

(** Inserting a list of terms one after the other. *)
Lemma all_terms_foldl_insert (ts : list (Z * C)) : forall (p : polynomial C) m,
  segmented hash p ->
  segmented hash (foldl (fun q t => insert_or_accumulate hash (fst t) (snd t) q) p ts) /\
  all_terms (foldl (fun q t => insert_or_accumulate hash (fst t) (snd t) q) p ts) !! m
  = foldl accumulate_entry (all_terms p !! m) (coefficients_of m ts).
Proof.
  induction ts as [|[m0 c0] ts IH]; intros p m Hseg; [split; [exact Hseg | reflexivity]|].
  cbn [foldl fst snd].
  destruct (IH (insert_or_accumulate hash m0 c0 p) m
              (insert_or_accumulate_segmented m0 c0 p Hseg)) as [Hs Hl].
  split; [exact Hs|]. rewrite Hl, all_terms_insert_or_accumulate by exact Hseg.
  unfold coefficients_of. cbn [omap list_omap fst snd].
  destruct (decide (m0 = m)) as [->|Hne]; reflexivity.
Qed.

Lemma all_terms_empty (p : polynomial C) : polynomial_empty p -> all_terms p = ∅.
Proof.
  unfold polynomial_empty, all_terms. intros Hall.
  apply map_eq. intros m. rewrite lookup_empty.
  apply lookup_union_list_None. eapply Forall_impl; [exact Hall|].
  intros tbl ->. apply lookup_empty.
Qed.

Lemma clear_terms_empty (p : polynomial C) : polynomial_empty (clear_terms p).
Proof. unfold polynomial_empty, clear_terms. simpl. apply Forall_replicate. reflexivity. Qed.

End Segments.

(** * Loops over the pairs of terms *)

Section Loops.

Context {S A B : Type}.
Variable F : A -> result B.
Variable update : B -> S -> S.

Lemma for_each_all_ok (xs : list A) : forall s,
  Forall (fun a => exists b, F a = Ok b) xs ->
  for_each xs (compute_and_update F update) s
  = (foldl (fun s a => match F a with Ok b => update b s | Throw _ => s end) s xs, Ok tt).
Proof.
  induction xs as [|a xs IH]; intros s Hall; [reflexivity|].
  apply Forall_cons in Hall as [[b Hb] Hall].
  cbn [for_each foldl]. unfold mbind, compute_and_update at 1. rewrite Hb.
  apply IH. exact Hall.
Qed.

Lemma for_each_throws (e : exn) (xs : list A) : forall s,
  Forall (fun a => (exists b, F a = Ok b) \/ F a = Throw e) xs ->
  Exists (fun a => F a = Throw e) xs ->
  exists s', for_each xs (compute_and_update F update) s = (s', Throw e).
Proof.
  induction xs as [|a xs IH]; intros s Hall Hex; [inversion Hex|].
  apply Forall_cons in Hall as [Ha Hall].
  cbn [for_each]. unfold mbind, compute_and_update at 1.
  destruct Ha as [[b Hb]|Ha].
  - rewrite Hb. apply IH; [exact Hall|].
    apply Exists_cons in Hex as [Hex|Hex]; [congruence | exact Hex].
  - rewrite Ha. eauto.
Qed.

End Loops.

(** * Products of packed monomials *)

Lemma Forall_zip_with_add (P Q R : Z -> Prop) (va vb : list Z) :
  (forall a b, P a -> Q b -> R (a + b)) ->
  Forall P va -> Forall Q vb -> Forall R (zip_with Z.add va vb).
Proof.
  intros HR Hva. revert vb. induction Hva as [|a va Ha _ IH]; intros vb Hvb.
  - constructor.
  - destruct Hvb as [|b vb Hb Hvb]; [constructor|].
    cbn [zip_with]. constructor; auto.
Qed.

(** A list satisfies a decidable property everywhere, or has a first
    element that does not. *)
Lemma Forall_or_first {A} (P : A -> Prop) (Hdec : forall x, {P x} + {~ P x}) (xs : list A) :
  Forall P xs \/
  exists pre x post, xs = pre ++ x :: post /\ Forall P pre /\ ~ P x.
Proof.
  induction xs as [|a xs IH]; [left; constructor|].
  destruct (Hdec a) as [Ha|Ha].
  - destruct IH as [IH|(pre & x & post & -> & Hpre & Hx)].
    + left. constructor; auto.
    + right. exists (a :: pre), x, post. repeat split; auto.
  - right. exists [], a, xs. repeat split; auto.
Qed.

Lemma in_slot_range_dec T k x : {in_slot_range T k x} + {~ in_slot_range T k x}.
Proof.
  unfold in_slot_range.
  destruct (Z_le_dec (slot_min T k) x); [|right; lia].
  destruct (Z_le_dec x (slot_max T k)); [left; lia | right; lia].
Qed.

Section Monomials.

Variable T : int_type.
Hypothesis T_digits : 1 <= limits_digits T.

(** The round trip for any valid arity, zero included. *)
Lemma pack_then_unpack k xs :
  valid_arity T k -> Z.of_nat (length xs) = k -> Forall (in_slot_range T k) xs ->
  exists n, pack T k xs = Ok n /\ unpack T n k = Ok xs.
Proof.
  intros Hv Hlen Hxs. destruct (Z.eq_dec k 0) as [->|Hk0].
  - destruct xs; [|simpl in Hlen; lia].
    exists 0. split; [apply pack_zero; auto | apply unpack_zero; auto].
  - exists (packed_value (slot_bits T k) xs). apply unpack_pack; auto. lia.
Qed.

Lemma valid_monomial_unpack k m :
  valid_arity T k -> valid_monomial T k m ->
  exists v, unpack T m k = Ok v /\ Z.of_nat (length v) = k /\
            Forall (in_slot_range T k) v /\ pack T k v = Ok m.
Proof.
  intros Hv (xs & Hlen & Hxs & Hpack).
  destruct (pack_then_unpack k xs Hv Hlen Hxs) as (n & Hn & Hun).
  rewrite Hpack in Hn. injection Hn as <-. eauto.
Qed.

(** Packing the slot sums of two vectors in range: the product monomial,
    or [overflow_error] when a sum leaves the slot range. *)
Lemma pack_sums k va vb :
  valid_arity T k ->
  Z.of_nat (length va) = k -> Z.of_nat (length vb) = k ->
  Forall (in_slot_range T k) va -> Forall (in_slot_range T k) vb ->
  (Forall (in_slot_range T k) (zip_with Z.add va vb) /\
   exists m, pack T k (zip_with Z.add va vb) = Ok m /\ valid_monomial T k m /\
             unpack T m k = Ok (zip_with Z.add va vb))
  \/ (~ Forall (in_slot_range T k) (zip_with Z.add va vb) /\
      pack T k (zip_with Z.add va vb) = Throw overflow_error).
Proof.
  intros Hv Hla Hlb Hva Hvb.
  assert (Hls : Z.of_nat (length (zip_with Z.add va vb)) = k).
  { rewrite length_zip_with. lia. }
  destruct (Forall_or_first _ (in_slot_range_dec T k) (zip_with Z.add va vb))
    as [Hin|(pre & x & post & Heq & Hpre & Hx)].
  - left. split; [exact Hin|].
    destruct (pack_then_unpack k _ Hv Hls Hin) as (m & Hm & Hun).
    exists m. split; [exact Hm|]. split; [|exact Hun].
    exists (zip_with Z.add va vb). auto.
  - right. split.
    + intros Hall. rewrite Heq in Hall. apply Forall_app in Hall as [_ Hall].
      apply Forall_cons in Hall as [Hall _]. contradiction.
    + assert (Hnn : Forall (fun s => is_signed T = false -> 0 <= s) (zip_with Z.add va vb)).
      { apply (Forall_zip_with_add (in_slot_range T k) (in_slot_range T k)); auto.
        intros a b Ha Hb Hs. unfold in_slot_range in Ha, Hb.
        rewrite unsigned_slot_min in Ha, Hb by auto. lia. }
      rewrite Heq in Hnn, Hls |- *.
      apply Forall_app in Hnn as [_ Hnn]. apply Forall_cons in Hnn as [Hx0 _].
      rewrite length_app in Hls. simpl length in Hls.
      apply pack_overflow; auto. lia.
Qed.

(** The product of two valid monomials. *)
Lemma monomial_multiply_valid k a b :
  valid_arity T k -> valid_monomial T k a -> valid_monomial T k b ->
  exists va vb,
    unpack T a k = Ok va /\ unpack T b k = Ok vb /\
    Z.of_nat (length va) = k /\ Z.of_nat (length vb) = k /\
    Forall (in_slot_range T k) va /\ Forall (in_slot_range T k) vb /\
    ((Forall (in_slot_range T k) (zip_with Z.add va vb) /\
      exists m, monomial_multiply T k a b = Ok m /\ valid_monomial T k m /\
                unpack T m k = Ok (zip_with Z.add va vb))
     \/ (~ Forall (in_slot_range T k) (zip_with Z.add va vb) /\
         monomial_multiply T k a b = Throw overflow_error)).
Proof.
  intros Hv Ha Hb.
  destruct (valid_monomial_unpack k a Hv Ha) as (va & Hua & Hla & Hva & _).
  destruct (valid_monomial_unpack k b Hv Hb) as (vb & Hub & Hlb & Hvb & _).
  exists va, vb. repeat (split; [assumption|]).
  unfold monomial_multiply. rewrite Hua, Hub. cbn [rbind].
  apply pack_sums; auto.
Qed.

Section Terms.

Context {C : Type} `{CoefficientRing C}.

Lemma retained_valid (ss : symbol_set) tr m :
  valid_arity T (Z.of_nat (length ss)) ->
  valid_monomial T (Z.of_nat (length ss)) m ->
  exists keep, retained T ss tr m = Ok keep.
Proof.
  intros Hv Hm. destruct (valid_monomial_unpack _ m Hv Hm) as (v & Hu & _).
  unfold retained, partial_degree. rewrite Hu. destruct tr; cbn [rbind]; eauto.
Qed.

(** What a pair of terms with valid monomials gives: a contribution or
    none when the product is representable, [overflow_error] otherwise. *)
Lemma multiply_terms_valid (ss : symbol_set) tr (tf tg : Z * C) :
  valid_arity T (Z.of_nat (length ss)) ->
  valid_monomial T (Z.of_nat (length ss)) (fst tf) ->
  valid_monomial T (Z.of_nat (length ss)) (fst tg) ->
  (exists m keep,
      monomial_multiply T (Z.of_nat (length ss)) (fst tf) (fst tg) = Ok m /\
      valid_monomial T (Z.of_nat (length ss)) m /\
      retained T ss tr m = Ok keep /\
      multiply_terms T ss tr (tf, tg)
      = Ok (if keep then Some (m, cmul (snd tf) (snd tg)) else None))
  \/ (monomial_multiply T (Z.of_nat (length ss)) (fst tf) (fst tg) = Throw overflow_error /\
      multiply_terms T ss tr (tf, tg) = Throw overflow_error).
Proof.
  intros Hv Hf Hg.
  destruct (monomial_multiply_valid _ _ _ Hv Hf Hg)
    as (va & vb & _ & _ & _ & _ & _ & _ & [(_ & m & Hm & Hvm & _)|(_ & Hthrow)]).
  - left. destruct (retained_valid ss tr m Hv Hvm) as [keep Hkeep].
    exists m, keep. repeat (split; [assumption|]).
    unfold multiply_terms. cbn [fst snd]. rewrite Hm. cbn [rbind].
    rewrite Hkeep. reflexivity.
  - right. split; [exact Hthrow|].
    unfold multiply_terms. cbn [fst snd]. rewrite Hthrow. reflexivity.
Qed.

End Terms.

End Monomials.

(** * The overflow pre-check *)

Section Extremes.

(** Maxima and minima at once: [op] picks the more extreme of two values
    for the order [R]. *)
Variable op : Z -> Z -> Z.
Variable R : Z -> Z -> Prop.
Hypothesis R_refl : forall a, R a a.
Hypothesis R_trans : forall a b c, R a b -> R b c -> R a c.
Hypothesis op_left : forall a b, R a (op a b).
Hypothesis op_right : forall a b, R b (op a b).
Hypothesis op_choice : forall a b, op a b = a \/ op a b = b.

Lemma foldl_extremes (vs : list (list Z)) : forall (acc : list Z) (n : nat),
  length acc = n -> Forall (fun v => length v = n) vs ->
  length (foldl (zip_with op) acc vs) = n /\
  forall j x, foldl (zip_with op) acc vs !! j = Some x ->
    (forall y, acc !! j = Some y -> R y x) /\
    (forall v y, v ∈ vs -> v !! j = Some y -> R y x) /\
    (acc !! j = Some x \/ exists v, v ∈ vs /\ v !! j = Some x).
Proof.
  induction vs as [|u vs IH]; intros acc n Hacc Hvs.
  - split; [exact Hacc|]. intros j x Hx. cbn [foldl] in Hx. split; [|split].
    + intros y Hy. rewrite Hx in Hy. injection Hy as <-. apply R_refl.
    + intros v y Hin. inversion Hin.
    + left. exact Hx.
  - apply Forall_cons in Hvs as [Hu Hvs]. cbn [foldl].
    destruct (IH (zip_with op acc u) n) as [Hlen Hall]; auto.
    { rewrite length_zip_with. lia. }
    split; [exact Hlen|]. intros j x Hx.
    destruct (Hall j x Hx) as (Hacc' & Hvs' & Hatt).
    assert (Hj : (j < n)%nat).
    { rewrite <- Hlen. eapply lookup_lt_Some; eauto. }
    destruct (lookup_lt_is_Some_2 acc j ltac:(lia)) as [a Ha].
    destruct (lookup_lt_is_Some_2 u j ltac:(lia)) as [b Hb].
    assert (Hzip : zip_with op acc u !! j = Some (op a b)).
    { rewrite lookup_zip_with, Ha, Hb. reflexivity. }
    split; [|split].
    + intros y Hy. rewrite Ha in Hy. injection Hy as <-.
      eapply R_trans; [apply op_left | apply Hacc'; exact Hzip].
    + intros v y Hin Hy. apply elem_of_cons in Hin as [->|Hin].
      * rewrite Hb in Hy. injection Hy as <-.
        eapply R_trans; [apply op_right | apply Hacc'; exact Hzip].
      * eapply Hvs'; eauto.
    + destruct Hatt as [Hatt|(v & Hin & Hv)].
      * rewrite Hzip in Hatt. injection Hatt as <-.
        destruct (op_choice a b) as [-> | ->].
        -- left. exact Ha.
        -- right. exists u. split; [left|exact Hb].
      * right. exists v. split; [right; exact Hin | exact Hv].
Qed.

End Extremes.

Lemma forallb_lookup {A} (p : A -> bool) (l : list A) :
  forallb p l = true <-> forall j x, l !! j = Some x -> p x = true.
Proof.
  rewrite forallb_forall. split.
  - intros Hall j x Hx. apply Hall. apply list_elem_of_In.
    apply list_elem_of_lookup. eauto.
  - intros Hall x Hx. apply list_elem_of_In, list_elem_of_lookup in Hx as [j Hj]. eauto.
Qed.

(** The slot maxima bound every vector from above and every one of them is
    reached; likewise the minima from below. *)
Lemma slot_maxima_spec (vs : list (list Z)) (n : nat) mx :
  Forall (fun v => length v = n) vs -> slot_maxima vs = Some mx ->
  length mx = n /\
  forall j x, mx !! j = Some x ->
    (forall v y, v ∈ vs -> v !! j = Some y -> y <= x) /\
    (exists v, v ∈ vs /\ v !! j = Some x).
Proof.
  destruct vs as [|v0 vs]; [discriminate|]. intros Hvs [= <-].
  apply Forall_cons in Hvs as [Hv0 Hvs].
  destruct (foldl_extremes Z.max Z.le Z.le_refl Z.le_trans Z.le_max_l Z.le_max_r
              ltac:(intros a b; lia) vs v0 n Hv0 Hvs) as [Hlen Hall].
  split; [exact Hlen|]. intros j x Hx. destruct (Hall j x Hx) as (Hacc & Hrest & Hatt).
  split.
  - intros v y Hin Hy. apply elem_of_cons in Hin as [->|Hin]; eauto.
  - destruct Hatt as [Hatt|(v & Hin & Hv)].
    + exists v0. split; [left | exact Hatt].
    + exists v. split; [right; exact Hin | exact Hv].
Qed.

Lemma slot_minima_spec (vs : list (list Z)) (n : nat) mn :
  Forall (fun v => length v = n) vs -> slot_minima vs = Some mn ->
  length mn = n /\
  forall j x, mn !! j = Some x ->
    (forall v y, v ∈ vs -> v !! j = Some y -> x <= y) /\
    (exists v, v ∈ vs /\ v !! j = Some x).
Proof.
  destruct vs as [|v0 vs]; [discriminate|]. intros Hvs [= <-].
  apply Forall_cons in Hvs as [Hv0 Hvs].
  destruct (foldl_extremes Z.min Z.ge ltac:(intros; lia) ltac:(intros; lia)
              ltac:(intros; lia) ltac:(intros; lia)
              ltac:(intros a b; lia) vs v0 n Hv0 Hvs) as [Hlen Hall].
  split; [exact Hlen|]. intros j x Hx. destruct (Hall j x Hx) as (Hacc & Hrest & Hatt).
  split.
  - intros v y Hin Hy. apply elem_of_cons in Hin as [->|Hin].
    + specialize (Hacc y Hy). lia.
    + specialize (Hrest v y Hin Hy). lia.
  - destruct Hatt as [Hatt|(v & Hin & Hv)].
    + exists v0. split; [left | exact Hatt].
    + exists v. split; [right; exact Hin | exact Hv].
Qed.

(** The pre-check passes exactly when the slot sums of every pair of
    vectors lie in the slot range. *)
Lemma overflow_precheck_iff T k (vf vg : list (list Z)) (n : nat) :
  Forall (fun v => length v = n) vf -> Forall (fun v => length v = n) vg ->
  overflow_precheck T k vf vg = true
  <-> forall u v, u ∈ vf -> v ∈ vg -> Forall (in_slot_range T k) (zip_with Z.add u v).
Proof.
  intros Hvf Hvg. unfold overflow_precheck.
  destruct (slot_maxima vf) as [maxf|] eqn:Emaxf;
    [|destruct vf; [|discriminate]; split; [intros _ u v Hu; inversion Hu | reflexivity]].
  destruct (slot_minima vf) as [minf|] eqn:Eminf; [|destruct vf; discriminate].
  destruct (slot_maxima vg) as [maxg|] eqn:Emaxg;
    [|destruct vg; [|discriminate]; split; [intros _ u v _ Hv; inversion Hv | reflexivity]].
  destruct (slot_minima vg) as [ming|] eqn:Eming; [|destruct vg; discriminate].
  destruct (slot_maxima_spec vf n maxf Hvf Emaxf) as [Lmaxf Smaxf].
  destruct (slot_minima_spec vf n minf Hvf Eminf) as [Lminf Sminf].
  destruct (slot_maxima_spec vg n maxg Hvg Emaxg) as [Lmaxg Smaxg].
  destruct (slot_minima_spec vg n ming Hvg Eming) as [Lming Sming].
  rewrite andb_true_iff, !forallb_lookup. split.
  - intros [Hmax Hmin] u v Hu Hv. apply Forall_lookup. intros j s Hs.
    apply lookup_zip_with_Some in Hs as (a & b & -> & Ha & Hb).
    assert (Hj : (j < n)%nat).
    { rewrite Forall_forall in Hvf. rewrite <- (Hvf u Hu). eapply lookup_lt_Some; eauto. }
    destruct (lookup_lt_is_Some_2 maxf j ltac:(lia)) as [xf Hxf].
    destruct (lookup_lt_is_Some_2 minf j ltac:(lia)) as [yf Hyf].
    destruct (lookup_lt_is_Some_2 maxg j ltac:(lia)) as [xg Hxg].
    destruct (lookup_lt_is_Some_2 ming j ltac:(lia)) as [yg Hyg].
    pose proof (proj1 (Smaxf j xf Hxf) u a Hu Ha).
    pose proof (proj1 (Sminf j yf Hyf) u a Hu Ha).
    pose proof (proj1 (Smaxg j xg Hxg) v b Hv Hb).
    pose proof (proj1 (Sming j yg Hyg) v b Hv Hb).
    specialize (Hmax j (xf + xg)). specialize (Hmin j (yf + yg)).
    rewrite lookup_zip_with, Hxf, Hxg in Hmax. rewrite lookup_zip_with, Hyf, Hyg in Hmin.
    specialize (Hmax eq_refl). specialize (Hmin eq_refl).
    apply Z.leb_le in Hmax, Hmin. unfold in_slot_range. lia.
  - intros Hall. split; intros j s Hs;
      apply lookup_zip_with_Some in Hs as (a & b & -> & Ha & Hb); apply Z.leb_le.
    + destruct (proj2 (Smaxf j a Ha)) as (u & Hu & Hua).
      destruct (proj2 (Smaxg j b Hb)) as (v & Hv & Hvb).
      pose proof (Hall u v Hu Hv) as Hin. rewrite Forall_lookup in Hin.
      specialize (Hin j (a + b)). rewrite lookup_zip_with, Hua, Hvb in Hin.
      specialize (Hin eq_refl). unfold in_slot_range in Hin. lia.
    + destruct (proj2 (Sminf j a Ha)) as (u & Hu & Hua).
      destruct (proj2 (Sming j b Hb)) as (v & Hv & Hvb).
      pose proof (Hall u v Hu Hv) as Hin. rewrite Forall_lookup in Hin.
      specialize (Hin j (a + b)). rewrite lookup_zip_with, Hua, Hvb in Hin.
      specialize (Hin eq_refl). unfold in_slot_range in Hin. lia.
Qed.

(** * The two multipliers *)

Lemma for_each_ext {S A} (body1 body2 : A -> method S unit) (xs : list A) :
  (forall a s, body1 a s = body2 a s) ->
  forall s, for_each xs body1 s = for_each xs body2 s.
Proof.
  intros Hext. induction xs as [|a xs IH]; intros s; [reflexivity|].
  cbn [for_each]. unfold mbind. rewrite Hext.
  destruct (body2 a s) as [s' [[]|e]]; [apply IH | reflexivity].
Qed.

Lemma Forall_or_Exists {A} (P Q : A -> Prop) (xs : list A) :
  Forall (fun a => P a \/ Q a) xs -> Forall P xs \/ Exists Q xs.
Proof.
  induction 1 as [|a xs [Ha|Ha] _ [IH|IH]]; auto.
Qed.

Lemma elem_of_pairs {A B} (xs : list A) (ys : list B) (pr : A * B) :
  pr ∈ pairs xs ys <-> fst pr ∈ xs /\ snd pr ∈ ys.
Proof.
  unfold pairs. rewrite !list_elem_of_In, in_flat_map. split.
  - intros (x & Hx & Hin). apply in_map_iff in Hin as (y & <- & Hy). auto.
  - intros [Hx Hy]. exists (fst pr). split; [exact Hx|].
    apply in_map_iff. exists (snd pr). split; [destruct pr; reflexivity | exact Hy].
Qed.

Lemma pairs_permutation {A B} (xs xs' : list A) (ys : list B) :
  xs ≡ₚ xs' -> pairs xs ys ≡ₚ pairs xs' ys.
Proof. intros Hp. unfold pairs. apply Permutation_flat_map. exact Hp. Qed.

Lemma join_all_map {A B} (f : A -> result B) (g : A -> B) (xs : list A) :
  (forall x, x ∈ xs -> f x = Ok (g x)) ->
  join_all (map f xs) = Ok (map g xs).
Proof.
  induction xs as [|x xs IH]; intros Hf; [reflexivity|].
  cbn [map join_all]. rewrite (Hf x) by left. cbn [rbind].
  rewrite IH by (intros y Hy; apply Hf; right; exact Hy). reflexivity.
Qed.

(** Two disjoint filters of a list, one after the other, are the filter of
    their union up to the order. *)
Lemma filter_app_disjoint {A} (P Q : A -> Prop)
    `{forall x, Decision (P x)} `{forall x, Decision (Q x)} (l : list A) :
  (forall x, P x -> Q x -> False) ->
  filter P l ++ filter Q l ≡ₚ filter (fun x => P x \/ Q x) l.
Proof.
  intros Hdisj. induction l as [|x l IH]; [reflexivity|].
  rewrite !filter_cons.
  destruct (decide (P x)) as [HP|HP], (decide (Q x)) as [HQ|HQ].
  - exfalso. eauto.
  - rewrite decide_True by auto. simpl. rewrite IH. reflexivity.
  - rewrite decide_True by auto. rewrite <- Permutation_middle, IH. reflexivity.
  - rewrite decide_False by tauto. exact IH.
Qed.

Lemma filter_equiv {A} (P Q : A -> Prop)
    `{forall x, Decision (P x)} `{forall x, Decision (Q x)} (l : list A) :
  (forall x, P x <-> Q x) -> filter P l = filter Q l.
Proof.
  intros Heq. induction l as [|x l IH]; [reflexivity|].
  rewrite !filter_cons, IH.
  destruct (decide (P x)), (decide (Q x)); try reflexivity; exfalso; firstorder.
Qed.

Section Grouping.

Context {A : Type}.
Variable key : A -> nat.

(** Grouping a list by a key below [N] keeps its elements. *)
Lemma group_by_key_filter (l : list A) (N : nat) :
  flat_map (fun s => filter (fun x => key x = s) l) (seq 0 N)
  ≡ₚ filter (fun x => (key x < N)%nat) l.
Proof.
  induction N as [|N IH].
  - simpl. induction l as [|x l IHl]; [reflexivity|].
    rewrite filter_cons. rewrite decide_False by lia. exact IHl.
  - rewrite seq_S, flat_map_app, IH. simpl. rewrite app_nil_r.
    rewrite filter_app_disjoint by (intros; lia).
    rewrite (filter_equiv (fun x => (key x < N)%nat \/ key x = N)
                          (fun x => (key x < S N)%nat)) by (intros; lia).
    reflexivity.
Qed.

Lemma group_by_key_permutation (l : list A) (N : nat) :
  (forall x, (key x < N)%nat) ->
  flat_map (fun s => filter (fun x => key x = s) l) (seq 0 N) ≡ₚ l.
Proof.
  intros Hkey. rewrite group_by_key_filter.
  induction l as [|x l IH]; [reflexivity|].
  rewrite filter_cons, decide_True by auto. rewrite IH. reflexivity.
Qed.

End Grouping.

Section Multipliers.

Context {C : Type} `{CoefficientRingLaws C}.
Variable T : int_type.
Hypothesis T_digits : 1 <= limits_digits T.
Variable hash : Z -> nat.

Lemma partition_by_segment_permutation n (ts : list (Z * C)) :
  partition_by_segment hash n ts ≡ₚ ts.
Proof.
  unfold partition_by_segment.
  apply (group_by_key_permutation (fun t => segment_of hash n (fst t))).
  intros t. apply segment_of_lt.
Qed.

(** The monomials of the terms of a well-formed polynomial are valid. *)
Lemma terms_valid (p : polynomial C) t :
  polynomial_wf T hash p -> t ∈ terms p ->
  valid_monomial T (Z.of_nat (length (poly_symbol_set p))) (fst t).
Proof.
  intros [_ _ Hent] Hin. unfold terms in Hin.
  apply list_elem_of_In, in_concat in Hin as (l & Hl & Hin).
  apply in_map_iff in Hl as (tbl & <- & Htbl).
  apply list_elem_of_In, list_elem_of_lookup in Htbl as [i Hi].
  apply list_elem_of_In in Hin. destruct t as [m c].
  apply elem_of_map_to_list in Hin.
  apply (Hent i tbl m c Hi Hin).
Qed.

(** Inserting the outcomes of a list of pairs is inserting the list of
    their contributions. *)
Lemma foldl_insert_contributions ss tr (L : list ((Z * C) * (Z * C))) : forall h,
  foldl (fun s a => match multiply_terms T ss tr a with
                    | Ok b => insert_contribution hash b s
                    | Throw _ => s
                    end) h L
  = foldl (fun q t => insert_or_accumulate hash (fst t) (snd t) q) h
          (omap (contribution T ss tr) L).
Proof.
  induction L as [|pr L IH]; intros h; [reflexivity|].
  cbn [foldl omap list_omap].
  replace (contribution T ss tr pr)
    with (match multiply_terms T ss tr pr with Ok o => o | Throw _ => None end)
    by reflexivity.
  destruct (multiply_terms T ss tr pr) as [[[m c]|]|e];
    cbn [insert_contribution foldl fst snd]; apply IH.
Qed.

Lemma foldl_accumulate_contributions ss tr n sigma (L : list ((Z * C) * (Z * C))) :
  forall tbl,
  foldl (fun s a => match multiply_terms T ss tr a with
                    | Ok b => accumulate_contribution hash n sigma b s
                    | Throw _ => s
                    end) tbl L
  = foldl (fun tb t => table_accumulate (fst t) (snd t) tb) tbl
          (filter (fun t => segment_of hash n (fst t) = sigma)
                  (omap (contribution T ss tr) L)).
Proof.
  induction L as [|pr L IH]; intros tbl; [reflexivity|].
  cbn [foldl omap list_omap].
  replace (contribution T ss tr pr)
    with (match multiply_terms T ss tr pr with Ok o => o | Throw _ => None end)
    by reflexivity.
  destruct (multiply_terms T ss tr pr) as [[[m c]|]|e]; cbn [accumulate_contribution];
    try apply IH.
  rewrite filter_cons. cbn [fst].
  destruct (decide (segment_of hash n m = sigma)); cbn [foldl fst snd]; apply IH.
Qed.

(** The pairs of valid terms: all products representable, or some pair
    throws [overflow_error]. *)
Lemma pairs_outcomes ss tr (fs gs : list (Z * C)) :
  valid_arity T (Z.of_nat (length ss)) ->
  (forall t, t ∈ fs -> valid_monomial T (Z.of_nat (length ss)) (fst t)) ->
  (forall t, t ∈ gs -> valid_monomial T (Z.of_nat (length ss)) (fst t)) ->
  Forall (fun pr => (exists o, multiply_terms T ss tr pr = Ok o) \/
                    multiply_terms T ss tr pr = Throw overflow_error) (pairs fs gs) /\
  (products_representable T ss fs gs
   <-> Forall (fun pr => exists o, multiply_terms T ss tr pr = Ok o) (pairs fs gs)).
Proof.
  intros Hv Hfs Hgs. split.
  - apply Forall_forall. intros [tf tg] Hin. apply elem_of_pairs in Hin as [Hf Hg].
    destruct (multiply_terms_valid T T_digits ss tr tf tg Hv (Hfs _ Hf) (Hgs _ Hg))
      as [(m & keep & _ & _ & _ & ->)|[_ ->]]; eauto.
  - split.
    + intros Hrep. apply Forall_forall. intros [tf tg] Hin.
      apply elem_of_pairs in Hin as [Hf Hg]. destruct (Hrep tf tg Hf Hg) as [m Hm].
      destruct (multiply_terms_valid T T_digits ss tr tf tg Hv (Hfs _ Hf) (Hgs _ Hg))
        as [(m' & keep & _ & _ & _ & ->)|[Hthrow _]]; eauto.
      cbn [fst] in Hm. congruence.
    + intros Hall tf tg Hf Hg. rewrite Forall_forall in Hall.
      destruct (Hall (tf, tg)) as [o Ho]; [apply elem_of_pairs; auto|].
      destruct (multiply_terms_valid T T_digits ss tr tf tg Hv (Hfs _ Hf) (Hgs _ Hg))
        as [(m' & keep & Hm & _)|[_ Hthrow]]; eauto.
      congruence.
Qed.

(** The simple multiplier: the table of product coefficients when every
    product is representable, [overflow_error] and an empty destination
    otherwise. *)
Lemma mul_simple_result (f g h : polynomial C) tr :
  multiplication_ready T hash f g h ->
  (products_representable T (poly_symbol_set h) (terms f) (terms g) ->
   exists h', mul_simple T hash f g tr h = (h', Ok tt) /\
     forall m, all_terms h' !! m
               = product_coefficient T (poly_symbol_set h) tr (terms f) (terms g) m) /\
  (~ products_representable T (poly_symbol_set h) (terms f) (terms g) ->
   exists h', mul_simple T hash f g tr h = (h', Throw overflow_error) /\
              all_terms h' = ∅).
Proof.
  intros (Hf & Hg & Hh & Hempty & Hsf & Hsg).
  set (ss := poly_symbol_set h). set (L := pairs (terms f) (terms g)).
  destruct (pairs_outcomes ss tr (terms f) (terms g)) as [Hout Hiff].
  { apply Hh. }
  { intros t Ht. unfold ss. rewrite <- Hsf. apply terms_valid; auto. }
  { intros t Ht. unfold ss. rewrite <- Hsg. apply terms_valid; auto. }
  assert (Hbody : forall a s, mul_simple_step T hash ss tr a s
                    = compute_and_update (multiply_terms T ss tr)
                        (insert_contribution hash) a s).
  { intros a s. unfold mul_simple_step, compute_and_update.
    destruct (multiply_terms T ss tr a) as [[[m c]|]|e]; reflexivity. }
  split.
  - intros Hrep. apply Hiff in Hrep.
    unfold mul_simple. fold ss. fold L.
    rewrite (for_each_ext _ _ L Hbody), for_each_all_ok by exact Hrep.
    eexists. split; [reflexivity|]. intros m.
    rewrite foldl_insert_contributions.
    destruct (all_terms_foldl_insert hash (omap (contribution T ss tr) L) h m
                (polynomial_wf_segmented hash T h Hh)) as [_ ->].
    rewrite (all_terms_empty h Hempty), lookup_empty.
    apply foldl_accumulate_entry_None.
  - intros Hrep.
    destruct (Forall_or_Exists _ _ _ Hout) as [Hall|Hex]; [exfalso; apply Hrep, Hiff, Hall|].
    destruct (for_each_throws (multiply_terms T ss tr) (insert_contribution hash)
                overflow_error L h Hout Hex) as [h' Hh'].
    unfold mul_simple. fold ss. fold L.
    rewrite (for_each_ext _ _ L Hbody), Hh'.
    eexists. split; [reflexivity|].
    apply all_terms_empty, clear_terms_empty.
Qed.

(** The exponent vectors of a list of valid terms. *)
Lemma unpack_all_spec k (ts : list (Z * C)) :
  valid_arity T k ->
  (forall t, t ∈ ts -> valid_monomial T k (fst t)) ->
  exists vs, unpack_all T k ts = Ok vs /\
    Forall (fun v => length v = Z.to_nat k) vs /\
    (forall u, u ∈ vs <-> exists t, t ∈ ts /\ unpack T (fst t) k = Ok u).
Proof.
  intros Hv. induction ts as [|t ts IH]; intros Hts.
  - exists []. split; [reflexivity|]. split; [constructor|].
    intros u. split; [intros Hu; inversion Hu | intros (t & Ht & _); inversion Ht].
  - destruct IH as (vs & Hvs & Hlen & Hiff).
    { intros t' Ht'. apply Hts. right. exact Ht'. }
    destruct (valid_monomial_unpack T T_digits k (fst t) Hv (Hts t ltac:(left)))
      as (v & Hu & Hl & _).
    exists (v :: vs). cbn [unpack_all]. rewrite Hu, Hvs. cbn [rbind].
    split; [reflexivity|]. split; [constructor; [lia | exact Hlen]|].
    intros u. rewrite elem_of_cons, Hiff. split.
    + intros [->|(t' & Ht' & Hu')]; [exists t; split; [left | exact Hu]|].
      exists t'. split; [right; exact Ht' | exact Hu'].
    + intros (t' & Ht' & Hu'). apply elem_of_cons in Ht' as [->|Ht'].
      * left. congruence.
      * right. eauto.
Qed.

(** The pre-check passes exactly when every product is representable. *)
Lemma precheck_representable ss (fs gs : list (Z * C)) vf vg :
  valid_arity T (Z.of_nat (length ss)) ->
  (forall t, t ∈ fs -> valid_monomial T (Z.of_nat (length ss)) (fst t)) ->
  (forall t, t ∈ gs -> valid_monomial T (Z.of_nat (length ss)) (fst t)) ->
  unpack_all T (Z.of_nat (length ss)) fs = Ok vf ->
  unpack_all T (Z.of_nat (length ss)) gs = Ok vg ->
  overflow_precheck T (Z.of_nat (length ss)) vf vg = true
  <-> products_representable T ss fs gs.
Proof.
  intros Hv Hfs Hgs Hvf Hvg.
  destruct (unpack_all_spec _ fs Hv Hfs) as (vf' & Hvf' & Hlf & Hif).
  destruct (unpack_all_spec _ gs Hv Hgs) as (vg' & Hvg' & Hlg & Hig).
  rewrite Hvf in Hvf'. injection Hvf' as <-. rewrite Hvg in Hvg'. injection Hvg' as <-.
  rewrite (overflow_precheck_iff T _ vf vg _ Hlf Hlg). split.
  - intros Hall tf tg Hf Hg.
    destruct (monomial_multiply_valid T T_digits _ _ _ Hv (Hfs _ Hf) (Hgs _ Hg))
      as (va & vb & Hua & Hub & _ & _ & _ & _ & [(_ & m & Hm & _)|(Hno & _)]); eauto.
    exfalso. apply Hno. apply Hall; [apply Hif | apply Hig]; eauto.
  - intros Hrep u v Hu Hw.
    apply Hif in Hu as (tf & Hf & Huf). apply Hig in Hw as (tg & Hg & Hug).
    destruct (Hrep tf tg Hf Hg) as [m Hm].
    destruct (monomial_multiply_valid T T_digits _ _ _ Hv (Hfs _ Hf) (Hgs _ Hg))
      as (va & vb & Hua & Hub & _ & _ & _ & _ & [(Hin & _)|(_ & Hthrow)]); [|congruence].
    rewrite Huf in Hua. injection Hua as <-. rewrite Hug in Hub. injection Hub as <-.
    exact Hin.
Qed.

(** The worker of a segment, when no pair throws. *)
Lemma worker_result ss tr n (fs gs : list (Z * C)) sigma :
  Forall (fun pr => exists o, multiply_terms T ss tr pr = Ok o) (pairs fs gs) ->
  worker T hash ss tr n fs gs sigma
  = Ok (segment_table hash n (contributions T ss tr fs gs) sigma).
Proof.
  intros Hall. unfold worker.
  rewrite (for_each_ext _ (compute_and_update (multiply_terms T ss tr)
                             (accumulate_contribution hash n sigma))).
  2:{ intros a s. unfold worker_step, compute_and_update.
      destruct (multiply_terms T ss tr a) as [[[m c]|]|e]; try reflexivity.
      cbn [accumulate_contribution].
      destruct (decide (segment_of hash n m = sigma)); reflexivity. }
  rewrite for_each_all_ok by exact Hall.
  rewrite foldl_accumulate_contributions. reflexivity.
Qed.

Lemma coefficients_of_filter_segment n m (ts : list (Z * C)) :
  coefficients_of m
    (filter (fun t => segment_of hash n (fst t) = segment_of hash n m) ts)
  = coefficients_of m ts.
Proof.
  induction ts as [|[m0 c0] ts IH]; [reflexivity|].
  rewrite filter_cons. cbn [fst].
  destruct (decide (segment_of hash n m0 = segment_of hash n m)) as [Heq|Hne];
    unfold coefficients_of in *; cbn [omap list_omap fst snd]; rewrite IH; [reflexivity|].
  destruct (decide (m0 = m)) as [->|]; [congruence | reflexivity].
Qed.

Lemma coefficients_of_nil m (ts : list (Z * C)) :
  (forall t, t ∈ ts -> fst t <> m) -> coefficients_of m ts = [].
Proof.
  induction ts as [|[m0 c0] ts IH]; intros Hts; [reflexivity|].
  unfold coefficients_of in *. cbn [omap list_omap fst snd].
  destruct (decide (m0 = m)) as [->|].
  - exfalso. apply (Hts (m, c0)); [left | reflexivity].
  - apply IH. intros t Ht. apply Hts. right. exact Ht.
Qed.

(** The tables of the workers, put side by side, form a segmented
    polynomial whose terms are the accumulated contributions. *)
Lemma segment_tables_segmented ss n (ts : list (Z * C)) :
  segmented hash (Polynomial ss n (map (segment_table hash n ts) (seq 0 (2 ^ n)))).
Proof.
  split; cbn [poly_segments poly_n_segments].
  - rewrite length_map, length_seq. reflexivity.
  - intros i tbl m c Hi Hm.
    rewrite list_lookup_fmap in Hi.
    destruct (seq 0 (2 ^ n) !! i) as [j|] eqn:Hj; [|discriminate].
    apply lookup_seq in Hj as [-> _]. simpl in Hi. injection Hi as <-.
    unfold segment_table in Hm. rewrite lookup_foldl_table_accumulate in Hm.
    rewrite lookup_empty in Hm.
    destruct (decide (segment_of hash n m = i)) as [|Hne]; [assumption|].
    rewrite coefficients_of_nil in Hm; [discriminate|].
    intros t Ht. apply list_elem_of_filter in Ht as [Hseg _]. congruence.
Qed.

Lemma all_terms_segment_tables ss n (ts : list (Z * C)) m :
  all_terms (Polynomial ss n (map (segment_table hash n ts) (seq 0 (2 ^ n)))) !! m
  = nonzero_entry (coefficient_sum (coefficients_of m ts)).
Proof.
  rewrite (all_terms_lookup hash _ m (segment_tables_segmented ss n ts)).
  cbn [poly_segments poly_n_segments].
  rewrite list_lookup_fmap, lookup_seq_lt by apply segment_of_lt. simpl.
  unfold segment_table. rewrite lookup_foldl_table_accumulate, lookup_empty.
  rewrite coefficients_of_filter_segment. apply foldl_accumulate_entry_None.
Qed.

Variable select_n_segments : polynomial C -> polynomial C -> nat.

(** The parallel multiplier: the same table of product coefficients when
    every product is representable; otherwise the pre-check throws
    [overflow_error] and the destination stays as it was. *)
Lemma mul_mt_hm_result (f g h : polynomial C) tr :
  multiplication_ready T hash f g h ->
  (products_representable T (poly_symbol_set h) (terms f) (terms g) ->
   exists h', mul_mt_hm T hash select_n_segments f g tr h = (h', Ok tt) /\
     forall m, all_terms h' !! m
               = product_coefficient T (poly_symbol_set h) tr (terms f) (terms g) m) /\
  (~ products_representable T (poly_symbol_set h) (terms f) (terms g) ->
   mul_mt_hm T hash select_n_segments f g tr h = (h, Throw overflow_error)).
Proof.
  intros (Hf & Hg & Hh & Hempty & Hsf & Hsg).
  set (ss := poly_symbol_set h).
  assert (Hv : valid_arity T (Z.of_nat (length ss))) by apply Hh.
  assert (Hfs : forall t, t ∈ terms f -> valid_monomial T (Z.of_nat (length ss)) (fst t)).
  { intros t Ht. unfold ss. rewrite <- Hsf. apply terms_valid; auto. }
  assert (Hgs : forall t, t ∈ terms g -> valid_monomial T (Z.of_nat (length ss)) (fst t)).
  { intros t Ht. unfold ss. rewrite <- Hsg. apply terms_valid; auto. }
  destruct (unpack_all_spec _ (terms f) Hv Hfs) as (vf & Hvf & _).
  destruct (unpack_all_spec _ (terms g) Hv Hgs) as (vg & Hvg & _).
  pose proof (precheck_representable ss _ _ vf vg Hv Hfs Hgs Hvf Hvg) as Hpre.
  unfold mul_mt_hm. fold ss. rewrite Hvf, Hvg.
  split.
  - intros Hrep. rewrite (proj2 Hpre Hrep).
    set (n := if Nat.eqb (poly_n_segments h) 0 then select_n_segments f g
              else poly_n_segments h).
    set (fs := partition_by_segment hash n (terms f)).
    assert (Hperm : pairs fs (terms g) ≡ₚ pairs (terms f) (terms g)).
    { apply pairs_permutation, partition_by_segment_permutation. }
    assert (Hok : Forall (fun pr => exists o, multiply_terms T ss tr pr = Ok o)
                         (pairs fs (terms g))).
    { rewrite Hperm. apply (pairs_outcomes ss tr (terms f) (terms g) Hv Hfs Hgs), Hrep. }
    rewrite (join_all_map _ (segment_table hash n (contributions T ss tr fs (terms g)))).
    2:{ intros sigma _. apply worker_result. exact Hok. }
    eexists. split; [reflexivity|]. intros m.
    rewrite all_terms_segment_tables. unfold product_coefficient. f_equal.
    apply coefficient_sum_permutation, coefficients_of_permutation.
    unfold contributions. rewrite Hperm. reflexivity.
  - intros Hrep.
    destruct (overflow_precheck T (Z.of_nat (length ss)) vf vg) eqn:Epre; [|reflexivity].
    exfalso. apply Hrep, Hpre. reflexivity.
Qed.

End Multipliers.

(** * Checking the invariants by computation *)

#[export] Instance Z_coefficients_laws : CoefficientRingLaws Z.
Proof.
  split.
  - intros c. change (is_zero c) with (0 =? c). change (czero : Z) with 0.
    rewrite Z.eqb_eq. split; congruence.
  - intros a b c. apply Z.add_assoc.
  - intros a b. apply Z.add_comm.
  - intros a. apply Z.add_0_l.
Qed.

Lemma valid_arityb_correct T k : valid_arityb T k = true -> valid_arity T k.
Proof.
  unfold valid_arityb, valid_arity. destruct (is_signed T); intros Hb;
    apply andb_true_iff in Hb as [H1 H2]; lia.
Qed.

Lemma valid_monomialb_correct T k m : valid_monomialb T k m = true -> valid_monomial T k m.
Proof.
  unfold valid_monomialb, valid_monomial.
  destruct (unpack T m k) as [xs|]; [|discriminate].
  intros Hb. apply andb_true_iff in Hb as [Hb Hpack].
  apply andb_true_iff in Hb as [Hlen Hall].
  exists xs. split; [lia|]. split.
  - apply Forall_forall. intros x Hx. rewrite forallb_forall in Hall.
    specialize (Hall x ltac:(apply list_elem_of_In; exact Hx)).
    unfold in_slot_rangeb in Hall. apply andb_true_iff in Hall. unfold in_slot_range. lia.
  - destruct (pack T k xs) as [m'|]; [|discriminate].
    apply Z.eqb_eq in Hpack. congruence.
Qed.

Section Checks.

Context {C : Type} `{CoefficientRing C}.

Lemma polynomial_wfb_correct T hash (p : polynomial C) :
  polynomial_wfb T hash p = true -> polynomial_wf T hash p.
Proof.
  unfold polynomial_wfb. intros Hb.
  apply andb_true_iff in Hb as [Hb Hent]. apply andb_true_iff in Hb as [Hv Hlen].
  split.
  - apply valid_arityb_correct. exact Hv.
  - apply Nat.eqb_eq. exact Hlen.
  - intros i tbl m c Hi Hm.
    rewrite forallb_lookup in Hent.
    specialize (Hent i). rewrite list_lookup_imap, Hi in Hent.
    specialize (Hent _ eq_refl). rewrite forallb_forall in Hent.
    specialize (Hent (m, c)
                  ltac:(apply list_elem_of_In, elem_of_map_to_list; exact Hm)).
    cbn [fst snd] in Hent.
    apply andb_true_iff in Hent as [Hent Hz]. apply andb_true_iff in Hent as [Hseg Hval].
    split; [apply Nat.eqb_eq; exact Hseg|].
    split; [apply valid_monomialb_correct; exact Hval|].
    destruct (is_zero c); [discriminate | reflexivity].
Qed.

Lemma polynomial_emptyb_correct (p : polynomial C) :
  polynomial_emptyb p = true -> polynomial_empty p.
Proof.
  unfold polynomial_emptyb, polynomial_empty. intros Hb.
  apply Forall_forall. intros tbl Htbl. rewrite forallb_forall in Hb.
  specialize (Hb tbl ltac:(apply list_elem_of_In; exact Htbl)).
  destruct (map_to_list tbl) eqn:E; [|discriminate].
  apply map_to_list_empty_iff. exact E.
Qed.

Lemma multiplication_readyb_correct T hash (f g h : polynomial C) :
  multiplication_readyb T hash f g h = true -> multiplication_ready T hash f g h.
Proof.
  unfold multiplication_readyb, multiplication_ready. intros Hb.
  rewrite !andb_true_iff in Hb.
  destruct Hb as (((((H1 & H2) & H3) & H4) & H5) & H6).
  apply bool_decide_eq_true_1 in H5, H6.
  auto 10 using polynomial_wfb_correct, polynomial_emptyb_correct.
Qed.

End Checks.

(** * Truncation *)



Lemma omap_none {A B} (f : A -> option B) (l : list A) :
  (forall a, a ∈ l -> f a = None) -> omap f l = [].
Proof.
  induction l as [|a l IH]; intros Hf; [reflexivity|].
  cbn [omap list_omap]. rewrite (Hf a) by left.
  apply IH. intros b Hb. apply Hf. right. exact Hb.
Qed.

Lemma sum_nth_nonnegative (v : list Z) (idx : list nat) :
  Forall (fun x => 0 <= x) v -> 0 <= foldr Z.add 0 (map (fun i => nth i v 0) idx).
Proof.
  intros Hv. induction idx as [|i idx IH]; simpl; [lia|].
  assert (0 <= nth i v 0); [|lia].
  destruct (Nat.lt_ge_cases i (length v)) as [Hi|Hi].
  - rewrite Forall_forall in Hv. apply Hv. apply list_elem_of_In, nth_In. exact Hi.
  - rewrite nth_overflow by exact Hi. lia.
Qed.

Section Truncation.

Context {C : Type} `{CoefficientRingLaws C}.
Variable T : int_type.
Hypothesis T_digits : 1 <= limits_digits T.






(** With exponents that are not negative and a negative bound, no pair
    contributes. *)
Lemma contribution_negative_bound ss tr d (tf tg : Z * C) :
  valid_arity T (Z.of_nat (length ss)) ->
  valid_monomial T (Z.of_nat (length ss)) (fst tf) ->
  valid_monomial T (Z.of_nat (length ss)) (fst tg) ->
  (exists v, unpack T (fst tf) (Z.of_nat (length ss)) = Ok v /\ Forall (fun x => 0 <= x) v) ->
  (exists v, unpack T (fst tg) (Z.of_nat (length ss)) = Ok v /\ Forall (fun x => 0 <= x) v) ->
  d < 0 ->
  (tr = truncate_degree d \/ exists sub, tr = truncate_p_degree d sub) ->
  contribution T ss tr (tf, tg) = None.
Proof.
  intros Hv Hf Hg (vf & Hvf & Hnf) (vg & Hvg & Hng) Hd Htr.
  destruct (monomial_multiply_valid T T_digits _ _ _ Hv Hf Hg)
    as (va & vb & Hua & Hub & _ & _ & _ & _ & [(_ & m & Hm & _ & Hum)|(_ & Hthrow)]).
  - rewrite Hvf in Hua. injection Hua as <-. rewrite Hvg in Hub. injection Hub as <-.
    assert (Hnn : Forall (fun x => 0 <= x) (zip_with Z.add vf vg)).
    { apply (Forall_zip_with_add (fun x => 0 <= x) (fun x => 0 <= x)); auto. intros; lia. }
    unfold contribution, multiply_terms. cbn [fst snd]. rewrite Hm. cbn [rbind].
    assert (Hpd : forall idx,
               rbind (partial_degree T (Z.of_nat (length ss)) m idx)
                     (fun pd => Ok (pd <=? d)) = Ok false).
    { intros idx. unfold partial_degree. rewrite Hum. cbn [rbind].
      pose proof (sum_nth_nonnegative (zip_with Z.add vf vg) idx Hnn).
      destruct (Z.leb_spec (foldr Z.add 0 (map (fun i => nth i (zip_with Z.add vf vg) 0) idx)) d);
        [lia | reflexivity]. }
    destruct Htr as [-> | [sub ->]]; unfold retained; rewrite Hpd; reflexivity.
  - unfold contribution, multiply_terms. cbn [fst snd]. rewrite Hthrow. reflexivity.
Qed.

Variable hash : Z -> nat.

Lemma products_representable_dec (f g h : polynomial C) :
  multiplication_ready T hash f g h ->
  products_representable T (poly_symbol_set h) (terms f) (terms g) \/
  ~ products_representable T (poly_symbol_set h) (terms f) (terms g).
Proof.
  intros (Hf & Hg & Hh & Hempty & Hsf & Hsg).
  set (ss := poly_symbol_set h).
  assert (Hv : valid_arity T (Z.of_nat (length ss))) by apply Hh.
  assert (Hfs : forall t, t ∈ terms f -> valid_monomial T (Z.of_nat (length ss)) (fst t)).
  { intros t Ht. unfold ss. rewrite <- Hsf. apply (terms_valid T hash); auto. }
  assert (Hgs : forall t, t ∈ terms g -> valid_monomial T (Z.of_nat (length ss)) (fst t)).
  { intros t Ht. unfold ss. rewrite <- Hsg. apply (terms_valid T hash); auto. }
  destruct (unpack_all_spec T T_digits _ (terms f) Hv Hfs) as (vf & Hvf & _).
  destruct (unpack_all_spec T T_digits _ (terms g) Hv Hgs) as (vg & Hvg & _).
  pose proof (precheck_representable T T_digits ss _ _ vf vg Hv Hfs Hgs Hvf Hvg) as Hpre.
  destruct (overflow_precheck T (Z.of_nat (length ss)) vf vg).
  - left. apply Hpre. reflexivity.
  - right. intros Hrep. apply Hpre in Hrep. discriminate.
Qed.

End Truncation.

Lemma nonnegative_exponentsb_correct {C : Type} T (p : polynomial C) :
  nonnegative_exponentsb T p = true -> nonnegative_exponents T p.
Proof.
  unfold nonnegative_exponentsb, nonnegative_exponents. intros Hb t Ht.
  rewrite forallb_forall in Hb. specialize (Hb t ltac:(apply list_elem_of_In; exact Ht)).
  destruct (unpack T (fst t) _) as [v|]; [|discriminate].
  exists v. split; [reflexivity|]. apply Forall_forall. intros x Hx.
  rewrite forallb_forall in Hb. specialize (Hb x ltac:(apply list_elem_of_In; exact Hx)).
  lia.
Qed.

(** * Claims on the multipliers *)

Section MultiplierClaims.

Context {C : Type} `{CoefficientRingLaws C}.
Variable T : int_type.
Hypothesis T_digits : 1 <= limits_digits T.
Variable hash : Z -> nat.
Variable select_n_segments : polynomial C -> polynomial C -> nat.

(** The terms and the outcome of both multipliers. *)
Lemma multipliers_terms (f g h : polynomial C) tr :
  multiplication_ready T hash f g h ->
  (products_representable T (poly_symbol_set h) (terms f) (terms g) /\
   snd (mul_simple T hash f g tr h) = Ok tt /\
   snd (mul_mt_hm T hash select_n_segments f g tr h) = Ok tt /\
   forall m,
     all_terms (fst (mul_simple T hash f g tr h)) !! m
     = product_coefficient T (poly_symbol_set h) tr (terms f) (terms g) m /\
     all_terms (fst (mul_mt_hm T hash select_n_segments f g tr h)) !! m
     = product_coefficient T (poly_symbol_set h) tr (terms f) (terms g) m)
  \/ (~ products_representable T (poly_symbol_set h) (terms f) (terms g) /\
      snd (mul_simple T hash f g tr h) = Throw overflow_error /\
      snd (mul_mt_hm T hash select_n_segments f g tr h) = Throw overflow_error /\
      all_terms (fst (mul_simple T hash f g tr h)) = ∅ /\
      all_terms (fst (mul_mt_hm T hash select_n_segments f g tr h)) = ∅).
Proof.
  intros Hready.
  destruct (mul_simple_result T T_digits hash f g h tr Hready) as [Hs_ok Hs_no].
  destruct (mul_mt_hm_result T T_digits hash select_n_segments f g h tr Hready)
    as [Hm_ok Hm_no].
  destruct (products_representable_dec T T_digits hash f g h Hready) as [Hrep|Hrep].
  - left. destruct (Hs_ok Hrep) as (hs & -> & Hsl). destruct (Hm_ok Hrep) as (hm & -> & Hml).
    cbn [fst snd]. auto.
  - right. destruct (Hs_no Hrep) as (hs & -> & Hse). rewrite (Hm_no Hrep).
    cbn [fst snd]. repeat (split; [assumption || reflexivity|]).
    apply all_terms_empty. apply Hready.
Qed.

End MultiplierClaims.

(** C1. For polynomials over one symbol set and any truncation (none, a
    bound on the degree, a bound on the partial degree over a subset), the
    simple multiplier and the parallel segmented multiplier end alike (both
    return normally or both throw the same exception) and leave equal sets
    of terms in the destination. *)
Theorem multipliers_agree {C : Type} `{CoefficientRingLaws C}
    (T : int_type) (hash : Z -> nat)
    (select_n_segments : polynomial C -> polynomial C -> nat)
    (f g h : polynomial C) (tr : truncation) :
  is_bit_packable T = true ->
  multiplication_ready T hash f g h ->
  snd (mul_simple T hash f g tr h) = snd (mul_mt_hm T hash select_n_segments f g tr h) /\
  all_terms (fst (mul_simple T hash f g tr h))
  = all_terms (fst (mul_mt_hm T hash select_n_segments f g tr h)).
Proof.
  intros HT Hready. apply is_bit_packable_digits in HT.
  destruct (multipliers_terms T HT hash select_n_segments f g h tr Hready)
    as [(_ & -> & -> & Hm)|(_ & -> & -> & -> & ->)]; [|auto].
  split; [reflexivity|]. apply map_eq. intros m.
  destruct (Hm m) as [-> ->]. reflexivity.
Qed.

Lemma multipliers_agree_witness :
  snd (mul_simple t_long_long example_hash example_f example_g
         (truncate_p_degree 0 ["x"%string]) example_h)
  = snd (mul_mt_hm t_long_long example_hash example_select example_f example_g
           (truncate_p_degree 0 ["x"%string]) example_h) /\
  all_terms (fst (mul_simple t_long_long example_hash example_f example_g
                    (truncate_p_degree 0 ["x"%string]) example_h))
  = all_terms (fst (mul_mt_hm t_long_long example_hash example_select example_f example_g
                      (truncate_p_degree 0 ["x"%string]) example_h)).
Proof.
  apply (multipliers_agree t_long_long example_hash example_select
           example_f example_g example_h (truncate_p_degree 0 ["x"%string])).
  - reflexivity.
  - apply multiplication_readyb_correct. vm_compute. reflexivity.
Defined.



(** C3, as stated, fails for Laurent polynomials: the product of [1/x] and
    [1], truncated at partial degree [-1] over [x], keeps the term [1/x],
    whose partial degree is [-1]; both multipliers return it. *)
Lemma negative_bound_counterexample :
  multiplication_ready t_long_long example_hash example_x_inv example_one example_h /\
  -1 < 0 /\
  all_terms (fst (mul_simple t_long_long example_hash example_x_inv example_one
                    (truncate_p_degree (-1) ["x"%string]) example_h)) <> ∅ /\
  all_terms (fst (mul_mt_hm t_long_long example_hash example_select example_x_inv
                    example_one (truncate_p_degree (-1) ["x"%string]) example_h)) <> ∅.
Proof.
  split; [apply multiplication_readyb_correct; vm_compute; reflexivity|].
  split; [lia|].
  split; intros Heq;
    apply (f_equal (fun tbl : gmap Z Z => tbl !! example_monomial [-1; 0; 0])) in Heq;
    vm_compute in Heq; discriminate.
Qed.

(** C3, amended. For polynomials without negative exponents (so for every
    polynomial with unsigned exponents), a truncated multiplication with a
    negative bound, on the degree or on the partial degree over any subset,
    leaves the destination empty; this for both multipliers. *)
Theorem negative_bound_empty_product {C : Type} `{CoefficientRingLaws C}
    (T : int_type) (hash : Z -> nat)
    (select_n_segments : polynomial C -> polynomial C -> nat)
    (f g h : polynomial C) (d : Z) (tr : truncation) :
  is_bit_packable T = true ->
  multiplication_ready T hash f g h ->
  nonnegative_exponents T f -> nonnegative_exponents T g ->
  d < 0 ->
  (tr = truncate_degree d \/ exists sub, tr = truncate_p_degree d sub) ->
  all_terms (fst (mul_simple T hash f g tr h)) = ∅ /\
  all_terms (fst (mul_mt_hm T hash select_n_segments f g tr h)) = ∅.
Proof.
  intros HT Hready Hnf Hng Hd Htr. apply is_bit_packable_digits in HT.
  destruct (multipliers_terms T HT hash select_n_segments f g h tr Hready)
    as [(_ & _ & _ & Hm)|(_ & _ & _ & -> & ->)]; [|auto].
  assert (Hnone : forall m,
             product_coefficient T (poly_symbol_set h) tr (terms f) (terms g) m = None).
  { intros m. unfold product_coefficient, contributions.
    rewrite omap_none; [apply nonzero_entry_zero|].
    intros [tf tg] Hin. apply elem_of_pairs in Hin as [Hf Hg]. cbn [fst snd] in Hf, Hg.
    destruct Hready as (Hwf & Hwg & Hwh & _ & Hsf & Hsg).
    apply (contribution_negative_bound T HT _ tr d); auto.
    - apply Hwh.
    - rewrite <- Hsf. apply (terms_valid T hash); auto.
    - rewrite <- Hsg. apply (terms_valid T hash); auto.
    - rewrite <- Hsf. apply Hnf. exact Hf.
    - rewrite <- Hsg. apply Hng. exact Hg. }
  split; apply map_eq; intros m; destruct (Hm m) as [Hs Hp];
    rewrite ?Hs, ?Hp, Hnone, lookup_empty; reflexivity.
Qed.

Lemma negative_bound_empty_product_witness :
  all_terms (fst (mul_simple t_long_long example_hash example_f example_g
                    (truncate_p_degree (-1) ["x"%string]) example_h)) = ∅ /\
  all_terms (fst (mul_mt_hm t_long_long example_hash example_select example_f example_g
                    (truncate_p_degree (-1) ["x"%string]) example_h)) = ∅.
Proof.
  apply (negative_bound_empty_product t_long_long example_hash example_select
           example_f example_g example_h (-1) (truncate_p_degree (-1) ["x"%string])).
  - reflexivity.
  - apply multiplication_readyb_correct. vm_compute. reflexivity.
  - apply nonnegative_exponentsb_correct. vm_compute. reflexivity.
  - apply nonnegative_exponentsb_correct. vm_compute. reflexivity.
  - lia.
  - right. exists ["x"%string]. reflexivity.
Defined.

(** * Merging symbols *)

Lemma length_merge_exponents ins_map (v1 : list Z) : forall i (v2 : list Z),
  length v1 = length v2 ->
  length (merge_exponents ins_map i v1) = length (merge_exponents ins_map i v2).
Proof.
  induction v1 as [|x v1 IH]; intros i [|y v2] Hlen; try discriminate; [reflexivity|].
  cbn [merge_exponents]. rewrite !length_app. cbn [length].
  rewrite (IH (S i) v2) by (simpl in Hlen; lia). reflexivity.
Qed.

(** The old exponents can be read off the merged vector. *)
Lemma merge_exponents_inj ins_map (v1 : list Z) : forall i (v2 : list Z),
  length v1 = length v2 ->
  merge_exponents ins_map i v1 = merge_exponents ins_map i v2 -> v1 = v2.
Proof.
  induction v1 as [|x v1 IH]; intros i [|y v2] Hlen Heq; try discriminate; [reflexivity|].
  cbn [merge_exponents] in Heq. apply app_inv_head in Heq. injection Heq as -> Heq.
  f_equal. apply (IH (S i)); [simpl in Hlen; lia | exact Heq].
Qed.

Lemma merge_exponents_zeros ins_map n : forall i,
  exists n', merge_exponents ins_map i (replicate n 0) = replicate n' 0.
Proof.
  induction n as [|n IH]; intros i; cbn [replicate merge_exponents]; [eauto|].
  destruct (IH (S i)) as [n' ->].
  exists (length (default [] (ins_map !! i)) + S n')%nat.
  rewrite replicate_add. reflexivity.
Qed.

Lemma Forall_merge_exponents (P : Z -> Prop) ins_map (v : list Z) : forall i,
  P 0 -> Forall P v -> Forall P (merge_exponents ins_map i v).
Proof.
  induction v as [|x v IH]; intros i H0 Hv; cbn [merge_exponents].
  - apply Forall_replicate. exact H0.
  - apply Forall_cons in Hv as [Hx Hv]. apply Forall_app. split.
    + apply Forall_replicate. exact H0.
    + constructor; auto.
Qed.

Section Merge.

Variable T : int_type.
Hypothesis T_digits : 1 <= limits_digits T.

(** A packing that succeeds was given a valid size and values of the slot
    range. *)
Lemma pack_ok_inv k xs n :
  pack T k xs = Ok n -> Z.of_nat (length xs) = k ->
  Forall (fun x => is_signed T = false -> 0 <= x) xs ->
  valid_arity T k /\ Forall (in_slot_range T k) xs.
Proof.
  intros Hpack Hlen Hnn.
  assert (Hv : valid_arity T k).
  { unfold pack, run in Hpack.
    destruct (bit_packer.ctor T k) as [bp|e] eqn:Hctor; [|discriminate].
    unfold valid_arity, nbits. unfold bit_packer.ctor in Hctor.
    destruct (is_signed T).
    - unfold signed_bit_packer_impl.ctor in Hctor.
      destruct (Z.leb_spec (limits_digits T + 1) k); [discriminate|lia].
    - unfold unsigned_bit_packer_impl.ctor in Hctor.
      destruct (Z.ltb_spec (limits_digits T) k); [discriminate|lia]. }
  split; [exact Hv|].
  destruct (Forall_or_first _ (in_slot_range_dec T k) xs)
    as [Hin|(pre & x & post & -> & Hpre & Hx)]; [exact Hin|].
  exfalso. apply Forall_app in Hnn as [_ Hnn]. apply Forall_cons in Hnn as [Hx0 _].
  rewrite length_app in Hlen. simpl length in Hlen.
  rewrite (pack_overflow T T_digits k pre x post) in Hpack; auto; [discriminate|lia].
Qed.

Lemma in_slot_range_zero k : valid_arity T k -> 1 <= k -> in_slot_range T k 0.
Proof.
  intros Hv Hk. destruct (slot_facts T T_digits k Hv Hk) as (Hp1 & _ & Hw).
  pose proof (pow2_pos (slot_bits T k - 1) ltac:(lia)) as Hpos.
  pose proof (pow2_double (slot_bits T k) ltac:(lia)) as Hd.
  unfold in_slot_range. destruct (is_signed T) eqn:Hs.
  - unfold valid_arity in Hv. rewrite Hs, nbits_signed in Hv by auto.
    rewrite signed_slot_min, signed_slot_max by (auto; lia). lia.
  - rewrite unsigned_slot_min, unsigned_slot_max by auto. lia.
Qed.

(** The packed word of zero exponents is zero. *)
Lemma pack_zeros (n : nat) :
  valid_arity T (Z.of_nat n) -> pack T (Z.of_nat n) (replicate n 0) = Ok 0.
Proof.
  intros Hv. destruct n as [|n]; [apply pack_zero; auto|].
  rewrite pack_value; auto; try lia.
  - rewrite packed_value_replicate. reflexivity.
  - rewrite length_replicate. reflexivity.
  - apply Forall_replicate. apply in_slot_range_zero; [exact Hv|lia].
Qed.

Lemma nonnegative_if_unsigned k (v : list Z) :
  Forall (in_slot_range T k) v -> Forall (fun x => is_signed T = false -> 0 <= x) v.
Proof.
  intros Hv. eapply Forall_impl; [exact Hv|]. intros x Hx Hs.
  unfold in_slot_range in Hx. rewrite unsigned_slot_min in Hx by auto. lia.
Qed.

(** Two valid monomials with the same merged image are equal. *)
Lemma packed_monomial_merge_inj ins_map ss m1 m2 m' :
  valid_monomial T (Z.of_nat (length ss)) m1 ->
  valid_monomial T (Z.of_nat (length ss)) m2 ->
  packed_monomial_merge_symbols T m1 ins_map ss = Ok m' ->
  packed_monomial_merge_symbols T m2 ins_map ss = Ok m' ->
  m1 = m2.
Proof.
  intros Hm1 Hm2 H1 H2.
  assert (Hv : valid_arity T (Z.of_nat (length ss))).
  { destruct Hm1 as (xs & Hlen & Hxs & Hpack).
    apply (pack_ok_inv _ xs m1); auto. eapply nonnegative_if_unsigned; eauto. }
  destruct (valid_monomial_unpack T T_digits _ m1 Hv Hm1) as (v1 & Hu1 & Hl1 & Hr1 & Hp1).
  destruct (valid_monomial_unpack T T_digits _ m2 Hv Hm2) as (v2 & Hu2 & Hl2 & Hr2 & Hp2).
  unfold packed_monomial_merge_symbols in H1, H2.
  rewrite Hu1 in H1. rewrite Hu2 in H2. cbn [rbind] in H1, H2.
  assert (Hlen : length v1 = length v2) by lia.
  rewrite <- (length_merge_exponents ins_map v1 0 v2 Hlen) in H2.
  set (k' := Z.of_nat (length (merge_exponents ins_map 0 v1))) in *.
  assert (Hnn : forall v, Forall (in_slot_range T (Z.of_nat (length ss))) v ->
                  Forall (fun x => is_signed T = false -> 0 <= x)
                         (merge_exponents ins_map 0 v)).
  { intros v Hr. apply Forall_merge_exponents; [lia|].
    eapply nonnegative_if_unsigned; eauto. }
  destruct (pack_ok_inv k' _ m' H1 eq_refl (Hnn v1 Hr1)) as [Hv' Hin1].
  destruct (pack_ok_inv k' _ m' H2
              ltac:(unfold k'; rewrite (length_merge_exponents ins_map v1 0 v2 Hlen);
                    reflexivity) (Hnn v2 Hr2)) as [_ Hin2].
  destruct (pack_then_unpack T T_digits k' _ Hv' eq_refl Hin1) as (n1 & Hn1 & Hun1).
  destruct (pack_then_unpack T T_digits k' (merge_exponents ins_map 0 v2) Hv'
              ltac:(unfold k'; rewrite (length_merge_exponents ins_map v1 0 v2 Hlen);
                    reflexivity) Hin2) as (n2 & Hn2 & Hun2).
  rewrite H1 in Hn1. injection Hn1 as <-. rewrite H2 in Hn2. injection Hn2 as <-.
  rewrite Hun1 in Hun2. injection Hun2 as Hmerge.
  apply merge_exponents_inj in Hmerge; [|exact Hlen]. subst v2.
  rewrite Hp1 in Hp2. injection Hp2 as ->. reflexivity.
Qed.

(** Where some valid monomial can be merged, the zero word is merged into
    the zero word. *)
Lemma packed_monomial_merge_zero ins_map ss m m' :
  valid_monomial T (Z.of_nat (length ss)) m ->
  packed_monomial_merge_symbols T m ins_map ss = Ok m' ->
  valid_monomial T (Z.of_nat (length ss)) 0 /\
  packed_monomial_merge_symbols T 0 ins_map ss = Ok 0.
Proof.
  intros Hm Hmerge.
  assert (Hv : valid_arity T (Z.of_nat (length ss))).
  { destruct Hm as (xs & Hlen & Hxs & Hpack).
    apply (pack_ok_inv _ xs m); auto. eapply nonnegative_if_unsigned; eauto. }
  destruct (valid_monomial_unpack T T_digits _ m Hv Hm) as (v & Hu & Hl & Hr & Hp).
  unfold packed_monomial_merge_symbols in Hmerge. rewrite Hu in Hmerge.
  cbn [rbind] in Hmerge.
  destruct (pack_ok_inv _ _ m' Hmerge eq_refl) as [Hv' _].
  { apply Forall_merge_exponents; [lia|]. eapply nonnegative_if_unsigned; eauto. }
  assert (Hzero : valid_monomial T (Z.of_nat (length ss)) 0).
  { exists (replicate (length ss) 0). split; [rewrite length_replicate; reflexivity|].
    split; [|apply pack_zeros; exact Hv].
    destruct (length ss) eqn:E; [constructor|].
    apply Forall_replicate. apply in_slot_range_zero; [exact Hv | lia]. }
  split; [exact Hzero|].
  destruct (valid_monomial_unpack T T_digits _ 0 Hv Hzero) as (v0 & Hu0 & Hl0 & Hr0 & Hp0).
  assert (v0 = replicate (length ss) 0) as ->.
  { destruct (pack_then_unpack T T_digits (Z.of_nat (length ss)) (replicate (length ss) 0) Hv)
      as (n & Hn & Hun).
    - rewrite length_replicate. reflexivity.
    - destruct (length ss) eqn:E; [constructor|].
      apply Forall_replicate. apply in_slot_range_zero; [exact Hv | lia].
    - rewrite pack_zeros in Hn by exact Hv. injection Hn as <-. congruence. }
  unfold packed_monomial_merge_symbols. rewrite Hu0. cbn [rbind].
  assert (Hlen : length (replicate (length ss) 0) = length v)
    by (rewrite length_replicate; lia).
  rewrite (length_merge_exponents ins_map _ 0 v Hlen).
  destruct (merge_exponents_zeros ins_map (length ss) 0) as [n' Hz].
  rewrite Hz.
  assert (Hn' : n' = length (merge_exponents ins_map 0 v)).
  { rewrite <- (length_merge_exponents ins_map _ 0 v Hlen), Hz, length_replicate.
    reflexivity. }
  rewrite <- Hn' in Hv' |- *. apply pack_zeros. exact Hv'.
Qed.

End Merge.

(** C9, as stated for every symbols-mergeable key, fails: the dispatcher
    returns what the function of the key type returns, and being a
    symbols-mergeable key only asks that such a function exists and returns
    the key type. For the key type whose override maps every key to the zero
    key, the different keys [1] and [2] have the same merged key, and the
    key [1], which is not zero, has a merged key that is zero. *)
Lemma key_merge_symbols_counterexample :
  is_symbols_mergeable_key collapsing_key_hooks = true /\
  1 <> 2 /\
  key_merge_symbols collapsing_key_hooks 1 {[ 1%nat := ["y"%string] ]}
    ["x"%string; "z"%string] = Some (Ok 0) /\
  key_merge_symbols collapsing_key_hooks 2 {[ 1%nat := ["y"%string] ]}
    ["x"%string; "z"%string] = Some (Ok 0) /\
  (1 =? 0) = false /\ (0 =? 0) = true.
Proof.
  split; [reflexivity|]. split; [lia|]. repeat split; reflexivity.
Qed.

(** C9, amended. For packed monomials, a fixed insertion map and symbol
    set: two keys that compare different before the merge have different
    merged keys, and a key that is not zero before the merge is not zero
    after it (for any test for zero that only ever holds of the zero word,
    so both for "the word is zero" and for "a monomial is never zero"). The
    keys are valid monomials over [ss] and both merges return a key. *)
Theorem key_merge_symbols_preserves (T : int_type) (key_is_zero : Z -> bool)
    (ins_map : symbol_idx_map) (ss : symbol_set) (m1 m2 m1' m2' : Z) :
  is_bit_packable T = true ->
  (forall m, key_is_zero m = true -> m = 0) ->
  valid_monomial T (Z.of_nat (length ss)) m1 ->
  valid_monomial T (Z.of_nat (length ss)) m2 ->
  key_merge_symbols (packed_monomial_hooks T) m1 ins_map ss = Some (Ok m1') ->
  key_merge_symbols (packed_monomial_hooks T) m2 ins_map ss = Some (Ok m2') ->
  (m1 <> m2 -> m1' <> m2') /\
  (key_is_zero m1 = false -> key_is_zero m1' = false).
Proof.
  intros HT Hzero Hm1 Hm2 H1 H2. apply is_bit_packable_digits in HT.
  unfold key_merge_symbols, key_merge_symbols_impl, packed_monomial_hooks in H1, H2.
  cbn in H1, H2. injection H1 as H1. injection H2 as H2.
  split.
  - intros Hne Heq. subst m2'. apply Hne.
    eapply (packed_monomial_merge_inj T HT); eauto.
  - intros Hnz. destruct (key_is_zero m1') eqn:Hz'; [|reflexivity].
    pose proof (Hzero _ Hz') as Hm0. subst m1'.
    destruct (packed_monomial_merge_zero T HT ins_map ss m1 0 Hm1 H1) as [Hv0 H0].
    assert (m1 = 0) as -> by (eapply (packed_monomial_merge_inj T HT); eauto).
    congruence.
Qed.

Lemma key_merge_symbols_preserves_witness :
  (4294967297 <> 6442450945 -> 8796093022209 <> 13194139533313) /\
  ((4294967297 =? 0) = false -> (8796093022209 =? 0) = false).
Proof.
  apply (key_merge_symbols_preserves t_long_long (fun m => m =? 0)
           {[ 1%nat := ["y"%string] ]} ["x"%string; "z"%string]
           4294967297 6442450945 8796093022209 13194139533313).
  - reflexivity.
  - intros m Hm. apply Z.eqb_eq. exact Hm.
  - apply valid_monomialb_correct. vm_compute. reflexivity.
  - apply valid_monomialb_correct. vm_compute. reflexivity.
  - vm_compute. reflexivity.
  - vm_compute. reflexivity.
Defined.

(** * Further properties of the packer and the unpacker *)

(** ** Sizes, counts and the errors of exhaustion *)

Lemma bit_packer_ctor_fields T k bp :
  bit_packer.ctor T k = Ok bp ->
  bit_packer.m_value bp = 0 /\ bit_packer.m_index bp = 0 /\
  bit_packer.m_size bp = k /\ bit_packer.m_cur_shift bp = 0.
Proof.
  unfold bit_packer.ctor. destruct (is_signed T).
  - unfold signed_bit_packer_impl.ctor.
    repeat match goal with |- context [if ?c then _ else _] => destruct c end;
      simpl; intros Heq; inversion Heq; simpl; auto.
  - unfold unsigned_bit_packer_impl.ctor.
    repeat match goal with |- context [if ?c then _ else _] => destruct c end;
      simpl; intros Heq; inversion Heq; simpl; auto.
Qed.

(** What one push does to the count and the size, and to the packer when
    it throws. *)
Lemma op_lshift_outcome T n bp bp' r :
  bit_packer.op_lshift T n bp = (bp', r) ->
  match r with
  | Ok _ => bit_packer.m_index bp <> bit_packer.m_size bp /\
            bit_packer.m_index bp' = bit_packer.m_index bp + 1 /\
            bit_packer.m_size bp' = bit_packer.m_size bp
  | Throw _ => bp' = bp
  end.
Proof.
  destruct bp as [i|i]; simpl.
  - unfold signed_bit_packer_impl.op_lshift.
    destruct (Z.eqb_spec (signed_bit_packer_impl.m_index i) (signed_bit_packer_impl.m_size i)).
    + intros [= <- <-]. reflexivity.
    + destruct (_ || _); intros [= <- <-]; simpl; auto.
  - unfold unsigned_bit_packer_impl.op_lshift.
    destruct (Z.eqb_spec (unsigned_bit_packer_impl.m_index i)
                (unsigned_bit_packer_impl.m_size i)).
    + intros [= <- <-]. reflexivity.
    + destruct (_ <? _); intros [= <- <-]; simpl; auto.
Qed.

Lemma push_all_ok_count T xs : forall bp bp',
  push_all T xs bp = (bp', Ok tt) ->
  bit_packer.m_index bp <= bit_packer.m_size bp ->
  bit_packer.m_index bp' = bit_packer.m_index bp + Z.of_nat (length xs) /\
  bit_packer.m_size bp' = bit_packer.m_size bp /\
  bit_packer.m_index bp' <= bit_packer.m_size bp'.
Proof.
  induction xs as [|x xs IH]; intros bp bp' Hpush Hle.
  - cbn in Hpush. injection Hpush as <-. simpl. lia.
  - cbn [push_all] in Hpush. unfold mbind in Hpush.
    destruct (bit_packer.op_lshift T x bp) as [bp1 [[]|e]] eqn:Hstep; [|discriminate].
    apply op_lshift_outcome in Hstep as (Hne & Hidx & Hsz).
    destruct (IH bp1 bp' Hpush ltac:(lia)) as (Hi & Hs & Hl).
    rewrite length_cons, Nat2Z.inj_succ. lia.
Qed.

(** X2. Once [size] values have been pushed, every further push, whatever
    the value, throws [out_of_range] and leaves the packer as it was; so no
    sequence of more than [size] pushes succeeds. *)
Theorem push_beyond_size_throws (T : int_type) (k : Z) (xs : list Z)
    (bp0 bp : bit_packer.t) :
  0 <= k ->
  bit_packer.ctor T k = Ok bp0 ->
  push_all T xs bp0 = (bp, Ok tt) ->
  Z.of_nat (length xs) <= k /\
  (Z.of_nat (length xs) = k ->
   forall n, bit_packer.op_lshift T n bp = (bp, Throw out_of_range)).
Proof.
  intros Hk Hctor Hpush.
  destruct (bit_packer_ctor_fields T k bp0 Hctor) as (_ & Hi0 & Hs0 & _).
  destruct (push_all_ok_count T xs bp0 bp Hpush ltac:(lia)) as (Hi & Hs & Hle).
  split; [lia|]. intros Hlen n.
  assert (Hfull : bit_packer.m_index bp = bit_packer.m_size bp) by lia.
  destruct bp as [i|i]; simpl in *.
  - unfold signed_bit_packer_impl.op_lshift. rewrite Hfull, Z.eqb_refl. reflexivity.
  - unfold unsigned_bit_packer_impl.op_lshift. rewrite Hfull, Z.eqb_refl. reflexivity.
Qed.

Lemma push_beyond_size_throws_witness :
  Z.of_nat (length [3; 4]) <= 2 /\
  (Z.of_nat (length [3; 4]) = 2 ->
   forall n, bit_packer.op_lshift t_unsigned n
               (bit_packer.of_unsigned (unsigned_bit_packer_impl.mk 262147 65535 2 2 16 32))
             = (bit_packer.of_unsigned (unsigned_bit_packer_impl.mk 262147 65535 2 2 16 32),
                Throw out_of_range)).
Proof.
  apply (push_beyond_size_throws t_unsigned 2 [3; 4]
           (bit_packer.of_unsigned (unsigned_bit_packer_impl.mk 0 65535 0 2 16 0))).
  - lia.
  - reflexivity.
  - reflexivity.
Defined.

(** X3. [get] throws [out_of_range] as long as fewer than [size] values
    have been pushed, and returns the accumulator once all have been; in
    both cases the packer is unchanged. *)
Theorem get_needs_all_values (T : int_type) (k : Z) (xs : list Z)
    (bp0 bp : bit_packer.t) :
  0 <= k ->
  bit_packer.ctor T k = Ok bp0 ->
  push_all T xs bp0 = (bp, Ok tt) ->
  (Z.of_nat (length xs) < k -> bit_packer.get bp = (bp, Throw out_of_range)) /\
  (Z.of_nat (length xs) = k -> bit_packer.get bp = (bp, Ok (bit_packer.m_value bp))).
Proof.
  intros Hk Hctor Hpush.
  destruct (bit_packer_ctor_fields T k bp0 Hctor) as (_ & Hi0 & Hs0 & _).
  destruct (push_all_ok_count T xs bp0 bp Hpush ltac:(lia)) as (Hi & Hs & Hle).
  split; intros Hlen; destruct bp as [i|i]; simpl in *.
  - unfold signed_bit_packer_impl.get.
    destruct (Z.ltb_spec (signed_bit_packer_impl.m_index i)
                (signed_bit_packer_impl.m_size i)); [reflexivity|lia].
  - unfold unsigned_bit_packer_impl.get.
    destruct (Z.ltb_spec (unsigned_bit_packer_impl.m_index i)
                (unsigned_bit_packer_impl.m_size i)); [reflexivity|lia].
  - unfold signed_bit_packer_impl.get.
    destruct (Z.ltb_spec (signed_bit_packer_impl.m_index i)
                (signed_bit_packer_impl.m_size i)); [lia|reflexivity].
  - unfold unsigned_bit_packer_impl.get.
    destruct (Z.ltb_spec (unsigned_bit_packer_impl.m_index i)
                (unsigned_bit_packer_impl.m_size i)); [lia|reflexivity].
Qed.

Lemma get_needs_all_values_witness :
  let bp := bit_packer.of_signed
              (signed_bit_packer_impl.mk 5 (-1048576) 1048575 1 3 21 21) in
  (Z.of_nat (length [5]) < 3 -> bit_packer.get bp = (bp, Throw out_of_range)) /\
  (Z.of_nat (length [5]) = 3 -> bit_packer.get bp = (bp, Ok (bit_packer.m_value bp))).
Proof.
  intros bp.
  apply (get_needs_all_values t_long_long 3 [5]
           (bit_packer.of_signed (signed_bit_packer_impl.mk 0 (-1048576) 1048575 0 3 21 0))
           bp).
  - lia.
  - reflexivity.
  - reflexivity.
Defined.

(** X1. The constructors accept exactly the sizes the width of [T] allows:
    a packer of an allowed size starts empty, with the value zero, and for
    any other size both the packer and the unpacker (whatever the word)
    throw [overflow_error]. *)
Theorem constructors_check_size (T : int_type) (k n : Z) :
  0 <= k ->
  (valid_arity T k ->
   exists bp, bit_packer.ctor T k = Ok bp /\ bit_packer.m_value bp = 0 /\
              bit_packer.m_index bp = 0 /\ bit_packer.m_size bp = k) /\
  (~ valid_arity T k ->
   bit_packer.ctor T k = Throw overflow_error /\
   bit_unpacker.ctor T n k = Throw overflow_error).
Proof.
  intros Hk. unfold valid_arity, nbits, bit_packer.ctor, bit_unpacker.ctor,
    signed_bit_packer_impl.ctor, unsigned_bit_packer_impl.ctor,
    signed_bit_unpacker_impl.ctor, unsigned_bit_unpacker_impl.ctor.
  destruct (is_signed T); split; intros Hv.
  - destruct (Z.leb_spec (limits_digits T + 1) k); [lia|].
    destruct (k =? 0); [|destruct (k =? 1)]; simpl; eexists; repeat split; reflexivity.
  - destruct (Z.leb_spec (limits_digits T + 1) k); [|lia]. split; reflexivity.
  - destruct (Z.ltb_spec (limits_digits T) k); [lia|].
    destruct (k =? 0); simpl; eexists; repeat split; reflexivity.
  - destruct (Z.ltb_spec (limits_digits T) k); [|lia]. split; reflexivity.
Qed.

Lemma constructors_check_size_witness :
  (valid_arity t_int 32 ->
   exists bp, bit_packer.ctor t_int 32 = Ok bp /\ bit_packer.m_value bp = 0 /\
              bit_packer.m_index bp = 0 /\ bit_packer.m_size bp = 32) /\
  (~ valid_arity t_int 32 ->
   bit_packer.ctor t_int 32 = Throw overflow_error /\
   bit_unpacker.ctor t_int 7 32 = Throw overflow_error).
Proof.
  apply (constructors_check_size t_int 32 7). lia.
Defined.

Lemma bit_unpacker_ctor_fields T n k bu :
  bit_unpacker.ctor T n k = Ok bu ->
  unpacker_index bu = 0 /\ unpacker_size bu = k.
Proof.
  unfold bit_unpacker.ctor. destruct (is_signed T).
  - unfold signed_bit_unpacker_impl.ctor.
    destruct (default (0, 0) (sbp_get_mmp T !! Z.to_nat (k - 1))) as [lo hi].
    repeat match goal with |- context [if ?c then _ else _] => destruct c end;
      simpl; intros Heq; inversion Heq; simpl; auto.
  - unfold unsigned_bit_unpacker_impl.ctor.
    repeat match goal with |- context [if ?c then _ else _] => destruct c end;
      simpl; intros Heq; inversion Heq; simpl; auto.
Qed.

(** What one pop does to the count and the size; the only error of a pop is
    [out_of_range], and it leaves the unpacker as it was. *)
Lemma op_rshift_outcome T bu :
  (unpacker_index bu = unpacker_size bu /\
   bit_unpacker.op_rshift T bu = (bu, Throw out_of_range)) \/
  (unpacker_index bu <> unpacker_size bu /\
   exists bu' x, bit_unpacker.op_rshift T bu = (bu', Ok x) /\
     unpacker_index bu' = unpacker_index bu + 1 /\
     unpacker_size bu' = unpacker_size bu).
Proof.
  destruct bu as [i|i]; simpl.
  - unfold signed_bit_unpacker_impl.op_rshift.
    destruct (Z.eqb_spec (signed_bit_unpacker_impl.m_index i)
                (signed_bit_unpacker_impl.m_size i)).
    + left. auto.
    + right. split; [assumption|]. eexists _, _. split; [reflexivity|]. simpl. auto.
  - unfold unsigned_bit_unpacker_impl.op_rshift.
    destruct (Z.eqb_spec (unsigned_bit_unpacker_impl.m_index i)
                (unsigned_bit_unpacker_impl.m_size i)).
    + left. auto.
    + right. split; [assumption|]. eexists _, _. split; [reflexivity|]. simpl. auto.
Qed.

Lemma pop_n_outcome T (j : nat) : forall bu,
  unpacker_index bu <= unpacker_size bu ->
  (Z.of_nat j <= unpacker_size bu - unpacker_index bu ->
   exists bu' xs, pop_n T j bu = (bu', Ok xs) /\ length xs = j /\
     unpacker_index bu' = unpacker_index bu + Z.of_nat j /\
     unpacker_size bu' = unpacker_size bu) /\
  (unpacker_size bu - unpacker_index bu < Z.of_nat j ->
   snd (pop_n T j bu) = Throw out_of_range).
Proof.
  induction j as [|j IH]; intros bu Hle.
  - split; [|lia]. intros _. exists bu, []. simpl. repeat split; lia.
  - cbn [pop_n]. unfold mbind.
    destruct (op_rshift_outcome T bu) as [[Heq Hthrow]|[Hne (bu1 & x & Hpop & Hi & Hs)]].
    + rewrite Hthrow. split; [lia|]. reflexivity.
    + rewrite Hpop. destruct (IH bu1 ltac:(lia)) as [IHok IHthrow]. split; intros Hj.
      * destruct (IHok ltac:(lia)) as (bu' & xs & Hrest & Hlen & Hi' & Hs').
        rewrite Hrest. exists bu', (x :: xs). simpl. repeat split; try lia.
      * specialize (IHthrow ltac:(lia)).
        destruct (pop_n T j bu1) as [bu2 [xs|e]]; simpl in *; congruence.
Qed.

(** X4. An unpacker of size [k] gives exactly [k] values: any [j <= k] pops
    succeed, after [k] pops a further one throws [out_of_range] and leaves
    the unpacker as it was, and asking for more than [k] values ends in
    [out_of_range]. *)
Theorem pop_beyond_size_throws (T : int_type) (n k : Z) (bu0 : bit_unpacker.t)
    (j : nat) :
  0 <= k ->
  bit_unpacker.ctor T n k = Ok bu0 ->
  (Z.of_nat j <= k ->
   exists bu xs, pop_n T j bu0 = (bu, Ok xs) /\ length xs = j /\
     (Z.of_nat j = k -> bit_unpacker.op_rshift T bu = (bu, Throw out_of_range))) /\
  (k < Z.of_nat j -> snd (pop_n T j bu0) = Throw out_of_range).
Proof.
  intros Hk Hctor.
  destruct (bit_unpacker_ctor_fields T n k bu0 Hctor) as (Hi0 & Hs0).
  destruct (pop_n_outcome T j bu0 ltac:(lia)) as [Hok Hthrow].
  split; intros Hj.
  - destruct (Hok ltac:(lia)) as (bu & xs & Hpop & Hlen & Hi & Hs).
    exists bu, xs. repeat split; try assumption. intros Hfull.
    destruct (op_rshift_outcome T bu) as [[_ Hr]|[Hne _]]; [assumption|lia].
  - apply Hthrow. lia.
Qed.

Lemma pop_beyond_size_throws_witness :
  let bu0 := bit_unpacker.of_unsigned
               (unsigned_bit_unpacker_impl.mk 262147 65535 0 2 16) in
  (Z.of_nat 2 <= 2 ->
   exists bu xs, pop_n t_unsigned 2 bu0 = (bu, Ok xs) /\ length xs = 2%nat /\
     (Z.of_nat 2 = 2 ->
      bit_unpacker.op_rshift t_unsigned bu = (bu, Throw out_of_range))) /\
  (2 < Z.of_nat 2 -> snd (pop_n t_unsigned 2 bu0) = Throw out_of_range).
Proof.
  intros bu0.
  apply (pop_beyond_size_throws t_unsigned 262147 2 bu0 2).
  - lia.
  - reflexivity.
Defined.

(** X5. Size zero: the empty vector packs to the word zero and any push
    throws [out_of_range]; the word zero unpacks to the empty vector, and
    an unpacker of size zero on any other word throws [invalid_argument]. *)
Theorem size_zero_behaviour (T : int_type) (n x : Z) (xs : list Z) :
  is_bit_packable T = true ->
  pack T 0 [] = Ok 0 /\
  pack T 0 (x :: xs) = Throw out_of_range /\
  unpack T 0 0 = Ok [] /\
  (n <> 0 -> bit_unpacker.ctor T n 0 = Throw invalid_argument).
Proof.
  intros HT. pose proof (is_bit_packable_digits T HT) as Hd.
  split; [apply pack_zero; assumption|].
  split; [|split; [apply unpack_zero; assumption|]].
  - unfold pack, bit_packer.ctor. destruct (is_signed T) eqn:Hs.
    + rewrite signed_packer_ctor_zero by assumption. reflexivity.
    + rewrite unsigned_packer_ctor_zero by assumption. reflexivity.
  - intros Hn. unfold bit_unpacker.ctor, signed_bit_unpacker_impl.ctor,
      unsigned_bit_unpacker_impl.ctor.
    destruct (is_signed T).
    + destruct (Z.leb_spec (limits_digits T + 1) 0); [lia|].
      simpl. destruct (Z.eqb_spec n 0); [contradiction|reflexivity].
    + destruct (Z.ltb_spec (limits_digits T) 0); [lia|].
      simpl. destruct (Z.eqb_spec n 0); [contradiction|reflexivity].
Qed.

Lemma size_zero_behaviour_witness :
  pack t_long 0 [] = Ok 0 /\
  pack t_long 0 (5 :: [6]) = Throw out_of_range /\
  unpack t_long 0 0 = Ok [] /\
  (1 <> 0 -> bit_unpacker.ctor t_long 1 0 = Throw invalid_argument).
Proof.
  apply (size_zero_behaviour t_long 1 5 [6]). reflexivity.
Defined.

(** ** The packed word as a function of the vector *)

Lemma packed_value_add p xs : forall ys,
  length xs = length ys ->
  packed_value p (zip_with Z.add xs ys) = packed_value p xs + packed_value p ys.
Proof.
  induction xs as [|x xs IH]; intros [|y ys] Hlen; simpl in *; try lia.
  rewrite IH by lia. lia.
Qed.

Section PackerFacts.

Variable T : int_type.
Hypothesis T_digits : 1 <= limits_digits T.

Lemma pack_value_any k xs :
  valid_arity T k -> Z.of_nat (length xs) = k -> Forall (in_slot_range T k) xs ->
  pack T k xs = Ok (packed_value (slot_bits T k) xs).
Proof.
  intros Hv Hlen Hxs. destruct (Z.eq_dec k 0) as [->|Hk0].
  - destruct xs; [|simpl in Hlen; lia]. apply pack_zero. assumption.
  - assert (0 <= k) by (unfold valid_arity in Hv; destruct (is_signed T); lia).
    apply pack_value; auto. lia.
Qed.

(** The words an unpacker of a valid size accepts. *)
Lemma unpack_accepts k n xs :
  valid_arity T k -> representable T n -> unpack T n k = Ok xs ->
  (k = 0 /\ n = 0 /\ xs = []) \/ (1 <= k /\ min_packed T k <= n <= max_packed T k).
Proof.
  intros Hv Hn Hun.
  assert (0 <= k) by (unfold valid_arity in Hv; destruct (is_signed T); lia).
  destruct (Z.eq_dec k 0) as [->|Hk0].
  - left. split; [reflexivity|]. destruct (Z.eq_dec n 0) as [->|Hn0].
    + rewrite unpack_zero in Hun by assumption. split; congruence.
    + exfalso. unfold unpack, bit_unpacker.ctor, signed_bit_unpacker_impl.ctor,
        unsigned_bit_unpacker_impl.ctor in Hun.
      destruct (is_signed T).
      * destruct (Z.leb_spec (limits_digits T + 1) 0); [lia|].
        simpl in Hun. destruct (Z.eqb_spec n 0); [contradiction|discriminate].
      * destruct (Z.ltb_spec (limits_digits T) 0); [lia|].
        simpl in Hun. destruct (Z.eqb_spec n 0); [contradiction|discriminate].
  - right. split; [lia|].
    destruct (bit_unpacker_ctor T T_digits k n Hv ltac:(lia) Hn) as (bu & Hctor).
    unfold unpack in Hun. rewrite Hctor in Hun.
    destruct (Z.ltb_spec n (min_packed T k)); [discriminate|].
    destruct (Z.ltb_spec (max_packed T k) n); [discriminate|]. lia.
Qed.

End PackerFacts.

(** X6. Packing is injective: two vectors of the slot range with the same
    packed word are the same vector. *)
Theorem packing_injective (T : int_type) (k : Z) (xs ys : list Z) (n : Z) :
  is_bit_packable T = true -> valid_arity T k ->
  Z.of_nat (length xs) = k -> Z.of_nat (length ys) = k ->
  Forall (in_slot_range T k) xs -> Forall (in_slot_range T k) ys ->
  pack T k xs = Ok n -> pack T k ys = Ok n -> xs = ys.
Proof.
  intros HT Hv Hlx Hly Hxs Hys Hpx Hpy.
  pose proof (is_bit_packable_digits T HT) as Hd.
  destruct (pack_then_unpack T Hd k xs Hv Hlx Hxs) as (nx & Hnx & Hux).
  destruct (pack_then_unpack T Hd k ys Hv Hly Hys) as (ny & Hny & Huy).
  assert (nx = n) by congruence. assert (ny = n) by congruence. subst nx ny.
  congruence.
Qed.

Lemma packing_injective_witness : [1; -2; 3] = [1; -2; 3].
Proof.
  apply (packing_injective t_int 3 [1; -2; 3] [1; -2; 3] 3143681).
  - reflexivity.
  - vm_compute. split; [discriminate | first [reflexivity | discriminate]].
  - reflexivity.
  - reflexivity.
  - repeat constructor; vm_compute; discriminate.
  - repeat constructor; vm_compute; discriminate.
  - vm_compute. reflexivity.
  - vm_compute. reflexivity.
Defined.

(** X7. Unpacking is injective: two words of [T] that unpack, for the same
    size, to the same vector are the same word. *)
Theorem unpacked_vector_determines_word (T : int_type) (k n1 n2 : Z) (xs : list Z) :
  is_bit_packable T = true -> valid_arity T k ->
  representable T n1 -> representable T n2 ->
  unpack T n1 k = Ok xs -> unpack T n2 k = Ok xs -> n1 = n2.
Proof.
  intros HT Hv Hn1 Hn2 Hu1 Hu2.
  pose proof (is_bit_packable_digits T HT) as Hd.
  destruct (unpack_accepts T Hd k n1 xs Hv Hn1 Hu1) as [(Hk0 & Hz1 & _)|(Hk & Hb1)];
    destruct (unpack_accepts T Hd k n2 xs Hv Hn2 Hu2) as [(Hk0' & Hz2 & _)|(Hk' & Hb2)];
    try lia.
  destruct (pack_unpack T Hd k n1 Hv Hk Hb1) as (xs1 & Hx1 & _ & _ & Hp1).
  destruct (pack_unpack T Hd k n2 Hv Hk Hb2) as (xs2 & Hx2 & _ & _ & Hp2).
  assert (xs1 = xs) by congruence. assert (xs2 = xs) by congruence. subst xs1 xs2.
  congruence.
Qed.

Lemma unpacked_vector_determines_word_witness : 3143681 = 3143681.
Proof.
  apply (unpacked_vector_determines_word t_int 3 3143681 3143681 [1; -2; 3]).
  - reflexivity.
  - vm_compute. split; [discriminate | first [reflexivity | discriminate]].
  - vm_compute. split; discriminate.
  - vm_compute. split; discriminate.
  - vm_compute. reflexivity.
  - vm_compute. reflexivity.
Defined.

(** X8. The layout of the packed word: the value pushed as number [i]
    (from zero) enters with the weight [2 ^ (pbits * i)], so the word is the
    sum of the values times the powers of [2 ^ pbits]; it is a value of [T]
    between the packed words of the smallest and of the largest vector. *)
Theorem packed_word_layout (T : int_type) (k : Z) (xs : list Z) :
  is_bit_packable T = true -> valid_arity T k -> 1 <= k ->
  Z.of_nat (length xs) = k -> Forall (in_slot_range T k) xs ->
  pack T k xs = Ok (packed_value (slot_bits T k) xs) /\
  min_packed T k <= packed_value (slot_bits T k) xs <= max_packed T k /\
  representable T (packed_value (slot_bits T k) xs).
Proof.
  intros HT Hv Hk Hlen Hxs. pose proof (is_bit_packable_digits T HT) as Hd.
  pose proof (packed_value_between T Hd k xs Hv Hk Hlen Hxs) as Hb.
  pose proof (packed_bounds_representable T Hd k Hv Hk) as Hr.
  split; [apply pack_value; assumption|]. split; [assumption|].
  unfold representable. lia.
Qed.

Lemma packed_word_layout_witness :
  pack t_unsigned 2 [3; 4] = Ok (packed_value (slot_bits t_unsigned 2) [3; 4]) /\
  min_packed t_unsigned 2 <= packed_value (slot_bits t_unsigned 2) [3; 4]
    <= max_packed t_unsigned 2 /\
  representable t_unsigned (packed_value (slot_bits t_unsigned 2) [3; 4]).
Proof.
  apply (packed_word_layout t_unsigned 2 [3; 4]).
  - reflexivity.
  - vm_compute. split; [discriminate | first [reflexivity | discriminate]].
  - lia.
  - reflexivity.
  - repeat constructor; vm_compute; discriminate.
Defined.

(** X9. Packing is additive: when two vectors and their slot-wise sum are
    in the slot range, the packed word of the sum is the sum of the packed
    words. *)
Theorem packing_additive (T : int_type) (k : Z) (xs ys : list Z) (n1 n2 : Z) :
  is_bit_packable T = true -> valid_arity T k ->
  Z.of_nat (length xs) = k -> Z.of_nat (length ys) = k ->
  Forall (in_slot_range T k) xs -> Forall (in_slot_range T k) ys ->
  Forall (in_slot_range T k) (zip_with Z.add xs ys) ->
  pack T k xs = Ok n1 -> pack T k ys = Ok n2 ->
  pack T k (zip_with Z.add xs ys) = Ok (n1 + n2).
Proof.
  intros HT Hv Hlx Hly Hxs Hys Hsum Hpx Hpy.
  pose proof (is_bit_packable_digits T HT) as Hd.
  rewrite (pack_value_any T Hd k xs Hv Hlx Hxs) in Hpx.
  rewrite (pack_value_any T Hd k ys Hv Hly Hys) in Hpy.
  injection Hpx as <-. injection Hpy as <-.
  rewrite (pack_value_any T Hd k _ Hv); [|rewrite length_zip_with; lia|assumption].
  rewrite packed_value_add by lia. reflexivity.
Qed.

Lemma packing_additive_witness :
  pack t_int 3 (zip_with Z.add [1; -2; 3] [4; 5; -6]) = Ok (3143681 + (-6286332)).
Proof.
  apply (packing_additive t_int 3 [1; -2; 3] [4; 5; -6]).
  - reflexivity.
  - vm_compute. split; [discriminate | first [reflexivity | discriminate]].
  - reflexivity.
  - reflexivity.
  - repeat constructor; vm_compute; discriminate.
  - repeat constructor; vm_compute; discriminate.
  - repeat constructor; vm_compute; discriminate.
  - vm_compute. reflexivity.
  - vm_compute. reflexivity.
Defined.

Lemma packed_value_zeros p n : packed_value p (replicate n 0) = 0.
Proof. rewrite packed_value_replicate. reflexivity. Qed.

(** X11. With one slot the packed word is the value itself: every value of
    [T] packs, for size one, to itself and unpacks to itself. *)
Theorem single_slot_identity (T : int_type) (n : Z) :
  is_bit_packable T = true -> representable T n ->
  pack T 1 [n] = Ok n /\ unpack T n 1 = Ok [n].
Proof.
  intros HT Hn. pose proof (is_bit_packable_digits T HT) as Hd.
  assert (Hv : valid_arity T 1).
  { unfold valid_arity, nbits. destruct (is_signed T); lia. }
  assert (Hin : in_slot_range T 1 n).
  { unfold in_slot_range, slot_min, slot_max, slot_bits, nbits.
    unfold representable in Hn. unfold limits_min, limits_max in *.
    destruct (is_signed T); simpl; [exact Hn|].
    rewrite Z.div_1_r. exact Hn. }
  destruct (unpack_pack T Hd 1 [n] Hv ltac:(lia) eq_refl
              ltac:(constructor; [exact Hin|constructor])) as [Hp Hu].
  simpl packed_value in Hp, Hu. rewrite Z.mul_0_r, Z.add_0_r in Hp, Hu.
  split; assumption.
Qed.

Lemma single_slot_identity_witness :
  pack t_int (1) [-2147483648] = Ok (-2147483648) /\
  unpack t_int (-2147483648) 1 = Ok [-2147483648].
Proof.
  apply (single_slot_identity t_int (-2147483648)).
  - reflexivity.
  - vm_compute. split; discriminate.
Defined.

(** X12. The zero vector and the zero word: for every valid size, [k]
    zeros pack to the word zero, and the word zero unpacks to [k] zeros. *)
Theorem zero_vector_zero_word (T : int_type) (k : Z) :
  is_bit_packable T = true -> valid_arity T k ->
  pack T k (replicate (Z.to_nat k) 0) = Ok 0 /\
  unpack T 0 k = Ok (replicate (Z.to_nat k) 0).
Proof.
  intros HT Hv. pose proof (is_bit_packable_digits T HT) as Hd.
  assert (0 <= k) by (unfold valid_arity in Hv; destruct (is_signed T); lia).
  destruct (Z.eq_dec k 0) as [->|Hk0].
  - split; [apply pack_zero; assumption | apply unpack_zero; assumption].
  - destruct (unpack_pack T Hd k (replicate (Z.to_nat k) 0) Hv ltac:(lia)) as [Hp Hu].
    + rewrite length_replicate. lia.
    + apply Forall_replicate. apply in_slot_range_zero; [assumption..|lia].
    + rewrite packed_value_zeros in Hp, Hu. split; assumption.
Qed.

Lemma zero_vector_zero_word_witness :
  pack t_unsigned_long 5 (replicate (Z.to_nat 5) 0) = Ok 0 /\
  unpack t_unsigned_long 0 5 = Ok (replicate (Z.to_nat 5) 0).
Proof.
  apply (zero_vector_zero_word t_unsigned_long 5).
  - reflexivity.
  - vm_compute. split; discriminate.
Defined.

(** X16. When packing succeeds: a vector of the length of the packer (of
    non-negative values, for an unsigned type) packs to a word exactly when
    the size is valid and every value lies in the slot range. *)
Theorem pack_succeeds_iff (T : int_type) (k : Z) (xs : list Z) :
  is_bit_packable T = true ->
  Z.of_nat (length xs) = k ->
  Forall (fun x => is_signed T = false -> 0 <= x) xs ->
  (exists n, pack T k xs = Ok n) <->
  valid_arity T k /\ Forall (in_slot_range T k) xs.
Proof.
  intros HT Hlen Hnn. pose proof (is_bit_packable_digits T HT) as Hd. split.
  - intros (n & Hn). exact (pack_ok_inv T Hd k xs n Hn Hlen Hnn).
  - intros (Hv & Hxs). eexists. apply pack_value_any; assumption.
Qed.

Lemma pack_succeeds_iff_witness :
  (exists n, pack t_unsigned 2 [3; 65536] = Ok n) <->
  valid_arity t_unsigned 2 /\ Forall (in_slot_range t_unsigned 2) [3; 65536].
Proof.
  apply (pack_succeeds_iff t_unsigned 2 [3; 65536]).
  - reflexivity.
  - reflexivity.
  - repeat constructor; intros _; lia.
Defined.

(** ** The table of packed bounds *)

Lemma sbp_minmax_loop_length T idxs : forall retval tbl,
  sbp_minmax_loop T idxs retval = Ok tbl -> length tbl = length retval.
Proof.
  induction idxs as [|i idxs IH]; intros retval tbl Hloop.
  - simpl in Hloop. congruence.
  - cbn [sbp_minmax_loop] in Hloop.
    destruct (sbp_minmax_row T i) as [row|e]; [|discriminate].
    cbn [rbind] in Hloop. apply IH in Hloop. rewrite length_insert in Hloop. exact Hloop.
Qed.

(** X10. The table of packed bounds of a signed type: the computation does
    not throw, the table has one row for each size from one to the number of
    value bits, and row [k - 1] holds the packed words of [k] copies of the
    smallest and of the largest slot value. These are values of [T], the
    first not above and the second not below zero, they are
    [2 ^ (pbits * k) - 1] apart, and every packed word of size [k] lies
    between them. *)
Theorem minmax_table_rows (T : int_type) :
  is_bit_packable T = true -> is_signed T = true ->
  exists tbl, sbp_compute_minmax_packed T = Ok tbl /\
    length tbl = Z.to_nat (limits_digits T) /\
    forall k, 1 <= k <= limits_digits T ->
      exists lo hi, tbl !! Z.to_nat (k - 1) = Some (lo, hi) /\
        pack T k (replicate (Z.to_nat k) (slot_min T k)) = Ok lo /\
        pack T k (replicate (Z.to_nat k) (slot_max T k)) = Ok hi /\
        limits_min T <= lo /\ lo <= 0 /\ 0 <= hi /\ hi <= limits_max T /\
        hi - lo = 2 ^ (slot_bits T k * k) - 1 /\
        (forall xs m, Z.of_nat (length xs) = k -> Forall (in_slot_range T k) xs ->
                      pack T k xs = Ok m -> lo <= m <= hi).
Proof.
  intros HT Hs. pose proof (is_bit_packable_digits T HT) as Hd.
  pose proof (sbp_get_mmp_lookup T Hs Hd 1 ltac:(lia)) as Hrow1.
  unfold sbp_get_mmp in Hrow1.
  destruct (sbp_compute_minmax_packed T) as [tbl|e] eqn:Heq; [|discriminate].
  assert (Hg : sbp_get_mmp T = tbl) by (unfold sbp_get_mmp; rewrite Heq; reflexivity).
  exists tbl. split; [reflexivity|]. split.
  - unfold sbp_compute_minmax_packed in Heq. apply sbp_minmax_loop_length in Heq.
    rewrite length_insert, length_replicate in Heq. exact Heq.
  - intros k Hk.
    assert (Hv : valid_arity T k) by (apply valid_arity_signed; auto; lia).
    exists (min_packed T k), (max_packed T k).
    destruct (pack_bounds T Hd k Hv ltac:(lia)) as [Hlo Hhi].
    destruct (packed_bounds_representable T Hd k Hv ltac:(lia)) as [Hrl Hrh].
    pose proof (packed_value_between T Hd k (replicate (Z.to_nat k) 0) Hv ltac:(lia)) as Hz.
    rewrite packed_value_zeros, length_replicate in Hz.
    specialize (Hz ltac:(lia)
                   ltac:(apply Forall_replicate, in_slot_range_zero; [assumption..|lia])).
    split; [rewrite <- Hg; apply sbp_get_mmp_lookup; auto; lia|].
    repeat (split; [first [assumption | lia]|]).
    split; [apply max_minus_min_packed; auto; lia|].
    intros xs m Hlen Hxs Hm.
    rewrite (pack_value T Hd k xs Hv ltac:(lia) Hlen Hxs) in Hm. injection Hm as <-.
    apply packed_value_between; auto. lia.
Qed.

Lemma minmax_table_rows_witness :
  exists tbl, sbp_compute_minmax_packed t_int = Ok tbl /\
    length tbl = Z.to_nat (limits_digits t_int) /\
    forall k, 1 <= k <= limits_digits t_int ->
      exists lo hi, tbl !! Z.to_nat (k - 1) = Some (lo, hi) /\
        pack t_int k (replicate (Z.to_nat k) (slot_min t_int k)) = Ok lo /\
        pack t_int k (replicate (Z.to_nat k) (slot_max t_int k)) = Ok hi /\
        limits_min t_int <= lo /\ lo <= 0 /\ 0 <= hi /\ hi <= limits_max t_int /\
        hi - lo = 2 ^ (slot_bits t_int k * k) - 1 /\
        (forall xs m, Z.of_nat (length xs) = k ->
                      Forall (in_slot_range t_int k) xs ->
                      pack t_int k xs = Ok m -> lo <= m <= hi).
Proof.
  apply (minmax_table_rows t_int).
  - reflexivity.
  - reflexivity.
Defined.

(** ** Shifts and wrap-around *)

Section UnsignedShifts.

Variable T : int_type.
Hypothesis T_unsigned : is_signed T = false.
Hypothesis T_digits : 1 <= limits_digits T.

Let w := limits_digits T.

Lemma unsigned_push_defined k pre x :
  1 <= k <= w -> Z.of_nat (length pre) < k ->
  Forall (in_slot_range T k) pre -> in_slot_range T k x ->
  unsigned_lshift_defined T x (unsigned_packer_after T k pre).
Proof.
  intros Hk Hlen Hpre Hx.
  unfold unsigned_lshift_defined, unsigned_packer_after, limits_max.
  cbn [unsigned_bit_packer_impl.m_value unsigned_bit_packer_impl.m_cur_shift].
  fold w.
  destruct (unsigned_slot_bits T T_unsigned k Hk) as (_ & Hp1 & Hpk). fold w in Hpk.
  unfold in_slot_range in Hx.
  rewrite unsigned_slot_min, unsigned_slot_max in Hx by assumption.
  assert (Hall : Forall (fun d => 0 <= d < 2 ^ slot_bits T k) (pre ++ [x])).
  { apply Forall_app; split.
    - eapply Forall_impl; [exact Hpre|]. intros y Hy. unfold in_slot_range in Hy.
      rewrite unsigned_slot_min, unsigned_slot_max in Hy by assumption. lia.
    - constructor; [lia|constructor]. }
  assert (Hp0 : 0 <= slot_bits T k) by lia.
  pose proof (packed_value_digits_bound _ _ Hp0 Hall) as Hb.
  rewrite packed_value_app in Hb by lia.
  rewrite length_app, Nat2Z.inj_add in Hb. simpl length in Hb.
  simpl packed_value in Hb. rewrite Z.mul_0_r, Z.add_0_r in Hb.
  change (Z.of_nat 1) with 1 in Hb.
  apply Forall_app in Hall as [Hall1 _].
  pose proof (packed_value_digits_bound _ _ Hp0 Hall1) as Hb1.
  set (p := slot_bits T k) in *. set (j := Z.of_nat (length pre)) in *.
  assert (Hj : 0 <= j) by (unfold j; lia).
  rewrite Z.shiftl_mul_pow2 by nia.
  pose proof (pow2_pos (p * j) ltac:(nia)) as HA.
  pose proof (pow2_le (p * (j + 1)) w ltac:(nia)) as Hle.
  split; [nia|]. split; nia.
Qed.

Lemma unsigned_pushes_defined_after k xs : forall pre,
  1 <= k <= w -> Z.of_nat (length pre) + Z.of_nat (length xs) <= k ->
  Forall (in_slot_range T k) pre -> Forall (in_slot_range T k) xs ->
  unsigned_pushes_defined T xs (unsigned_packer_after T k pre).
Proof.
  induction xs as [|x xs IH]; intros pre Hk Hl Hpre Hxs; [exact I|].
  apply Forall_cons in Hxs as [Hx Hxs]. simpl length in Hl.
  cbn [unsigned_pushes_defined]. split.
  - apply unsigned_push_defined; auto. lia.
  - rewrite (unsigned_push T T_unsigned T_digits k pre x) by (auto; lia).
    apply IH; auto.
    + rewrite length_app. simpl length. lia.
    + apply Forall_app; split; auto.
Qed.

End UnsignedShifts.

(** X13. The unsigned packer never wraps around: when the values pushed
    into a packer of a valid size [k >= 1] lie in the slot range, every
    push shifts by less than the width of [T], and neither the shifted
    value nor the new accumulator exceeds the largest value of [T]. *)
Theorem unsigned_pushes_never_wrap (T : int_type) (k : Z) (xs : list Z) :
  is_bit_packable T = true ->
  is_signed T = false ->
  1 <= k <= nbits T ->
  Z.of_nat (length xs) <= k ->
  Forall (in_slot_range T k) xs ->
  exists st0, unsigned_bit_packer_impl.ctor T k = Ok st0 /\
              unsigned_pushes_defined T xs st0.
Proof.
  intros HT Hs Hk Hlen Hxs. apply is_bit_packable_digits in HT.
  rewrite nbits_unsigned in Hk by auto.
  exists (unsigned_packer_after T k []).
  split; [apply unsigned_packer_ctor; auto|].
  apply unsigned_pushes_defined_after; auto; simpl; lia.
Qed.

Lemma unsigned_pushes_never_wrap_witness :
  exists st0, unsigned_bit_packer_impl.ctor t_unsigned 2 = Ok st0 /\
              unsigned_pushes_defined t_unsigned [65535; 65535] st0.
Proof.
  apply (unsigned_pushes_never_wrap t_unsigned 2 [65535; 65535]).
  - reflexivity.
  - reflexivity.
  - vm_compute. split; discriminate.
  - simpl. lia.
  - repeat constructor; vm_compute; discriminate.
Defined.

Section UnpackerShifts.

Variable T : int_type.
Hypothesis T_digits : 1 <= limits_digits T.

Lemma signed_pops_defined k n m : forall j : nat,
  is_signed T = true -> 2 <= k < limits_digits T + 1 ->
  Z.of_nat j + Z.of_nat m <= k ->
  pops_defined T m (bit_unpacker.of_signed (signed_unpacker_after T k n j)).
Proof.
  induction m as [|m IH]; intros j Hs Hk Hjm; [exact I|].
  destruct (signed_slot_bits_general T Hs k Hk) as (_ & Hp1 & Hpk).
  cbn [pops_defined]. split.
  - unfold rshift_defined, signed_unpacker_after.
    cbn [signed_bit_unpacker_impl.m_cur_shift signed_bit_unpacker_impl.m_pbits].
    nia.
  - cbn [bit_unpacker.op_rshift].
    rewrite (signed_pop T Hs T_digits k n j) by lia.
    apply IH; auto. lia.
Qed.

Lemma unsigned_pops_defined k n m : forall j : nat,
  is_signed T = false -> 1 <= k <= limits_digits T ->
  Z.of_nat j + Z.of_nat m <= k ->
  pops_defined T m (bit_unpacker.of_unsigned (unsigned_unpacker_after T k n j)).
Proof.
  induction m as [|m IH]; intros j Hs Hk Hjm; [exact I|].
  destruct (unsigned_slot_bits T Hs k Hk) as (_ & Hp1 & Hpk).
  cbn [pops_defined]. split.
  - unfold rshift_defined, unsigned_unpacker_after.
    cbn [unsigned_bit_unpacker_impl.m_pbits].
    destruct (Z.eqb_spec k 1); [lia|nia].
  - cbn [bit_unpacker.op_rshift].
    rewrite (unsigned_pop T Hs k n j) by lia.
    apply IH; auto. lia.
Qed.

End UnpackerShifts.

(** X14. The unpacker never shifts by the width of [T] or more: on an
    unpacker built for a valid size [k] on a word of [T], the [k] pops all
    succeed, and in each one the shift counts are non-negative and below
    the width (for one unsigned slot the count is zero, not the width). *)
Theorem pops_never_shift_by_width (T : int_type) (k n : Z) (bu0 : bit_unpacker.t) :
  is_bit_packable T = true ->
  valid_arity T k ->
  representable T n ->
  bit_unpacker.ctor T n k = Ok bu0 ->
  pops_defined T (Z.to_nat k) bu0.
Proof.
  intros HT Hv Hn Hctor. pose proof (is_bit_packable_digits T HT) as Hd.
  pose proof Hv as Hv'. unfold valid_arity, nbits in Hv'.
  unfold bit_unpacker.ctor in Hctor.
  destruct (Z.eq_dec k 0) as [->|Hk0]; [exact I|].
  destruct (is_signed T) eqn:Hs.
  - destruct (Z.eq_dec k 1) as [->|Hk1].
    + unfold signed_bit_unpacker_impl.ctor in Hctor.
      destruct (Z.leb_spec (limits_digits T + 1) 1); [lia|].
      simpl in Hctor. injection Hctor as <-. simpl.
      split; [lia|exact I].
    + rewrite (signed_unpacker_ctor T Hs Hd k n) in Hctor by (auto; lia).
      destruct ((n <? min_packed T k) || (max_packed T k <? n)); [discriminate|].
      simpl in Hctor. injection Hctor as <-.
      apply signed_pops_defined; auto; lia.
  - rewrite (unsigned_unpacker_ctor T Hs Hd k n) in Hctor by lia.
    destruct (max_packed T k <? n); [discriminate|].
    simpl in Hctor. injection Hctor as <-.
    apply unsigned_pops_defined; auto; lia.
Qed.

Lemma pops_never_shift_by_width_witness :
  pops_defined t_unsigned (Z.to_nat 1)
    (bit_unpacker.of_unsigned (unsigned_bit_unpacker_impl.mk 4294967295 4294967295 0 1 0)).
Proof.
  apply (pops_never_shift_by_width t_unsigned 1 4294967295).
  - reflexivity.
  - vm_compute. split; discriminate.
  - vm_compute. split; discriminate.
  - reflexivity.
Defined.

(** ** Popping fewer values than the size *)

Lemma pop_n_app T (j m : nat) : forall bu,
  pop_n T (j + m) bu
  = (xs <~ pop_n T j ;; ys <~ pop_n T m ;; mret (xs ++ ys)) bu.
Proof.
  induction j as [|j IH]; intros bu.
  - cbn [Nat.add pop_n]. unfold mbind, mret.
    destruct (pop_n T m bu) as [bu' [ys|e]]; reflexivity.
  - cbn [Nat.add pop_n]. unfold mbind, mret in IH |- *.
    destruct (bit_unpacker.op_rshift T bu) as [bu1 [x|e]]; [|reflexivity].
    rewrite IH.
    destruct (pop_n T j bu1) as [bu2 [xs|e]]; [|reflexivity].
    destruct (pop_n T m bu2) as [bu3 [ys|e]]; reflexivity.
Qed.

Lemma pop_n_length T (j : nat) : forall bu bu' xs,
  pop_n T j bu = (bu', Ok xs) -> length xs = j.
Proof.
  induction j as [|j IH]; intros bu bu' xs Hpop.
  - cbn in Hpop. injection Hpop as _ <-. reflexivity.
  - cbn [pop_n] in Hpop. unfold mbind, mret in Hpop.
    destruct (bit_unpacker.op_rshift T bu) as [bu1 [x|e]]; [|discriminate].
    destruct (pop_n T j bu1) as [bu2 [ys|e]] eqn:Hrest; [|discriminate].
    injection Hpop as _ <-. simpl. f_equal. eapply IH. exact Hrest.
Qed.

Lemma pop_n_prefix T (j m : nat) bu bu' xs :
  pop_n T (j + m) bu = (bu', Ok xs) ->
  exists bu1, pop_n T j bu = (bu1, Ok (take j xs)) /\
              pop_n T m bu1 = (bu', Ok (drop j xs)).
Proof.
  rewrite pop_n_app. unfold mbind, mret.
  destruct (pop_n T j bu) as [bu1 [ys|e]] eqn:Hj; [|discriminate].
  destruct (pop_n T m bu1) as [bu2 [zs|e]] eqn:Hm; [|discriminate].
  intros [= <- <-]. pose proof (pop_n_length T j bu bu1 ys Hj) as Hl.
  exists bu1. rewrite take_app_length', drop_app_length' by lia. auto.
Qed.

(** X15. The values come out in the order they were pushed, and popping
    may stop early: on the packed word of a vector of the slot range, [j]
    pops (no more than the size) return the first [j] values of the
    vector. *)
Theorem partial_unpacking (T : int_type) (k : Z) (xs : list Z) (n : Z) (j : nat) :
  is_bit_packable T = true -> valid_arity T k ->
  Z.of_nat (length xs) = k -> Forall (in_slot_range T k) xs ->
  pack T k xs = Ok n -> (j <= length xs)%nat ->
  run (bit_unpacker.ctor T n k) (pop_n T j) = Ok (take j xs).
Proof.
  intros HT Hv Hlen Hxs Hpack Hj. pose proof (is_bit_packable_digits T HT) as Hd.
  destruct (pack_then_unpack T Hd k xs Hv Hlen Hxs) as (n' & Hn' & Hun).
  assert (n' = n) by congruence. subst n'.
  unfold unpack, run in Hun |- *.
  destruct (bit_unpacker.ctor T n k) as [bu|e]; [|discriminate].
  cbn [rbind] in Hun |- *.
  replace (Z.to_nat k) with (j + (length xs - j))%nat in Hun by lia.
  destruct (pop_n T (j + (length xs - j)) bu) as [bu' r] eqn:Hpop.
  simpl in Hun. subst r.
  apply pop_n_prefix in Hpop as (bu1 & Hpre & _). rewrite Hpre. reflexivity.
Qed.

Lemma partial_unpacking_witness :
  run (bit_unpacker.ctor t_int 3143681 3) (pop_n t_int 2) = Ok (take 2 [1; -2; 3]).
Proof.
  apply (partial_unpacking t_int 3 [1; -2; 3] 3143681 2).
  - reflexivity.
  - vm_compute. split; [discriminate | reflexivity].
  - reflexivity.
  - repeat constructor; vm_compute; discriminate.
  - vm_compute. reflexivity.
  - simpl. lia.
Defined.
